(** * async/promise.go: goroutine-level model of the Promise primitive

    The Go package [async] builds a TypeScript-like [Promise] out of three
    buffered channels of capacity one ([result], [err], [done]) and a
    mutex-protected triple ([state], [value], [error]).  This development
    embeds the package as programs over a small set of Go primitives
    (channel send / receive / select / close, [sync.WaitGroup], slices,
    [go] statements, [time.Sleep]) and gives those primitives an
    interleaving semantics, so that the blocking behaviour of the code can
    be stated and proved.

    Conventions of the model:
    - a goroutine is a program in continuation-passing style ([prog]);
      every primitive is one scheduling step;
    - a critical section guarded by a mutex ([p.mu.Lock() ... Unlock()],
      [p.mu.RLock() ... RUnlock()], [mu.Lock(); append; mu.Unlock()]) is one
      atomic step, as every access to the guarded data takes the lock;
    - an [error] is [nil] ([None]) or a structured fault, one constructor per
      [fmt.Errorf] call site of the package;
    - time is logical: a clock tick happens only when no goroutine can run
      (goroutines are fast with respect to the durations they sleep). *)

From Stdlib Require Import ZArith String Lia.
From stdpp Require Import base option list.

Set Warnings "-register-all".

(** ** Values, faults and channels *)

(** Faults: the errors the package itself creates, and opaque domain errors
    returned by executors. *)
Inductive fault : Type :=
| Msg (s : string)                 (* a domain error with message s *)
| PanicFault (r : string)          (* fmt.Errorf("panic: %v", r) *)
| AwaitTimeout (d : nat)           (* fmt.Errorf("promise timeout after %v", timeout) *)
| OperationTimeout (d : nat)       (* fmt.Errorf("operation timed out after %v", duration) *)
| AllRejected (l : list fault).    (* fmt.Errorf("all promises rejected: %v", errors) *)

(** Go's [error] interface value: [None] is [nil]. *)
Definition error : Type := option fault.

(** PromiseState (promise.go:22-28). *)
Inductive PromiseState : Type := Pending | Fulfilled | Rejected.

(** The values that flow through promises, channels and slices.  [VZero] is
    the zero value of the type at hand ([var zero T]). *)
Inductive val : Type :=
| VZero
| VInt (n : Z)
| VStr (s : string)
| VBool (b : bool)
| VErr (e : error)
| VSlice (l : list val)
| VResult (status : string) (v : val) (reason : error).   (* PromiseResult[T] *)

Definition as_error (x : val) : error :=
  match x with VErr e => e | _ => None end.

(** A buffered channel: the queue of buffered items, the capacity and the
    closed flag. *)
Record chan : Type := Chan { buf : list val; cap : nat; closed : bool }.

Definition make_chan (n : nat) : chan := Chan [] n false.

(** Outcome of a send: done, would block (buffer full), or panic (closed). *)
Inductive send_result : Type :=
| Sent (c : chan)
| SendBlocks
| SendPanics.

Definition chan_send (c : chan) (x : val) : send_result :=
  if closed c then SendPanics
  else if length (buf c) <? cap c then Sent (Chan (buf c ++ [x]) (cap c) false)
  else SendBlocks.

(** Receive: [Some (Some x, c')] takes the head of the buffer,
    [Some (None, c)] is the zero value of a closed and drained channel,
    [None] blocks. *)
Definition chan_recv (c : chan) : option (option val * chan) :=
  match buf c with
  | x :: b => Some (Some x, Chan b (cap c) (closed c))
  | [] => if closed c then Some (None, c) else None
  end.

(** ** The Promise struct (promise.go:11-19)

    The three channel fields hold their buffers; [mu] is modelled by atomic
    access to ([p_state], [p_value], [p_error]). *)
Record Promise : Type := MkPromise {
  p_result : chan;
  p_err : chan;
  p_done : chan;
  p_state : PromiseState;
  p_value : val;
  p_error : error
}.

Definition new_promise (st : PromiseState) (v : val) (e : error) : Promise :=
  MkPromise (make_chan 1) (make_chan 1) (make_chan 1) st v e.

(** ** Shared memory *)

Record heap : Type := Heap {
  cells : list Promise;        (* *Promise values, by address *)
  chans : list chan;           (* channels made by make(chan _, n) *)
  wgs : list nat;              (* sync.WaitGroup counters *)
  slices : list (list val)     (* slices shared between goroutines *)
}.

Definition empty_heap : heap := Heap [] [] [] [].

(** A channel is a local one or a field of a Promise. *)
Inductive chanref : Type :=
| Local (a : nat)
| Result (p : nat)
| Err (p : nat)
| Done (p : nat).

Definition get_chan (h : heap) (r : chanref) : option chan :=
  match r with
  | Local a => chans h !! a
  | Result p => p_result <$> cells h !! p
  | Err p => p_err <$> cells h !! p
  | Done p => p_done <$> cells h !! p
  end.

Definition set_cells (h : heap) (cs : list Promise) : heap :=
  Heap cs (chans h) (wgs h) (slices h).
Definition set_chans (h : heap) (cs : list chan) : heap :=
  Heap (cells h) cs (wgs h) (slices h).
Definition set_wgs (h : heap) (ws : list nat) : heap :=
  Heap (cells h) (chans h) ws (slices h).
Definition set_slices (h : heap) (ss : list (list val)) : heap :=
  Heap (cells h) (chans h) (wgs h) ss.

Definition with_result (c : chan) (p : Promise) : Promise :=
  MkPromise c (p_err p) (p_done p) (p_state p) (p_value p) (p_error p).
Definition with_err (c : chan) (p : Promise) : Promise :=
  MkPromise (p_result p) c (p_done p) (p_state p) (p_value p) (p_error p).
Definition with_done (c : chan) (p : Promise) : Promise :=
  MkPromise (p_result p) (p_err p) c (p_state p) (p_value p) (p_error p).
Definition with_outcome (st : PromiseState) (v : val) (e : error) (p : Promise) : Promise :=
  MkPromise (p_result p) (p_err p) (p_done p) st v e.

Definition set_chan (h : heap) (r : chanref) (c : chan) : heap :=
  match r with
  | Local a => set_chans h (<[a := c]> (chans h))
  | Result p => set_cells h (alter (with_result c) p (cells h))
  | Err p => set_cells h (alter (with_err c) p (cells h))
  | Done p => set_cells h (alter (with_done c) p (cells h))
  end.

(** ** Goroutine programs

    One constructor per Go primitive the package uses; the continuation
    receives what the primitive yields. *)
Inductive prog : Type :=
| Return (v : val) (e : error)                       (* return v, e / end of body *)
| Panic (r : string)                                 (* panic(r) *)
| MakeChan (n : nat) (k : nat -> prog)               (* make(chan _, n) *)
| Send (c : chanref) (x : val) (k : prog)            (* c <- x *)
| Recv (c : chanref) (k : option val -> prog)        (* x, ok := <-c *)
| TrySend (c : chanref) (x : val) (k : prog)         (* select { case c <- x: default: } *)
| Select2 (c1 c2 : chanref) (k1 k2 : val -> prog)    (* select { case x := <-c1: case y := <-c2: } *)
| SelectAfter (c : chanref) (d : nat) (k1 : val -> prog) (k2 : prog)
                                                     (* select { case <-c: case <-time.After(d): } *)
| Close (a : nat) (k : prog)                         (* close(c), c a local channel *)
| NewCell (st : PromiseState) (v : val) (e : error) (k : nat -> prog)
                                                     (* p := &Promise{...} *)
| NewPromise (executor : prog) (k : nat -> prog)     (* p := NewPromise(executor) *)
| Load (p : nat) (k : PromiseState -> val -> error -> prog)
                                                     (* p.mu.RLock(); read; p.mu.RUnlock() *)
| Go (body : prog) (k : prog)                        (* go func() { body }() *)
| MakeWg (k : nat -> prog)                           (* var wg sync.WaitGroup *)
| WgAdd (w : nat) (n : nat) (k : prog)               (* wg.Add(n) *)
| WgDone (w : nat) (k : prog)                        (* wg.Done() *)
| WgWait (w : nat) (k : prog)                        (* wg.Wait() *)
| MakeSlice (l : list val) (k : nat -> prog)         (* make([]T, n) / make([]T, 0, n) *)
| Store (s : nat) (i : nat) (x : val) (k : prog)     (* s[i] = x *)
| Append (s : nat) (x : val) (k : prog)              (* mu.Lock(); s = append(s, x); mu.Unlock() *)
| LoadSlice (s : nat) (k : list val -> prog)         (* read of the whole slice *)
| TimeSleep (d : nat) (k : prog).                    (* time.Sleep(d) *)

(** The goroutine NewPromise starts (promise.go:55-81) runs the executor and
    then settles the promise; [stage] is its program counter. *)
Inductive stage : Type :=
| Exec (body : prog)          (* result, err := executor(), possibly panicking *)
| SendResult (v : val)        (* p.result <- result *)
| SendErr (e : error)         (* p.err <- err *)
| SendDone                    (* p.done <- true *)
| Finished.

Inductive thread : Type :=
| Plain (body : prog)             (* the main goroutine, or a go statement *)
| Producer (p : nat) (s : stage). (* the goroutine of NewPromise on cell p *)

(** ** Semantics of the primitives *)

Definition set_fulfilled (v : val) (p : Promise) : Promise :=
  MkPromise (p_result p) (p_err p) (p_done p) Fulfilled v (p_error p).
Definition set_rejected (e : error) (p : Promise) : Promise :=
  MkPromise (p_result p) (p_err p) (p_done p) Rejected (p_value p) e.

Definition update_cell (f : Promise -> Promise) (p : nat) (h : heap) : heap :=
  set_cells h (alter f p (cells h)).

Definition or_zero (x : option val) : val := default VZero x.

(** What a goroutine does next: the new memory, the rest of the goroutine and
    the goroutines it started.  The empty list means the goroutine is
    blocked (or has returned).  Addresses come from allocation; an operation
    on an address that was never allocated blocks, as on a nil channel. *)
Definition step_result (A : Type) : Type := list (heap * A * list thread).

Definition send_step (h : heap) (c : chanref) (x : val) (k : prog) : step_result prog :=
  match get_chan h c with
  | Some ch =>
      match chan_send ch x with
      | Sent ch' => [(set_chan h c ch', k, [])]
      | SendBlocks => []
      | SendPanics => [(h, Panic "send on closed channel"%string, [])]
      end
  | None => []
  end.

Definition recv_step (h : heap) (c : chanref) (k : option val -> prog) : step_result prog :=
  match get_chan h c ≫= chan_recv with
  | Some (x, ch') => [(set_chan h c ch', k x, [])]
  | None => []
  end.

Definition prog_step (h : heap) (m : prog) : step_result prog :=
  match m with
  | Return _ _ => []
  | Panic _ => []
  | MakeChan n k =>
      [(set_chans h (chans h ++ [make_chan n]), k (length (chans h)), [])]
  | Send c x k => send_step h c x k
  | Recv c k => recv_step h c k
  | TrySend c x k =>
      match send_step h c x k with
      | [] => [(h, k, [])]          (* default: *)
      | r => r
      end
  | Select2 c1 c2 k1 k2 =>
      recv_step h c1 (fun x => k1 (or_zero x)) ++
      recv_step h c2 (fun x => k2 (or_zero x))
  | SelectAfter c d k1 k2 =>
      recv_step h c (fun x => k1 (or_zero x)) ++
      match d with O => [(h, k2, [])] | S _ => [] end
  | Close a k =>
      match chans h !! a with
      | Some ch =>
          if closed ch then [(h, Panic "close of closed channel"%string, [])]
          else [(set_chan h (Local a) (Chan (buf ch) (cap ch) true), k, [])]
      | None => []
      end
  | NewCell st v e k =>
      [(set_cells h (cells h ++ [new_promise st v e]), k (length (cells h)), [])]
  | NewPromise executor k =>
      let p := length (cells h) in
      [(set_cells h (cells h ++ [new_promise Pending VZero None]), k p,
        [Producer p (Exec executor)])]
  | Load p k =>
      match cells h !! p with
      | Some c => [(h, k (p_state c) (p_value c) (p_error c), [])]
      | None => []
      end
  | Go body k => [(h, k, [Plain body])]
  | MakeWg k => [(set_wgs h (wgs h ++ [0]), k (length (wgs h)), [])]
  | WgAdd w n k =>
      match wgs h !! w with
      | Some c => [(set_wgs h (<[w := c + n]> (wgs h)), k, [])]
      | None => []
      end
  | WgDone w k =>
      match wgs h !! w with
      | Some (S c) => [(set_wgs h (<[w := c]> (wgs h)), k, [])]
      | Some O => [(h, Panic "sync: negative WaitGroup counter"%string, [])]
      | None => []
      end
  | WgWait w k =>
      match wgs h !! w with
      | Some O => [(h, k, [])]
      | _ => []
      end
  | MakeSlice l k =>
      [(set_slices h (slices h ++ [l]), k (length (slices h)), [])]
  | Store s i x k =>
      match slices h !! s with
      | Some l =>
          if i <? length l then [(set_slices h (<[s := <[i := x]> l]> (slices h)), k, [])]
          else [(h, Panic "index out of range"%string, [])]
      | None => []
      end
  | Append s x k =>
      match slices h !! s with
      | Some l => [(set_slices h (<[s := l ++ [x]]> (slices h)), k, [])]
      | None => []
      end
  | LoadSlice s k =>
      match slices h !! s with
      | Some l => [(h, k l, [])]
      | None => []
      end
  | TimeSleep d k =>
      match d with O => [(h, k, [])] | S _ => [] end
  end.

Definition lift_step {A B : Type} (f : A -> B) (r : step_result A) : step_result B :=
  (fun '(h, a, sp) => (h, f a, sp)) <$> r.

(** The goroutine of NewPromise (promise.go:55-81).  A panic of the executor,
    or of a send, is recovered by the deferred function (lines 56-65), which
    rejects the promise with [fmt.Errorf("panic: %v", r)]. *)
Definition recovered (h : heap) (p : nat) (r : string) : step_result thread :=
  let e := Some (PanicFault r) in
  [(update_cell (set_rejected e) p h, Producer p (SendErr e), [])].

Definition publish (h : heap) (p : nat) (c : chanref) (x : val) (next : stage)
  : step_result thread :=
  match get_chan h c with
  | Some ch =>
      match chan_send ch x with
      | Sent ch' => [(set_chan h c ch', Producer p next, [])]
      | SendBlocks => []
      | SendPanics => recovered h p "send on closed channel"%string
      end
  | None => []
  end.

Definition thread_step (h : heap) (t : thread) : step_result thread :=
  match t with
  | Plain m => lift_step Plain (prog_step h m)
  | Producer p (Exec (Return v None)) =>
      [(update_cell (set_fulfilled v) p h, Producer p (SendResult v), [])]
  | Producer p (Exec (Return v (Some f))) =>
      [(update_cell (set_rejected (Some f)) p h, Producer p (SendErr (Some f)), [])]
  | Producer p (Exec (Panic r)) => recovered h p r
  | Producer p (Exec m) => lift_step (fun m' => Producer p (Exec m')) (prog_step h m)
  | Producer p (SendResult v) => publish h p (Result p) v SendDone
  | Producer p (SendErr e) => publish h p (Err p) (VErr e) SendDone
  | Producer p SendDone => publish h p (Done p) (VBool true) Finished
  | Producer p Finished => []
  end.

(** ** Configurations and the scheduler *)

Record config : Type := Config {
  now : nat;                 (* clock ticks elapsed *)
  mem : heap;
  pool : list thread
}.

(** Successors of [c] by a step of goroutine [i]. *)
Definition run_thread (c : config) (i : nat) : list config :=
  match pool c !! i with
  | Some t =>
      (fun '(h, t', sp) => Config (now c) h (<[i := t']> (pool c) ++ sp))
        <$> thread_step (mem c) t
  | None => []
  end.

Definition sched (c : config) : list config :=
  flat_map (run_thread c) (seq 0 (length (pool c))).

(** Timers: a goroutine in [time.Sleep(d)] or in a select with
    [time.After(d)], d > 0, waits for the clock. *)
Definition tick_prog (m : prog) : option prog :=
  match m with
  | TimeSleep (S d) k => Some (TimeSleep d k)
  | SelectAfter c (S d) k1 k2 => Some (SelectAfter c d k1 k2)
  | _ => None
  end.

Definition tick_thread (t : thread) : option thread :=
  match t with
  | Plain m => Plain <$> tick_prog m
  | Producer p (Exec m) => (fun m' => Producer p (Exec m')) <$> tick_prog m
  | _ => None
  end.

Definition tick (c : config) : list config :=
  if existsb (fun t => bool_decide (is_Some (tick_thread t))) (pool c)
  then [Config (S (now c)) (mem c) ((fun t => default t (tick_thread t)) <$> pool c)]
  else [].

(** One step of the system: some goroutine runs; the clock advances only
    when none can. *)
Definition step (c : config) : list config :=
  match sched c with
  | [] => tick c
  | cs => cs
  end.

Inductive steps : config -> config -> Prop :=
| steps_refl c : steps c c
| steps_step c1 c2 c3 : c2 ∈ step c1 -> steps c2 c3 -> steps c1 c3.

(** A program is started as the only goroutine over an empty memory. *)
Definition start (main : prog) : config := Config 0 empty_heap [Plain main].

(** ** The package: promise.go as programs

    A function of the package takes its Go arguments and the continuation of
    its caller.  Promises are passed by address ([*Promise[T]]). *)

(** End of a goroutine body that returns nothing. *)
Definition Exit : prog := Return VZero None.

(** Resolve (promise.go:87-98). *)
Definition Resolve (value : val) (k : nat -> prog) : prog :=
  NewCell Fulfilled value None (fun p =>
  Send (Result p) value (
  Send (Done p) (VBool true) (
  k p))).

(** Reject (promise.go:101-112). *)
Definition Reject (err : error) (k : nat -> prog) : prog :=
  NewCell Rejected VZero err (fun p =>
  Send (Err p) (VErr err) (
  Send (Done p) (VBool true) (
  k p))).

(** Await (promise.go:180-190). *)
Definition Await (p : nat) (k : val -> error -> prog) : prog :=
  Recv (Done p) (fun _ =>
  Load p (fun state value error =>
  match state with
  | Fulfilled => k value None
  | _ => k VZero error
  end)).

(** AwaitWithTimeout (promise.go:193-201). *)
Definition AwaitWithTimeout (p : nat) (timeout : nat) (k : val -> error -> prog) : prog :=
  SelectAfter (Done p) timeout
    (fun _ => Await p k)
    (k VZero (Some (AwaitTimeout timeout))).

(** GetState (promise.go:215-219). *)
Definition GetState (p : nat) (k : PromiseState -> prog) : prog :=
  Load p (fun state _ _ => k state).

(** Then (promise.go:115-132); a nil callback is [None]. *)
Definition Then (p : nat) (onFulfilled : option (val -> val))
    (onRejected : option (error -> val)) (k : nat -> prog) : prog :=
  NewPromise
    (Select2 (Result p) (Err p)
       (fun result =>
          match onFulfilled with
          | Some f => Return (f result) None
          | None => Return VZero None
          end)
       (fun err =>
          match onRejected with
          | Some g => Return (g (as_error err)) None
          | None => Return VZero (as_error err)
          end))
    k.

(** Catch (promise.go:152-165). *)
Definition Catch (p : nat) (onRejected : option (error -> val)) (k : nat -> prog) : prog :=
  NewPromise
    (Select2 (Result p) (Err p)
       (fun result => Return result None)
       (fun err =>
          match onRejected with
          | Some g => Return (g (as_error err)) None
          | None => Return VZero (as_error err)
          end))
    k.

(** [for i, promise := range promises { body }]. *)
Fixpoint for_range (body : nat -> nat -> prog -> prog) (i : nat)
    (promises : list nat) (k : prog) : prog :=
  match promises with
  | [] => k
  | p :: ps => body i p (for_range body (S i) ps k)
  end.

(** [for _, err := range errors { if err != nil { return nil, err } }]. *)
Fixpoint first_error (errors : list val) : error :=
  match errors with
  | [] => None
  | x :: rest =>
      match as_error x with
      | Some e => Some e
      | None => first_error rest
      end
  end.

(** All (promise.go:237-267): the goroutine started for each input
    (lines 245-253), the scan of the faults (lines 258-265) and the
    executor. *)
Definition All_watcher (results errors wg index p : nat) : prog :=
  Await p (fun result err =>
  match err with
  | Some _ => Store errors index (VErr err) (WgDone wg Exit)
  | None => Store results index result (WgDone wg Exit)
  end).

Definition All_collect (results errors : nat) : prog :=
  LoadSlice errors (fun errs =>
  match first_error errs with
  | Some e => Return VZero (Some e)
  | None => LoadSlice results (fun rs => Return (VSlice rs) None)
  end).

Definition All (promises : list nat) (k : nat -> prog) : prog :=
  NewPromise
    (MakeSlice (replicate (length promises) VZero) (fun results =>
     MakeSlice (replicate (length promises) (VErr None)) (fun errors =>
     MakeWg (fun wg =>
     for_range (fun index p rest =>
         WgAdd wg 1 (
         Go (All_watcher results errors wg index p)
         rest))
       0 promises (
     WgWait wg (
     All_collect results errors))))))
    k.

(** AllSettled (promise.go:270-297). *)
Definition AllSettled_watcher (results wg index p : nat) : prog :=
  Await p (fun result err =>
  match err with
  | Some _ => Store results index (VResult "rejected" VZero err) (WgDone wg Exit)
  | None => Store results index (VResult "fulfilled" result None) (WgDone wg Exit)
  end).

Definition AllSettled_collect (results : nat) : prog :=
  LoadSlice results (fun rs => Return (VSlice rs) None).

Definition AllSettled (promises : list nat) (k : nat -> prog) : prog :=
  NewPromise
    (MakeSlice (replicate (length promises) (VResult "" VZero None)) (fun results =>
     MakeWg (fun wg =>
     for_range (fun index p rest =>
         WgAdd wg 1 (
         Go (AllSettled_watcher results wg index p)
         rest))
       0 promises (
     WgWait wg (
     AllSettled_collect results)))))
    k.

(** Race (promise.go:307-337): the goroutine started for each input (lines
    313-326), the final select (lines 329-335) and the executor. *)
Definition Race_watcher (result err p : nat) : prog :=
  Await p (fun res e =>
  match e with
  | Some _ => TrySend (Local err) (VErr e) Exit
  | None => TrySend (Local result) res Exit
  end).

Definition Race_select (result err : nat) : prog :=
  Select2 (Local result) (Local err)
    (fun res => Return res None)
    (fun e => Return VZero (as_error e)).

Definition Race (promises : list nat) (k : nat -> prog) : prog :=
  NewPromise
    (MakeChan 1 (fun result =>
     MakeChan 1 (fun err =>
     for_range (fun _ p rest => Go (Race_watcher result err p) rest)
       0 promises (
     Race_select result err))))
    k.

(** The faults held by the slice [errors] of Any. *)
Definition faults_of (errors : list val) : list fault := omap as_error errors.

(** Any (promise.go:340-377): the goroutine started for each input (lines
    349-362), the goroutine that closes [result] (lines 365-368), the final
    receive (lines 370-375) and the executor. *)
Definition Any_watcher (result errors wg p : nat) : prog :=
  Await p (fun res err =>
  match err with
  | Some _ => Append errors (VErr err) (WgDone wg Exit)
  | None => TrySend (Local result) res (WgDone wg Exit)
  end).

Definition Any_closer (result wg : nat) : prog :=
  WgWait wg (Close result Exit).

Definition Any_receive (result errors : nat) : prog :=
  Recv (Local result) (fun r =>
  match r with
  | Some res => Return res None
  | None =>
      LoadSlice errors (fun errs =>
      Return VZero (Some (AllRejected (faults_of errs))))
  end).

Definition Any (promises : list nat) (k : nat -> prog) : prog :=
  NewPromise
    (MakeChan 1 (fun result =>
     MakeSlice [] (fun errors =>
     MakeWg (fun wg =>
     for_range (fun _ p rest =>
         WgAdd wg 1 (
         Go (Any_watcher result errors wg p)
         rest))
       0 promises (
     Go (Any_closer result wg) (
     Any_receive result errors))))))
    k.

(** Sleep (promise.go:380-385). *)
Definition Sleep (duration : nat) (value : val) (k : nat -> prog) : prog :=
  NewPromise (TimeSleep duration (Return value None)) k.

(** Timeout (promise.go:393-399): the timer promise is an argument of Race,
    so it is created first. *)
Definition Timeout (promise : nat) (duration : nat) (k : nat -> prog) : prog :=
  NewPromise (TimeSleep duration (Return VZero (Some (OperationTimeout duration))))
    (fun timer => Race [promise; timer] k).

(** ** Exploring the executions of a configuration *)

(** All configurations on executions from [c], when every execution has
    fewer than [fuel] steps. *)
Fixpoint reach (fuel : nat) (c : config) : option (list config) :=
  match fuel with
  | O => None
  | S f => (fun l => c :: concat l) <$> mapM (reach f) (step c)
  end.

(** Every execution from [c] is finite. *)
Inductive halts (c : config) : Prop :=
| halts_intro : (forall c', c' ∈ step c -> halts c') -> halts c.

Definition terminal (c : config) : Prop := step c = [].

(** Every execution from [c] is finite, [P] holds all along and [Q] holds
    where it ends. *)
Inductive run (P Q : config -> Prop) (c : config) : Prop :=
| run_end : P c -> step c = [] -> Q c -> run P Q c
| run_step : P c -> step c <> [] ->
    (forall c', c' ∈ step c -> run P Q c') -> run P Q c.

(** The configurations met while the goroutines run, and those where they
    come to rest (no goroutine can run: the clock, if anything, moves
    next). *)
Fixpoint frontier (fuel : nat) (c : config) : option (list config * list config) :=
  match fuel with
  | O => None
  | S f =>
      match sched c with
      | [] => Some ([], [c])
      | cs =>
          (fun l => (c :: concat (fst <$> l), concat (snd <$> l)))
            <$> mapM (frontier f) cs
      end
  end.

(** What goroutine [i] has returned, if it has. *)
Definition returned (c : config) (i : nat) : option (val * error) :=
  match pool c !! i with
  | Some (Plain (Return v e)) => Some (v, e)
  | _ => None
  end.

(** The settlement triple of promise [p]. *)
Definition outcome_of (c : config) (p : nat) : option (PromiseState * val * error) :=
  (fun x => (p_state x, p_value x, p_error x)) <$> cells (mem c) !! p.

(** Some goroutine has died of an uncaught panic (which ends the process). *)
Definition crashed (c : config) : bool :=
  existsb (fun t => match t with Plain (Panic _) => true | _ => false end) (pool c).

Definition state_of (c : config) (p : nat) : option PromiseState :=
  p_state <$> cells (mem c) !! p.

Definition state_eqb (a b : PromiseState) : bool :=
  match a, b with
  | Pending, Pending | Fulfilled, Fulfilled | Rejected, Rejected => true
  | _, _ => false
  end.

Definition has_state (c : config) (p : nat) (st : PromiseState) : bool :=
  match state_of c p with
  | Some s => state_eqb s st
  | None => false
  end.



(** ** Scenarios *)

(** One observer awaits a resolved promise twice. *)
Definition await_twice (v : val) : prog :=
  Resolve v (fun p =>
  Await p (fun v1 e1 =>
  Await p (fun v2 e2 =>
  Return (VSlice [v1; v2]) e2))).

(** Two observers, each in its own goroutine, await the same promise. *)
Definition two_observers (v : val) : prog :=
  NewPromise (Return v None) (fun p =>
  Go (Await p (fun x e => Return x e)) (
  Go (Await p (fun x e => Return x e))
  Exit)).

(** A bounded wait on a promise that is already settled. *)
Definition timed_await (v : val) (d : nat) : prog :=
  Resolve v (fun p =>
  AwaitWithTimeout p d (fun x e => Return x e)).

(** A bounded wait of [d] on a promise that settles after [t]; a second
    observer awaits it without bound. *)
Definition timed_await_late (v : val) (t d : nat) : prog :=
  Sleep t v (fun p =>
  AwaitWithTimeout p d (fun x e =>
  Go (Await p (fun y e' => Return y e'))
  (Return x e))).

(** Two Catch combinators on the same resolved promise. *)
Definition catch_twice (v : val) : prog :=
  Resolve v (fun f =>
  Catch f None (fun c1 =>
  Catch f None (fun c2 =>
  Await c1 (fun v1 e1 =>
  Await c2 (fun v2 e2 =>
  Return (VSlice [v1; v2]) e2))))).

(** Then followed by Catch on the same resolved promise. *)
Definition then_catch (v : val) (g : val -> val) : prog :=
  Resolve v (fun f =>
  Then f (Some g) None (fun c1 =>
  Catch f None (fun c2 =>
  Await c1 (fun v1 e1 =>
  Await c2 (fun v2 e2 =>
  Return (VSlice [v1; v2]) e2))))).

(** A producer that panics with payload [r], and one observer. *)
Definition panicking (r : string) : prog :=
  NewPromise (Panic r) (fun p =>
  Await p (fun x e => Return x e)).

(** Race over no promise at all. *)
Definition race_empty : prog :=
  Race [] (fun q => Await q (fun x e => Return x e)).



(** ** The settle-once discipline *)

Definition chan_open (c : chan) : Prop := closed c = false.

Definition cell_open (p : Promise) : Prop :=
  chan_open (p_result p) /\ chan_open (p_err p) /\ chan_open (p_done p).

Definition same_outcome (a b : Promise) : Prop :=
  p_state b = p_state a /\ p_value b = p_value a /\ p_error b = p_error a.

(** What one step of the system may do to a promise: nothing, or settle it
    from Pending, writing the value on Fulfilled and the fault on
    Rejected. *)
Definition settles_once (a b : Promise) : Prop :=
  same_outcome a b \/
  (p_state a = Pending /\ p_state b = Fulfilled /\ p_error b = p_error a) \/
  (p_state a = Pending /\ p_state b = Rejected /\ p_value b = p_value a /\
   p_error b <> None).

(** Well-formed configurations: the channels of promises are never closed,
    every producer goroutine owns an allocated promise, no two producers own
    the same one, and a promise whose executor is still running is
    Pending. *)
Record wf (c : config) : Prop := Wf {
  wf_open : Forall cell_open (cells (mem c));
  wf_bound : forall i p s,
    pool c !! i = Some (Producer p s) -> p < length (cells (mem c));
  wf_unique : forall i j p s s',
    pool c !! i = Some (Producer p s) -> pool c !! j = Some (Producer p s') -> i = j;
  wf_pending : forall i p m,
    pool c !! i = Some (Producer p (Exec m)) -> state_of c p = Some Pending
}.

(** What a step of one goroutine may do to the promises and to the pool. *)
Definition spawns_ok (h h' : heap) (sp : list thread) : Prop :=
  (sp = [] /\ length (cells h') = length (cells h) \/
   (exists body, sp = [Plain body]) /\ length (cells h') = length (cells h)) \/
  (exists e, sp = [Producer (length (cells h)) (Exec e)]) /\
    cells h' = cells h ++ [new_promise Pending VZero None] \/
  sp = [] /\ exists st v e, cells h' = cells h ++ [new_promise st v e].

Definition cells_kept (h h' : heap) : Prop :=
  forall p a, cells h !! p = Some a ->
    exists b, cells h' !! p = Some b /\ same_outcome a b.

(** A producer that returns 1 at once, observed just before and just after
    it settles. *)
Definition settle_main : prog :=
  NewPromise (Return (VInt 1) None) (fun _ => Exit).

Definition settle_before : config :=
  Config 0 (Heap [new_promise Pending VZero None] [] [] [])
    [Plain Exit; Producer 0 (Exec (Return (VInt 1) None))].

Definition settle_after : config :=
  Config 0 (Heap [new_promise Fulfilled (VInt 1) None] [] [] [])
    [Plain Exit; Producer 0 (SendResult (VInt 1))].

(** Bookkeeping for the proof that steps preserve [wf]. *)
Definition step_ok (h h' : heap) (sp : list thread) : Prop :=
  Forall cell_open (cells h') /\ cells_kept h h' /\ spawns_ok h h' sp.

Definition is_exec (s : stage) : bool := match s with Exec _ => true | _ => false end.

Definition same_kind (t t' : thread) : Prop :=
  match t, t' with
  | Plain _, Plain _ => True
  | Producer p s, Producer p' s' => p = p' /\ (is_exec s' = true -> is_exec s = true)
  | _, _ => False
  end.

Definition settled (p : nat) (h h' : heap) : Prop :=
  (exists v, h' = update_cell (set_fulfilled v) p h) \/
  (exists e, h' = update_cell (set_rejected (Some e)) p h).

(** A promise that settles with (v, e) after [t], wrapped by Timeout with
    duration [d], and one observer of the result. *)
Definition timeout_scenario (v : val) (e : error) (t d : nat) : prog :=
  NewPromise (TimeSleep t (Return v e)) (fun f =>
  Timeout f d (fun q =>
  Await q (fun x e' => Return x e'))).

(** What Await returns on a promise whose executor returned (v, e). *)
Definition await_result (v : val) (e : error) : val * error :=
  match e with
  | None => (v, None)
  | Some _ => (VZero, e)
  end.

(** The promise left by an executor that returned (v, e); [awaited] tells
    whether the token of [done] has been taken. *)
Definition settled_promise (v : val) (e : error) (awaited : bool) : Promise :=
  let done := Chan (if awaited then [] else [VBool true]) 1 false in
  match e with
  | None => MkPromise (Chan [v] 1 false) (make_chan 1) done Fulfilled v None
  | Some _ => MkPromise (make_chan 1) (Chan [VErr e] 1 false) done Rejected VZero e
  end.

(** Both timers running: [t] left for the input, [d] left for the timeout
    set to [d0]. *)
Definition timeout_waiting (v : val) (e : error) (d0 t d clock : nat) : config :=
  Config clock
    (Heap [new_promise Pending VZero None; new_promise Pending VZero None;
           new_promise Pending VZero None]
          [make_chan 1; make_chan 1] [] [])
    [Plain (Await 2 (fun x e' => Return x e'));
     Producer 0 (Exec (TimeSleep t (Return v e)));
     Producer 1 (Exec (TimeSleep d (Return VZero (Some (OperationTimeout d0)))));
     Producer 2 (Exec (Race_select 0 1));
     Plain (Race_watcher 0 1 0);
     Plain (Race_watcher 0 1 1)].

(** The input has won: the observer has its outcome, the timer has [d]
    left. *)
Definition timeout_input_won (v : val) (e : error) (d0 d clock : nat) : config :=
  Config clock
    (Heap [settled_promise v e true; new_promise Pending VZero None;
           settled_promise (fst (await_result v e)) e true]
          [make_chan 1; make_chan 1] [] [])
    [Plain (Return (fst (await_result v e)) (snd (await_result v e)));
     Producer 0 Finished;
     Producer 1 (Exec (TimeSleep d (Return VZero (Some (OperationTimeout d0)))));
     Producer 2 Finished;
     Plain Exit;
     Plain (Race_watcher 0 1 1)].

(** The timer has won: the observer has the timeout fault, the input has [t]
    left. *)
Definition timeout_timer_won (v : val) (e : error) (d0 t clock : nat) : config :=
  Config clock
    (Heap [new_promise Pending VZero None;
           settled_promise VZero (Some (OperationTimeout d0)) true;
           settled_promise VZero (Some (OperationTimeout d0)) true]
          [make_chan 1; make_chan 1] [] [])
    [Plain (Return VZero (Some (OperationTimeout d0)));
     Producer 0 (Exec (TimeSleep t (Return v e)));
     Producer 1 Finished;
     Producer 2 Finished;
     Plain (Race_watcher 0 1 0);
     Plain Exit].







Definition anything (c : config) : Prop := True.

(** ** Combinators over settled inputs
    The inputs of a combinator, as promises at addresses 0 .. n-1: already
    fulfilled, already rejected, or never settled (Pending, without a
    producer). *)
Inductive input : Type :=
| Ok (v : val)
| Failed (f : fault)
| Never.

Definition is_settled (x : input) : bool :=
  match x with Never => false | _ => true end.

(** What Await returns on the input. *)
Definition input_result (x : input) : val * error :=
  match x with
  | Ok v => (v, None)
  | Failed f => (VZero, Some f)
  | Never => (VZero, None)
  end.

(** The promise of the input: as Resolve, Reject or a producer left it, with
    the token of [done] taken or not; a fresh Pending promise for [Never]. *)
Definition input_cell (x : input) (awaited : bool) : Promise :=
  match x with
  | Ok v => settled_promise v None awaited
  | Failed f => settled_promise VZero (Some f) awaited
  | Never => new_promise Pending VZero None
  end.

(** Program counter of the goroutine that awaits one input and records its
    outcome: before Await, after the receive from [done], after the read of
    the promise, after the record, after [wg.Done()]. *)
Inductive wpc : Type := W0 | W1 | W2 | W3 | W4.

Definition awaited (w : wpc) : bool :=
  match w with W0 => false | _ => true end.
Definition recorded (w : wpc) : bool :=
  match w with W3 | W4 => true | _ => false end.
Definition active (w : wpc) : nat :=
  match w with W4 => 0 | _ => 1 end.
Definition remaining (w : wpc) : nat :=
  match w with W0 => 4 | W1 => 3 | W2 => 2 | W3 => 1 | W4 => 0 end.

Definition finished (w : wpc) : bool :=
  match w with W4 => true | _ => false end.
Definition wnext (w : wpc) : wpc :=
  match w with W0 => W1 | W1 => W2 | W2 => W3 | _ => W4 end.

Definition total (f : wpc -> nat) (ws : list wpc) : nat := sum_list_with f ws.

Definition awaited_at (ws : list wpc) (i : nat) : bool :=
  match ws !! i with Some w => awaited w | None => false end.
Definition recorded_at (ws : list wpc) (i : nat) : bool :=
  match ws !! i with Some w => recorded w | None => false end.

(** The fork-join skeleton shared by All and AllSettled: the executor has
    made its slices and its WaitGroup (at address 0); it starts one
    goroutine per input, which awaits the input and hands the outcome to
    [K]; then it waits and goes on with [fin].  [K index v e] stores
    [enc index x] at [index] of slice [dst index x] and calls
    [wg.Done()]. *)
Section join.
Variable ins : list input.
Variable K : nat -> val -> error -> prog.
Variable dst : nat -> input -> nat.
Variable enc : nat -> input -> val.
Variable fin : prog.
Variable init : list (list val).

Definition join_body (index p : nat) (rest : prog) : prog :=
  WgAdd 0 1 (Go (Await p (K index)) rest).

Definition join_loop (j : nat) : prog :=
  for_range join_body j (seq j (length ins - j)) (WgWait 0 fin).

(** The executor at iteration [j], before [wg.Add(1)] or before [go]. *)
Definition join_producer (j : nat) (added : bool) : prog :=
  if added then Go (Await j (K j)) (join_loop (S j)) else join_loop j.

Definition join_watcher (i : nat) (x : input) (w : wpc) : prog :=
  match w with
  | W0 => Await i (K i)
  | W1 => Load i (fun state value error =>
            match state with
            | Fulfilled => K i value None
            | _ => K i VZero error
            end)
  | W2 => Store (dst i x) i (enc i x) (WgDone 0 Exit)
  | W3 => WgDone 0 Exit
  | W4 => Exit
  end.

Definition join_cells (ws : list wpc) : list Promise :=
  imap (fun i x => input_cell x (awaited_at ws i)) ins ++
  [new_promise Pending VZero None].

Definition join_slot (ws : list wpc) (s i : nat) (x0 : val) : val :=
  match ins !! i with
  | Some x => if recorded_at ws i && Nat.eqb (dst i x) s then enc i x else x0
  | None => x0
  end.

Definition join_slices (ws : list wpc) : list (list val) :=
  imap (fun s l => imap (join_slot ws s) l) init.

Definition join_pool (j : nat) (added : bool) (ws : list wpc) : list thread :=
  [Plain Exit; Producer (length ins) (Exec (join_producer j added))] ++
  imap (fun i w => Plain (join_watcher i (default Never (ins !! i)) w)) ws.

(** The configuration of the skeleton: [ws] are the goroutines started so
    far. *)
Definition join_config (added : bool) (ws : list wpc) : config :=
  Config 0
    (Heap (join_cells ws) []
          [total active ws + (if added then 1 else 0)]
          (join_slices ws))
    (join_pool (length ws) added ws).

(** The configuration when [wg.Wait()] has returned. *)
Definition join_done : config :=
  Config 0
    (Heap (join_cells (replicate (length ins) W4)) [] [0]
          (join_slices (replicate (length ins) W4)))
    ([Plain Exit; Producer (length ins) (Exec fin)] ++
     replicate (length ins) (Plain Exit)).

(** The goroutines started so far are at most one per input, and the
    goroutine of an input that never settles is still in its Await. *)
Definition join_wf (added : bool) (ws : list wpc) : Prop :=
  length ws <= length ins /\
  (added = true -> length ws < length ins) /\
  (forall i x w, ins !! i = Some x -> ws !! i = Some w ->
                 is_settled x = false -> w = W0).

Definition join_measure (added : bool) (ws : list wpc) : nat :=
  total remaining ws + 4 * (length ins - length ws) +
  2 * (length ins - length ws) + 1 - (if added then 1 else 0).
End join.

Definition quiet (t : thread) : Prop := tick_thread t = None.

(** A combinator called on the inputs [ins], which live at addresses
    0 .. n-1 and have not been awaited by anyone. *)
Definition inputs_heap (ins : list input) : heap :=
  Heap ((fun x => input_cell x false) <$> ins) [] [] [].

Definition combinator_start (ins : list input) (body : prog) : config :=
  Config 0 (inputs_heap ins) [Plain body].

(** The PromiseResult of a settled input. *)
Definition settle_record (x : input) : val :=
  match x with
  | Ok v => VResult "fulfilled" v None
  | Failed f => VResult "rejected" VZero (Some f)
  | Never => VResult "" VZero None
  end.

(** The continuation of Await in AllSettled_watcher, with results = 0 and
    wg = 0. *)
Definition AllSettled_K (index : nat) (result : val) (err : error) : prog :=
  match err with
  | Some _ => Store 0 index (VResult "rejected" VZero err) (WgDone 0 Exit)
  | None => Store 0 index (VResult "fulfilled" result None) (WgDone 0 Exit)
  end.

(** The continuation of Await in All_watcher, with results = 0, errors = 1
    and wg = 0. *)
Definition All_K (index : nat) (result : val) (err : error) : prog :=
  match err with
  | Some _ => Store 1 index (VErr err) (WgDone 0 Exit)
  | None => Store 0 index result (WgDone 0 Exit)
  end.

Definition All_dst (x : input) : nat :=
  match x with Failed _ => 1 | _ => 0 end.

Definition All_enc (x : input) : val :=
  match x with
  | Ok v => v
  | Failed f => VErr (Some f)
  | Never => VZero
  end.




Definition unsettled (c : config) (p : nat) : Prop :=
  has_state c p Fulfilled = false /\ has_state c p Rejected = false.

(** A system in which only the producer at index 1 is alive. *)
Definition lone_producer (cl : nat) (h : heap) (p : nat) (s : stage) (m : nat) : config :=
  Config cl h ([Plain Exit; Producer p s] ++ replicate m (Plain Exit)).

Definition AllSettled_start (ins : list input) : config :=
  combinator_start ins (AllSettled (seq 0 (length ins)) (fun _ => Exit)).

Definition All_start (ins : list input) : config :=
  combinator_start ins (All (seq 0 (length ins)) (fun _ => Exit)).









(** ** Any over settled inputs *)

(** Program counter of the executor of Any: in the loop (before [wg.Add] or
    before [go]), at the receive from [result], at the read of [errors],
    about to return, and the three steps of settlement. *)
Inductive aphase : Type :=
| ALoop (added : bool)
| ARecv
| ALoadErr
| ARet (v : val) (e : error)
| ASend (v : val) (e : error)
| ASendDone (v : val) (e : error)
| AFin (v : val) (e : error).

(** Program counter of the goroutine that closes [result]: not started,
    before [wg.Wait()], before [close(result)], done. *)
Inductive cpc : Type := CIdle | CWait | CClose | CDone.

Record any_state : Type := AnyState {
  a_ws : list wpc;          (* the goroutines started so far *)
  a_phase : aphase;
  a_closer : cpc;
  a_buf : list val;         (* the buffer of [result] *)
  a_order : list nat        (* the inputs whose fault is in [errors], in order *)
}.

Definition is_closed (c : cpc) : bool :=
  match c with CDone => true | _ => false end.

Definition in_loop (ph : aphase) : bool :=
  match ph with ALoop _ => true | _ => false end.

Definition pending_add (ph : aphase) : nat :=
  match ph with ALoop true => 1 | _ => 0 end.

(** The continuation of Await in Any_watcher, with result = 0, errors = 0
    and wg = 0. *)
Definition Any_K (res : val) (err : error) : prog :=
  match err with
  | Some _ => Append 0 (VErr err) (WgDone 0 Exit)
  | None => TrySend (Local 0) res (WgDone 0 Exit)
  end.

Definition any_body (index p : nat) (rest : prog) : prog :=
  WgAdd 0 1 (Go (Any_watcher 0 0 0 p) rest).

Definition any_loop (n j : nat) : prog :=
  for_range any_body j (seq j (n - j)) (Go (Any_closer 0 0) (Any_receive 0 0)).

Definition any_watcher (i : nat) (x : input) (w : wpc) : prog :=
  match w with
  | W0 => Any_watcher 0 0 0 i
  | W1 => Load i (fun state value error =>
            match state with
            | Fulfilled => Any_K value None
            | _ => Any_K VZero error
            end)
  | W2 => Any_K (input_result x).1 (input_result x).2
  | W3 => WgDone 0 Exit
  | W4 => Exit
  end.

Definition any_closer (c : cpc) : list thread :=
  match c with
  | CIdle => []
  | CWait => [Plain (Any_closer 0 0)]
  | CClose => [Plain (Close 0 Exit)]
  | CDone => [Plain Exit]
  end.

Definition input_fault (x : input) : fault :=
  match x with Failed f => f | _ => Msg "" end.

Definition any_errors (ins : list input) (order : list nat) : list val :=
  (fun k => VErr (Some (input_fault (default Never (ins !! k))))) <$> order.

Definition any_stage (n j : nat) (ph : aphase) : stage :=
  match ph with
  | ALoop true => Exec (Go (Any_watcher 0 0 0 j) (any_loop n (S j)))
  | ALoop false => Exec (any_loop n j)
  | ARecv => Exec (Any_receive 0 0)
  | ALoadErr => Exec (LoadSlice 0 (fun errs =>
                        Return VZero (Some (AllRejected (faults_of errs)))))
  | ARet v e => Exec (Return v e)
  | ASend v None => SendResult v
  | ASend v (Some f) => SendErr (Some f)
  | ASendDone _ _ => SendDone
  | AFin _ _ => Finished
  end.

(** The promise of Any at each phase. *)
Definition any_qcell (ph : aphase) : Promise :=
  match ph with
  | ASend v None => new_promise Fulfilled v None
  | ASend v (Some f) => new_promise Rejected VZero (Some f)
  | ASendDone v None =>
      MkPromise (Chan [v] 1 false) (make_chan 1) (make_chan 1) Fulfilled v None
  | ASendDone v (Some f) =>
      MkPromise (make_chan 1) (Chan [VErr (Some f)] 1 false) (make_chan 1)
        Rejected VZero (Some f)
  | AFin v e => settled_promise v e false
  | _ => new_promise Pending VZero None
  end.

Definition input_cells (ins : list input) (ws : list wpc) : list Promise :=
  imap (fun i x => input_cell x (awaited_at ws i)) ins.

Definition any_pool (ins : list input) (st : any_state) : list thread :=
  [Plain Exit;
   Producer (length ins)
     (any_stage (length ins) (length (a_ws st)) (a_phase st))] ++
  imap (fun i w => Plain (any_watcher i (default Never (ins !! i)) w)) (a_ws st) ++
  any_closer (a_closer st).

Definition any_config (ins : list input) (st : any_state) : config :=
  Config 0
    (Heap (input_cells ins (a_ws st) ++ [any_qcell (a_phase st)])
          [Chan (a_buf st) 1 (is_closed (a_closer st))]
          [total active (a_ws st) + pending_add (a_phase st)]
          [any_errors ins (a_order st)])
    (any_pool ins st).

Definition ok_value (ins : list input) (v : val) : Prop :=
  exists k, ins !! k = Some (Ok v).

(** The value the executor holds, once it has received one. *)
Definition held_value (ph : aphase) : option val :=
  match ph with
  | ARet v None | ASend v None | ASendDone v None | AFin v None => Some v
  | _ => None
  end.

(** The fault the executor has built, once it has found [result] closed and
    empty. *)
Definition held_fault (ph : aphase) : option fault :=
  match ph with
  | ARet _ (Some f) | ASend _ (Some f) | ASendDone _ (Some f) | AFin _ (Some f) => Some f
  | _ => None
  end.

Definition rejecting (ph : aphase) : bool :=
  match ph with
  | ALoadErr => true
  | ARet _ (Some _) | ASend _ (Some _) | ASendDone _ (Some _) | AFin _ (Some _) => true
  | _ => false
  end.

Definition all_failed (ins : list input) : Prop :=
  Forall (fun x => exists f, x = Failed f) ins.

Record any_wf (ins : list input) (st : any_state) : Prop := AnyWf {
  aw_len : length (a_ws st) <= length ins;
  aw_add : a_phase st = ALoop true -> length (a_ws st) < length ins;
  aw_closer : in_loop (a_phase st) = true <-> a_closer st = CIdle;
  aw_full : in_loop (a_phase st) = false -> length (a_ws st) = length ins;
  aw_never : forall i x w, ins !! i = Some x -> a_ws st !! i = Some w ->
               is_settled x = false -> w = W0;
  aw_closing : a_closer st = CClose \/ a_closer st = CDone -> total active (a_ws st) = 0;
  aw_buf : length (a_buf st) <= 1 /\ Forall (ok_value ins) (a_buf st);
  aw_sent : forall k v, ins !! k = Some (Ok v) -> recorded_at (a_ws st) k = true ->
              a_buf st <> [] \/ is_Some (held_value (a_phase st));
  aw_order : NoDup (a_order st) /\
             forall k, k ∈ a_order st <->
               (exists f, ins !! k = Some (Failed f)) /\ recorded_at (a_ws st) k = true;
  aw_held : forall v, held_value (a_phase st) = Some v -> ok_value ins v;
  aw_rejecting : rejecting (a_phase st) = true ->
                 all_failed ins /\ total active (a_ws st) = 0 /\
                 length (a_ws st) = length ins;
  aw_fault : forall f, held_fault (a_phase st) = Some f ->
               f = AllRejected (faults_of (any_errors ins (a_order st)))
}.

Definition phase_measure (ph : aphase) : nat :=
  match ph with
  | ALoop true => 7
  | ALoop false => 8
  | ARecv => 5
  | ALoadErr => 4
  | ARet _ _ => 3
  | ASend _ _ => 2
  | ASendDone _ _ => 1
  | AFin _ _ => 0
  end.

Definition closer_measure (c : cpc) : nat :=
  match c with CIdle => 0 | CWait => 2 | CClose => 1 | CDone => 0 end.

Definition any_measure (ins : list input) (st : any_state) : nat :=
  total remaining (a_ws st) + 6 * (length ins - length (a_ws st)) +
  phase_measure (a_phase st) + closer_measure (a_closer st).

Definition Any_start (ins : list input) : config :=
  combinator_start ins (Any (seq 0 (length ins)) (fun _ => Exit)).

(** The moves of the three kinds of goroutine of Any, on the abstract
    state. *)
Definition any_wstep (ins : list input) (st : any_state) (k : nat) (w : wpc) : any_state :=
  match w, default Never (ins !! k) with
  | W2, Ok v =>
      AnyState (<[k := W3]> (a_ws st)) (a_phase st) (a_closer st)
        (match a_buf st with [] => [v] | b => b end) (a_order st)
  | W2, Failed _ =>
      AnyState (<[k := W3]> (a_ws st)) (a_phase st) (a_closer st)
        (a_buf st) (a_order st ++ [k])
  | _, _ =>
      AnyState (<[k := wnext w]> (a_ws st)) (a_phase st) (a_closer st)
        (a_buf st) (a_order st)
  end.

Definition with_phase (st : any_state) (ph : aphase) : any_state :=
  AnyState (a_ws st) ph (a_closer st) (a_buf st) (a_order st).

Definition with_closer (st : any_state) (c : cpc) : any_state :=
  AnyState (a_ws st) (a_phase st) c (a_buf st) (a_order st).

Definition any_pstep (ins : list input) (st : any_state) : option any_state :=
  match a_phase st with
  | ALoop true =>
      Some (AnyState (a_ws st ++ [W0]) (ALoop false) (a_closer st) (a_buf st) (a_order st))
  | ALoop false =>
      if decide (length (a_ws st) < length ins) then Some (with_phase st (ALoop true))
      else Some (AnyState (a_ws st) ARecv CWait (a_buf st) (a_order st))
  | ARecv =>
      match a_buf st with
      | v :: b => Some (AnyState (a_ws st) (ARet v None) (a_closer st) b (a_order st))
      | [] => if is_closed (a_closer st) then Some (with_phase st ALoadErr) else None
      end
  | ALoadErr =>
      Some (with_phase st
              (ARet VZero (Some (AllRejected (faults_of (any_errors ins (a_order st)))))))
  | ARet v e => Some (with_phase st (ASend v e))
  | ASend v e => Some (with_phase st (ASendDone v e))
  | ASendDone v e => Some (with_phase st (AFin v e))
  | AFin _ _ => None
  end.

Definition any_spawn (ins : list input) (st : any_state) : list thread :=
  match a_phase st with
  | ALoop true => [Plain (Any_watcher 0 0 0 (length (a_ws st)))]
  | ALoop false =>
      if decide (length (a_ws st) < length ins) then [] else [Plain (Any_closer 0 0)]
  | _ => []
  end.

Definition any_cstep (st : any_state) : option any_state :=
  match a_closer st with
  | CWait =>
      if Nat.eqb (total active (a_ws st) + pending_add (a_phase st)) 0
      then Some (with_closer st CClose) else None
  | CClose => Some (with_closer st CDone)
  | _ => None
  end.

Definition any_producer (ins : list input) (st : any_state) : thread :=
  Producer (length ins) (any_stage (length ins) (length (a_ws st)) (a_phase st)).










(** ** The rest of the package *)

(** ThenPromise (promise.go:135-149).  The callback builds a promise and
    hands its address to its continuation; a nil callback is [None]. *)
Definition ThenPromise (p : nat)
    (onFulfilled : option (val -> (nat -> prog) -> prog)) (k : nat -> prog) : prog :=
  NewPromise
    (Await p (fun result err =>
     match err with
     | Some _ => Return VZero err
     | None =>
         match onFulfilled with
         | Some f => f result (fun nextPromise => Await nextPromise (fun v e => Return v e))
         | None => Return VZero None
         end
     end))
    k.

(** Finally (promise.go:168-177).  The deferred call of [onFinally] runs once
    [p.Await()] has produced the results to return; the callback is a piece
    of program that goes on with its continuation when it returns. *)
Definition Finally (p : nat) (onFinally : option (prog -> prog)) (k : nat -> prog) : prog :=
  NewPromise
    (Await p (fun v e =>
     match onFinally with
     | Some f => f (Return v e)
     | None => Return v e
     end))
    k.

(** AwaitWithContext (promise.go:204-212).  A context is the channel
    [ctx.Done()], closed on cancellation, and the error [ctx.Err()] reports
    from then on; the Done channel of [context.Background()] is nil (an
    address that was never allocated). *)
Definition AwaitWithContext (p : nat) (ctx : nat) (ctxErr : error)
    (k : val -> error -> prog) : prog :=
  Select2 (Done p) (Local ctx)
    (fun _ => Await p k)
    (fun _ => k VZero ctxErr).

(** IsPending, IsFulfilled, IsRejected (promise.go:222-234). *)
Definition IsPending (p : nat) (k : bool -> prog) : prog :=
  GetState p (fun s => k (state_eqb s Pending)).
Definition IsFulfilled (p : nat) (k : bool -> prog) : prog :=
  GetState p (fun s => k (state_eqb s Fulfilled)).
Definition IsRejected (p : nat) (k : bool -> prog) : prog :=
  GetState p (fun s => k (state_eqb s Rejected)).

(** Delay (promise.go:388-390): Sleep with the nil interface value. *)
Definition Delay (duration : nat) (k : nat -> prog) : prog :=
  Sleep duration VZero k.

(** ** More scenarios *)

(** One observer awaits the promise of an executor that returns (v, e). *)
Definition await_once (v : val) (e : error) : prog :=
  NewPromise (Return v e) (fun p =>
  Await p (fun x e' => Return x e')).

(** Reject(err), inspected and then awaited. *)
Definition reject_await (e : error) : prog :=
  Reject e (fun p =>
  IsRejected p (fun r =>
  Await p (fun x e' => Return (VSlice [VBool r; x]) e'))).

(** A promise rejected with the nil error, handed to a combinator. *)
Definition reject_nil_into (combinator : list nat -> (nat -> prog) -> prog) : prog :=
  Reject None (fun p =>
  combinator [p] (fun q =>
  Await q (fun x e => Return x e))).

(** What Then makes of an outcome (v, e). *)
Definition Then_result (v : val) (e : error) (onFulfilled : option (val -> val))
    (onRejected : option (error -> val)) : val * error :=
  match e with
  | None => (match onFulfilled with Some f => f v | None => VZero end, None)
  | Some _ =>
      match onRejected with
      | Some g => (g e, None)
      | None => (VZero, e)
      end
  end.

Definition Catch_result (v : val) (e : error) (onRejected : option (error -> val))
  : val * error :=
  match e with
  | None => (v, None)
  | Some _ =>
      match onRejected with
      | Some g => (g e, None)
      | None => (VZero, e)
      end
  end.

(** The promise an executor leaves when it has returned the pair [r] that
    Await reports. *)
Definition settled_as (r : val * error) : PromiseState * val * error :=
  match snd r with
  | None => (Fulfilled, fst r, None)
  | Some _ => (Rejected, VZero, snd r)
  end.

(** Then, and Catch, on the promise of an executor that returns (v, e). *)
Definition then_once (v : val) (e : error) (onFulfilled : option (val -> val))
    (onRejected : option (error -> val)) : prog :=
  NewPromise (Return v e) (fun p =>
  Then p onFulfilled onRejected (fun q =>
  Await q (fun x e' => Return x e'))).

Definition catch_once (v : val) (e : error) (onRejected : option (error -> val)) : prog :=
  NewPromise (Return v e) (fun p =>
  Catch p onRejected (fun q =>
  Await q (fun x e' => Return x e'))).

(** Then on the promise of an executor that returns (v, e), which is
    awaited as well. *)
Definition then_and_await (v : val) (e : error) (onFulfilled : option (val -> val))
    (onRejected : option (error -> val)) : prog :=
  NewPromise (Return v e) (fun p =>
  Then p onFulfilled onRejected (fun q =>
  Await p (fun x1 e1 =>
  Await q (fun x2 e2 =>
  Return (VSlice [x1; VErr e1; x2]) e2)))).

(** ThenPromise with a callback that starts an executor returning
    (f x, e2). *)
Definition then_promise (v : val) (e : error) (f : val -> val) (e2 : error) : prog :=
  NewPromise (Return v e) (fun p =>
  ThenPromise p (Some (fun x k => NewPromise (Return (f x) e2) k)) (fun q =>
  Await q (fun x e' => Return x e'))).

Definition then_promise_nil (v : val) (e : error) : prog :=
  NewPromise (Return v e) (fun p =>
  ThenPromise p None (fun q =>
  Await q (fun x e' => Return x e'))).

Definition ThenPromise_result (v : val) (e : error) (f : val -> val) (e2 : error)
  : val * error :=
  match e with
  | Some _ => (VZero, e)
  | None => await_result (f v) e2
  end.

(** Finally with a callback that appends [mark] to a log (slice 0). *)
Definition finally_logs (v : val) (e : error) (mark : val) : prog :=
  MakeSlice [] (fun log =>
  NewPromise (Return v e) (fun p =>
  Finally p (Some (fun rest => Append log mark rest)) (fun q =>
  Await q (fun x e' => Return x e')))).

Definition finally_panics (v : val) (e : error) (r : string) : prog :=
  NewPromise (Return v e) (fun p =>
  Finally p (Some (fun _ => Panic r)) (fun q =>
  Await q (fun x e' => Return x e'))).

Definition finally_nil (v : val) (e : error) : prog :=
  NewPromise (Return v e) (fun p =>
  Finally p None (fun q =>
  Await q (fun x e' => Return x e'))).

(** The log of [finally_logs]. *)
Definition log_of (c : config) : option (list val) := slices (mem c) !! 0.

(** AwaitWithContext on the promise of an executor that returns (v, e),
    while another goroutine cancels the context. *)
Definition await_cancelled (v : val) (e : error) (ctxErr : error) : prog :=
  NewPromise (Return v e) (fun p =>
  MakeChan 0 (fun ctx =>
  Go (Close ctx Exit) (
  AwaitWithContext p ctx ctxErr (fun x e' => Return x e')))).

(** The same with [context.Background()], which is never cancelled. *)
Definition await_background (v : val) (e : error) : prog :=
  NewPromise (Return v e) (fun p =>
  AwaitWithContext p 0 None (fun x e' => Return x e')).

(** A promise that never settles, awaited under a context that is
    cancelled. *)
Definition await_abandoned (ctxErr : error) : prog :=
  Race [] (fun p =>
  MakeChan 0 (fun ctx =>
  Go (Close ctx Exit) (
  AwaitWithContext p ctx ctxErr (fun x e' => Return x e')))).

(** A combinator over the same promise given twice. *)
Definition twice_into (v : val) (e : error)
    (combinator : list nat -> (nat -> prog) -> prog) : prog :=
  NewPromise (Return v e) (fun p =>
  combinator [p; p] (fun q => Exit)).

(** A chain on the promise of an executor that returns (v, e): two Then
    with no rejection handler, and possibly a Catch with a handler at the
    end. *)
Definition then_chain (v : val) (e : error) (f g : val -> val)
    (recover : option (error -> val)) : prog :=
  NewPromise (Return v e) (fun p =>
  Then p (Some f) None (fun q =>
  Then q (Some g) None (fun r =>
  match recover with
  | Some h => Catch r (Some h) (fun s => Await s (fun x e' => Return x e'))
  | None => Await r (fun x e' => Return x e')
  end))).

Definition then_chain_result (v : val) (e : error) (f g : val -> val)
    (recover : option (error -> val)) : val * error :=
  match e with
  | None => (g (f v), None)
  | Some _ =>
      match recover with
      | Some h => (h e, None)
      | None => (VZero, e)
      end
  end.

(** One observer awaits Sleep(d, v). *)
Definition sleep_await (d : nat) (v : val) : prog :=
  Sleep d v (fun p =>
  Await p (fun x e => Return x e)).

(** The sleeper has [d] left to sleep at time [clock]; the observer waits. *)
Definition sleeping (v : val) (d clock : nat) : config :=
  Config clock (Heap [new_promise Pending VZero None] [] [] [])
    [Plain (Await 0 (fun x e => Return x e));
     Producer 0 (Exec (TimeSleep d (Return v None)))].

(** Nothing has happened before time [T]; at the end it is [T] and the
    observer holds [v]. *)
Definition not_before (T : nat) (c : config) : Prop :=
  now c <= T /\ (now c < T -> unsettled c 0 /\ returned c 0 = None).

Definition woken_at (T : nat) (v : val) (c : config) : Prop :=
  now c = T /\ returned c 0 = Some (v, None) /\
  outcome_of c 0 = Some (Fulfilled, v, None).

(** ** Race over settled inputs *)

(** The state of Race(f1..fn) over inputs that nobody else awaits: the
    goroutines started so far, the phase of the executor (the phases of
    Any's executor, where every phase before [ARet] stands for the loop and
    the select), and the buffers of [result] (channel 0) and [err]
    (channel 1). *)
Record race_state : Type := RaceState {
  r_ws : list wpc;
  r_phase : aphase;
  r_res : list val;
  r_err : list val
}.

(** The goroutine of Race has no WaitGroup: it exits after its send. *)
Definition race_wnext (w : wpc) : wpc :=
  match w with W0 => W1 | W1 => W2 | _ => W4 end.

Definition running (ph : aphase) : bool :=
  match ph with ALoop _ | ARecv | ALoadErr => true | _ => false end.

(** The continuation of Await in Race_watcher, with result = 0 and err = 1. *)
Definition Race_K (res : val) (e : error) : prog :=
  match e with
  | Some _ => TrySend (Local 1) (VErr e) Exit
  | None => TrySend (Local 0) res Exit
  end.

Definition race_loop (n j : nat) : prog :=
  for_range (fun _ p rest => Go (Race_watcher 0 1 p) rest) j (seq j (n - j))
    (Race_select 0 1).

Definition race_watcher (i : nat) (x : input) (w : wpc) : prog :=
  match w with
  | W0 => Race_watcher 0 1 i
  | W1 => Load i (fun state value error =>
            match state with
            | Fulfilled => Race_K value None
            | _ => Race_K VZero error
            end)
  | W2 => Race_K (input_result x).1 (input_result x).2
  | _ => Exit
  end.

Definition race_stage (n j : nat) (ph : aphase) : stage :=
  if running ph then Exec (race_loop n j) else any_stage n j ph.

Definition race_producer (ins : list input) (st : race_state) : thread :=
  Producer (length ins) (race_stage (length ins) (length (r_ws st)) (r_phase st)).

Definition race_pool (ins : list input) (st : race_state) : list thread :=
  [Plain Exit; race_producer ins st] ++
  imap (fun i w => Plain (race_watcher i (default Never (ins !! i)) w)) (r_ws st).

Definition race_config (ins : list input) (st : race_state) : config :=
  Config 0
    (Heap (input_cells ins (r_ws st) ++ [any_qcell (r_phase st)])
          [Chan (r_res st) 1 false; Chan (r_err st) 1 false] [] [])
    (race_pool ins st).

(** A send that gives up when the buffer (of capacity one) is full. *)
Definition offer (b : list val) (x : val) : list val :=
  match b with [] => [x] | _ => b end.

Definition race_wstep (ins : list input) (st : race_state) (k : nat) (w : wpc) : race_state :=
  match w, default Never (ins !! k) with
  | W2, Ok v =>
      RaceState (<[k := W4]> (r_ws st)) (r_phase st) (offer (r_res st) v) (r_err st)
  | W2, Failed f =>
      RaceState (<[k := W4]> (r_ws st)) (r_phase st) (r_res st)
        (offer (r_err st) (VErr (Some f)))
  | _, _ =>
      RaceState (<[k := race_wnext w]> (r_ws st)) (r_phase st) (r_res st) (r_err st)
  end.

Definition race_phase (st : race_state) (ph : aphase) : race_state :=
  RaceState (r_ws st) ph (r_res st) (r_err st).

(** The moves of the executor; the select has two when both channels hold
    an item. *)
Definition race_pstep (ins : list input) (st : race_state) : list race_state :=
  if running (r_phase st) then
    if decide (length (r_ws st) < length ins)
    then [RaceState (r_ws st ++ [W0]) (r_phase st) (r_res st) (r_err st)]
    else
      match r_res st with
      | v :: b => [RaceState (r_ws st) (ARet v None) b (r_err st)]
      | [] => []
      end ++
      match r_err st with
      | x :: b => [RaceState (r_ws st) (ARet VZero (as_error x)) (r_res st) b]
      | [] => []
      end
  else
    match r_phase st with
    | ARet v e => [race_phase st (ASend v e)]
    | ASend v e => [race_phase st (ASendDone v e)]
    | ASendDone v e => [race_phase st (AFin v e)]
    | _ => []
    end.

Definition race_spawn (ins : list input) (st : race_state) : list thread :=
  if running (r_phase st) && bool_decide (length (r_ws st) < length ins)
  then [Plain (Race_watcher 0 1 (length (r_ws st)))]
  else [].

Definition failed_with (ins : list input) (f : fault) : Prop :=
  exists k, ins !! k = Some (Failed f).

Record race_wf (ins : list input) (st : race_state) : Prop := RaceWf {
  rw_len : length (r_ws st) <= length ins;
  rw_full : running (r_phase st) = false -> length (r_ws st) = length ins;
  rw_never : forall i x w, ins !! i = Some x -> r_ws st !! i = Some w ->
               is_settled x = false -> w = W0;
  rw_no3 : forall i, r_ws st !! i <> Some W3;
  rw_res : length (r_res st) <= 1 /\ Forall (ok_value ins) (r_res st);
  rw_err : length (r_err st) <= 1 /\
           Forall (fun x => exists f, failed_with ins f /\ x = VErr (Some f)) (r_err st);
  rw_sent : forall k v, ins !! k = Some (Ok v) -> recorded_at (r_ws st) k = true ->
              r_res st <> [] \/ running (r_phase st) = false;
  rw_failed : forall k f, ins !! k = Some (Failed f) -> recorded_at (r_ws st) k = true ->
              r_err st <> [] \/ running (r_phase st) = false;
  rw_held : forall v, held_value (r_phase st) = Some v -> ok_value ins v;
  rw_fault : forall f, held_fault (r_phase st) = Some f -> failed_with ins f
}.

Definition race_measure (ins : list input) (st : race_state) : nat :=
  total remaining (r_ws st) + 6 * (length ins - length (r_ws st)) +
  phase_measure (r_phase st).

Definition Race_start (ins : list input) : config :=
  combinator_start ins (Race (seq 0 (length ins)) (fun _ => Exit)).










(** The goroutines of Race at rest: the one of a settled input has exited,
    the one of an input that never settles is still in its Await. *)
Definition Race_rest (ins : list input) (c : config) : Prop :=
  forall k x, ins !! k = Some x ->
    pool c !! S (S k) =
      Some (Plain (if is_settled x then Exit else Race_watcher 0 1 k)).

(** Everything has come to rest at time [T]; the input (address 0), the
    timer (address 1) and the promise of Timeout (address 2) are settled
    with [o0], [o1] and [o2]. *)
Definition rests_at (T : nat) (o0 o1 o2 : PromiseState * val * error) (c : config) : Prop :=
  now c = T /\ outcome_of c 0 = Some o0 /\ outcome_of c 1 = Some o1 /\
  outcome_of c 2 = Some o2.

(** How the timer of Timeout(f, d) settles. *)
Definition timer_outcome (d : nat) : PromiseState * val * error :=
  (Rejected, VZero, Some (OperationTimeout d)).

(** The goroutines of Any at rest: the one of a settled input has exited,
    the one of an input that never settles is still in its Await; the
    goroutine that closes [result] has done so and exited when every input
    is settled, and is still in [wg.Wait()] otherwise. *)
Definition Any_rest (ins : list input) (c : config) : Prop :=
  (forall k x, ins !! k = Some x ->
     pool c !! S (S k) =
       Some (Plain (if is_settled x then Exit else Any_watcher 0 0 0 k))) /\
  pool c !! S (S (length ins)) =
    Some (Plain (if forallb is_settled ins then Exit else Any_closer 0 0)) /\
  closed <$> chans (mem c) !! 0 = Some (forallb is_settled ins).

(** The promise of an executor that returns (v, e) is awaited, and then
    inspected. *)
Definition await_then_inspect (v : val) (e : error) : prog :=
  NewPromise (Return v e) (fun p =>
  Await p (fun x e' =>
  IsPending p (fun pending =>
  IsFulfilled p (fun fulfilled =>
  IsRejected p (fun rejected =>
  Return (VSlice [VBool pending; VBool fulfilled; VBool rejected]) e'))))).

Definition is_nil (e : error) : bool :=
  match e with None => true | Some _ => false end.

(** * Lemmas and theorems *)

Lemma reach_sound fuel c l :
  reach fuel c = Some l -> forall c', steps c c' -> c' ∈ l.
Proof.
  revert c l. induction fuel as [|f IH]; intros c l; simpl; [done|].
  destruct (mapM (reach f) (step c)) as [ls|] eqn:E; simpl; [|done].
  intros [= <-] c' Hs. destruct Hs as [c|c c2 c3 Hin Hs]; [left|].
  right. apply mapM_Some_1 in E.
  apply list_elem_of_lookup in Hin as [i Hi].
  destruct (Forall2_lookup_l _ _ _ _ _ E Hi) as (l2 & Hl2 & Hr).
  apply list_elem_of_In, in_concat. exists l2.
  split; apply list_elem_of_In; [|by eapply IH].
  apply list_elem_of_lookup. eauto.
Qed.

Lemma reach_halts fuel c l : reach fuel c = Some l -> halts c.
Proof.
  revert c l. induction fuel as [|f IH]; intros c l; simpl; [done|].
  destruct (mapM (reach f) (step c)) as [ls|] eqn:E; simpl; [|done].
  intros _. constructor. intros c' Hin. apply mapM_Some_1 in E.
  apply list_elem_of_lookup in Hin as [i Hi].
  destruct (Forall2_lookup_l _ _ _ _ _ E Hi) as (l2 & Hl2 & Hr). eauto.
Qed.

Lemma reach_complete fuel c l :
  reach fuel c = Some l -> forall c', c' ∈ l -> steps c c'.
Proof.
  revert c l. induction fuel as [|f IH]; intros c l; simpl; [done|].
  destruct (mapM (reach f) (step c)) as [ls|] eqn:E; simpl; [|done].
  intros [= <-] c' Hin. apply elem_of_cons in Hin as [->|Hin]; [constructor|].
  apply list_elem_of_In, in_concat in Hin as (l2 & Hl2 & Hin).
  apply list_elem_of_In, list_elem_of_lookup in Hl2 as [i Hi].
  apply mapM_Some_1 in E.
  destruct (Forall2_lookup_r _ _ _ _ _ E Hi) as (c2 & Hc2 & Hr).
  econstructor; [by eapply list_elem_of_lookup_2|].
  eapply IH; [done|]. by apply list_elem_of_In.
Qed.

Lemma reach_all fuel c l (P : config -> Prop) :
  reach fuel c = Some l -> Forall P l -> forall c', steps c c' -> P c'.
Proof.
  intros Hr Hall c' Hs. rewrite Forall_forall in Hall.
  apply Hall. by eapply reach_sound.
Qed.

Lemma reach_exists fuel c l (f : config -> bool) :
  reach fuel c = Some l -> existsb f l = true ->
  exists c', steps c c' /\ f c' = true.
Proof.
  intros Hr Hex. apply existsb_exists in Hex as (c' & Hin & Hf).
  exists c'. split; [|done]. eapply reach_complete; [done|].
  by apply list_elem_of_In.
Qed.

Lemma steps_trans c1 c2 c3 : steps c1 c2 -> steps c2 c3 -> steps c1 c3.
Proof. induction 1; [done|]. intros. econstructor; eauto. Qed.

Lemma steps_invariant (I : config -> Prop) :
  (forall c c', I c -> c' ∈ step c -> I c') ->
  forall c c', steps c c' -> I c -> I c'.
Proof. intros Hstep c c'. induction 1; eauto. Qed.

(** Run the explorer on the closed system of the goal and leave one goal
    per configuration. *)
Ltac explore n :=
  lazymatch goal with
  | |- forall c, steps ?c0 c -> @?P c =>
      eapply (reach_all n c0 _ P); [vm_compute; reflexivity|];
      repeat (first [apply List.Forall_nil | apply List.Forall_cons]); cbv beta
  end.

Ltac explore_halts n := eapply (reach_halts n); vm_compute; reflexivity.

Ltac not_terminal T := vm_compute in T; discriminate T.

(** ** Await is single-use *)

(** C1, at the failing input [p := Resolve(v); p.Await(); p.Await()]: the
    first Await returns (v, nil) and drains [p.done]; the program then stops
    for ever inside the second Await, in every execution, although the
    promise is Fulfilled with v. *)
Theorem C1_second_await_blocks (v : val) :
  halts (start (await_twice v)) /\
  forall c, steps (start (await_twice v)) c ->
    returned c 0 = None /\
    (terminal c ->
       pool c = [Plain (Await 0 (fun v2 e2 => Return (VSlice [v; v2]) e2))] /\
       outcome_of c 0 = Some (Fulfilled, v, None)).
Proof.
  split; [explore_halts 10|]. explore 10.
  all: split; [reflexivity|intros T; try not_terminal T].
  split; reflexivity.
Qed.

(** Two observers of one promise: in every execution exactly one of them
    receives (v, nil); the other one never returns. *)
Lemma observers_starve (v : val) :
  halts (start (two_observers v)) /\
  forall c, steps (start (two_observers v)) c -> terminal c ->
    outcome_of c 0 = Some (Fulfilled, v, None) /\
    (returned c 2 = Some (v, None) /\ returned c 3 = None \/
     returned c 2 = None /\ returned c 3 = Some (v, None)).
Proof.
  split; [explore_halts 20|]. explore 20.
  all: intros T; try not_terminal T.
  all: split; [reflexivity|]; first [left; split; reflexivity | right; split; reflexivity].
Qed.

(** C2, at the failing input [p := Resolve(v); p.AwaitWithTimeout(d)] with
    d > 0: the select takes the token of [p.done], and the call to Await that
    follows waits for a second one; the bounded wait never returns, in any
    execution, and the clock plays no part any more. *)
Theorem C2_settled_bounded_wait_blocks (v : val) (d : nat) :
  halts (start (timed_await v (S d))) /\
  forall c, steps (start (timed_await v (S d))) c ->
    returned c 0 = None /\
    (terminal c ->
       pool c = [Plain (Await 0 (fun x e => Return x e))] /\
       outcome_of c 0 = Some (Fulfilled, v, None)).
Proof.
  split; [explore_halts 10|]. explore 10.
  all: split; [reflexivity|intros T; try not_terminal T].
  split; reflexivity.
Qed.

(** The other half of C2 holds: when the duration elapses first, the bounded
    wait returns the timeout fault and the promise is untouched; a later
    Await by another observer obtains the settlement. *)
Lemma bounded_wait_expires (v : val) :
  halts (start (timed_await_late v 5 1)) /\
  forall c, steps (start (timed_await_late v 5 1)) c -> terminal c ->
    returned c 0 = Some (VZero, Some (AwaitTimeout 1)) /\
    returned c 2 = Some (v, None) /\
    now c = 5.
Proof.
  split; [explore_halts 30|]. explore 30.
  all: intros T; try not_terminal T.
  all: repeat split; reflexivity.
Qed.

(** ** Then and Catch drain the result channel *)

(** C3, at the failing input of two Catch(f, nil) on one resolved f: in every
    execution exactly one derived promise is Fulfilled with v; the executor
    of the other one waits for ever in its select and its promise stays
    Pending, so the observer that awaits both never returns. *)
Theorem C3_second_catch_starves (v : val) :
  halts (start (catch_twice v)) /\
  forall c, steps (start (catch_twice v)) c ->
    returned c 0 = None /\
    (terminal c ->
       outcome_of c 0 = Some (Fulfilled, v, None) /\
       (outcome_of c 1 = Some (Fulfilled, v, None) /\
        outcome_of c 2 = Some (Pending, VZero, None) \/
        outcome_of c 1 = Some (Pending, VZero, None) /\
        outcome_of c 2 = Some (Fulfilled, v, None))).
Proof.
  split; [explore_halts 40|]. explore 40.
  all: split; [reflexivity|intros T; try not_terminal T].
  all: split; [reflexivity|]; first [left; split; reflexivity | right; split; reflexivity].
Qed.

(** The same with Then(f, g, nil) followed by Catch(f, nil). *)
Lemma then_catch_starves (v : val) (g : val -> val) :
  halts (start (then_catch v g)) /\
  forall c, steps (start (then_catch v g)) c ->
    returned c 0 = None /\
    (terminal c ->
       outcome_of c 1 = Some (Fulfilled, g v, None) /\
       outcome_of c 2 = Some (Pending, VZero, None) \/
       outcome_of c 1 = Some (Pending, VZero, None) /\
       outcome_of c 2 = Some (Fulfilled, v, None)).
Proof.
  split; [explore_halts 40|]. explore 40.
  all: split; [reflexivity|intros T; try not_terminal T].
  all: first [left; split; reflexivity | right; split; reflexivity].
Qed.

Lemma reach_forallb fuel c l (f : config -> bool) :
  reach fuel c = Some l -> forallb f l = true ->
  forall c', steps c c' -> f c' = true.
Proof.
  intros Hr Hall c' Hs. rewrite forallb_forall in Hall.
  apply Hall, list_elem_of_In. by eapply reach_sound.
Qed.

(** ** Fault containment *)

(** C8: a panic of the executor is recovered by the goroutine of NewPromise,
    whatever the memory: the promise is rejected with the fault
    [panic: r].  In the closed system of a panicking producer and one
    observer no goroutine dies, every execution ends, and at the end the
    promise is Rejected with that non-nil fault and Await has returned it. *)
Theorem C8_panic_is_contained (r : string) :
  (forall h p,
     thread_step h (Producer p (Exec (Panic r))) =
       [(update_cell (set_rejected (Some (PanicFault r))) p h,
         Producer p (SendErr (Some (PanicFault r))), [])]) /\
  halts (start (panicking r)) /\
  forall c, steps (start (panicking r)) c ->
    crashed c = false /\
    (terminal c ->
       outcome_of c 0 = Some (Rejected, VZero, Some (PanicFault r)) /\
       returned c 0 = Some (VZero, Some (PanicFault r))).
Proof.
  split; [reflexivity|]. split; [explore_halts 20|]. explore 20.
  all: split; [reflexivity|intros T; try not_terminal T].
  all: split; reflexivity.
Qed.

(** ** Race over no input *)

(** C10: the executor of Race() makes its two channels, starts no goroutine
    and waits in a select that nobody will ever serve.  In every execution
    the derived promise stays Pending and Await on it never returns; the
    system comes to rest with both goroutines blocked. *)
Theorem C10_race_of_nothing_never_settles :
  halts (start race_empty) /\
  forall c, steps (start race_empty) c ->
    returned c 0 = None /\
    crashed c = false /\
    has_state c 0 Fulfilled = false /\
    has_state c 0 Rejected = false /\
    (terminal c ->
       outcome_of c 0 = Some (Pending, VZero, None) /\
       chans (mem c) = [make_chan 1; make_chan 1] /\
       pool c =
         [Plain (Await 0 (fun x e => Return x e));
          Producer 0 (Exec (Race_select 0 1))]).
Proof.
  split; [explore_halts 20|]. explore 20.
  all: do 4 (split; [reflexivity|]); intros T; try not_terminal T.
  all: repeat split; reflexivity.
Qed.

(** ** All joins before it looks at the faults *)


(** ** Settle-once *)

Lemma chan_send_open c x c' : chan_send c x = Sent c' -> chan_open c'.
Proof.
  unfold chan_send. destruct (closed c); [done|].
  destruct (_ <? _); [|done]. by intros [= <-].
Qed.

Lemma chan_recv_open c x c' : chan_recv c = Some (x, c') -> chan_open c -> chan_open c'.
Proof.
  unfold chan_recv, chan_open. destruct (buf c); [destruct (closed c) eqn:E|].
  - by intros [= <- <-].
  - done.
  - by intros [= <- <-].
Qed.

Lemma same_outcome_refl a : same_outcome a a.
Proof. by repeat split. Qed.

Lemma cells_kept_refl h h' : cells h' = cells h -> cells_kept h h'.
Proof. intros E p a Ha. exists a. rewrite E. split; [done|apply same_outcome_refl]. Qed.

Lemma cells_kept_app h h' x : cells h' = cells h ++ [x] -> cells_kept h h'.
Proof.
  intros E p a Ha. exists a. rewrite E. split; [|apply same_outcome_refl].
  by apply lookup_app_l_Some.
Qed.

Lemma alter_cells_effect (f : Promise -> Promise) p l :
  (forall a, same_outcome a (f a)) ->
  (forall a, l !! p = Some a -> cell_open a -> cell_open (f a)) ->
  Forall cell_open l ->
  Forall cell_open (alter f p l) /\
  (forall q a, l !! q = Some a -> exists b, alter f p l !! q = Some b /\ same_outcome a b).
Proof.
  intros Hsame Hopen Hall. split.
  - apply Forall_lookup. intros q b. rewrite list_lookup_alter.
    case_decide; subst.
    + destruct (l !! q) as [a|] eqn:E; [|done]. intros [= <-].
      apply Hopen; [done|]. by eapply Forall_lookup_1.
    + intros. by eapply Forall_lookup_1.
  - intros q a Ha. rewrite list_lookup_alter. case_decide; subst.
    + rewrite Ha. eexists. split; [done|]. apply Hsame.
    + exists a. split; [done|]. apply same_outcome_refl.
Qed.

Lemma alter_step h (f : Promise -> Promise) p a :
  cells h !! p = Some a ->
  (forall x, same_outcome x (f x)) ->
  (cell_open a -> cell_open (f a)) ->
  Forall cell_open (cells h) ->
  Forall cell_open (cells (set_cells h (alter f p (cells h)))) /\
  cells_kept h (set_cells h (alter f p (cells h))) /\
  length (cells (set_cells h (alter f p (cells h)))) = length (cells h).
Proof.
  intros Ha Hsame Hopen Hall. simpl. rewrite length_alter.
  destruct (alter_cells_effect f p (cells h)) as [H1 H2]; try done.
  intros a' Ha'. rewrite Ha in Ha'. by injection Ha' as <-.
Qed.

Lemma set_chan_effect h r ch ch' :
  get_chan h r = Some ch -> (chan_open ch -> chan_open ch') ->
  Forall cell_open (cells h) ->
  Forall cell_open (cells (set_chan h r ch')) /\
  cells_kept h (set_chan h r ch') /\
  length (cells (set_chan h r ch')) = length (cells h).
Proof.
  intros Hget Hopen Hall.
  destruct r as [a|p|p|p]; simpl in Hget.
  - split; [done|]. split; [by apply cells_kept_refl|done].
  - apply fmap_Some in Hget as (a & Ha & ->).
    eapply (alter_step h (with_result ch')); try done.
    intros (?&?&?); split_and!; try done; by apply Hopen.
  - apply fmap_Some in Hget as (a & Ha & ->).
    eapply (alter_step h (with_err ch')); try done.
    intros (?&?&?); split_and!; try done; by apply Hopen.
  - apply fmap_Some in Hget as (a & Ha & ->).
    eapply (alter_step h (with_done ch')); try done.
    intros (?&?&?); split_and!; try done; by apply Hopen.
Qed.

Lemma step_ok_same h h' : cells h' = cells h -> Forall cell_open (cells h) -> step_ok h h' [].
Proof.
  intros E Hall. split_and!; [by rewrite E|by apply cells_kept_refl|].
  left. left. by rewrite E.
Qed.

Lemma step_ok_chan h r ch ch' :
  get_chan h r = Some ch -> (chan_open ch -> chan_open ch') ->
  Forall cell_open (cells h) -> step_ok h (set_chan h r ch') [].
Proof.
  intros Hget Hopen Hall.
  destruct (set_chan_effect h r ch ch' Hget Hopen Hall) as (?&?&?).
  split_and!; [done..|]. left. by left.
Qed.

Lemma send_step_ok h c x k h' m' sp :
  (h', m', sp) ∈ send_step h c x k -> Forall cell_open (cells h) -> step_ok h h' sp.
Proof.
  unfold send_step. intros Hin Hall.
  destruct (get_chan h c) as [ch|] eqn:Hget; [|by apply elem_of_nil in Hin].
  destruct (chan_send ch x) as [ch'| |] eqn:Hs.
  - apply list_elem_of_singleton in Hin as [= -> -> ->].
    eapply step_ok_chan; [done| |done]. intros _. by eapply chan_send_open.
  - by apply elem_of_nil in Hin.
  - apply list_elem_of_singleton in Hin as [= -> -> ->]. by apply step_ok_same.
Qed.

Lemma recv_step_ok h c k h' m' sp :
  (h', m', sp) ∈ recv_step h c k -> Forall cell_open (cells h) -> step_ok h h' sp.
Proof.
  unfold recv_step. intros Hin Hall.
  destruct (get_chan h c) as [ch|] eqn:Hget; simpl in Hin; [|by apply elem_of_nil in Hin].
  destruct (chan_recv ch) as [[x ch']|] eqn:Hr; [|by apply elem_of_nil in Hin].
  apply list_elem_of_singleton in Hin as [= -> -> ->].
  eapply step_ok_chan; [done| |done]. by eapply chan_recv_open.
Qed.

Lemma prog_step_ok h m h' m' sp :
  (h', m', sp) ∈ prog_step h m -> Forall cell_open (cells h) -> step_ok h h' sp.
Proof.
  intros Hin Hall. destruct m; simpl in Hin.
  all: try by apply elem_of_nil in Hin.
  - apply list_elem_of_singleton in Hin as [= -> -> ->]. by apply step_ok_same.
  - by eapply send_step_ok.
  - by eapply recv_step_ok.
  - destruct (send_step h c x m) eqn:E.
    + apply list_elem_of_singleton in Hin as [= -> -> ->]. by apply step_ok_same.
    + rewrite <- E in Hin. by eapply send_step_ok.
  - apply elem_of_app in Hin as [Hin|Hin]; by eapply recv_step_ok.
  - apply elem_of_app in Hin as [Hin|Hin]; [by eapply recv_step_ok|].
    destruct d; [|by apply elem_of_nil in Hin].
    apply list_elem_of_singleton in Hin as [= -> -> ->]. by apply step_ok_same.
  - destruct (chans h !! a) as [ch|] eqn:Hget; [|by apply elem_of_nil in Hin].
    destruct (closed ch); apply list_elem_of_singleton in Hin as [= -> -> ->];
      by apply step_ok_same.
  - apply list_elem_of_singleton in Hin as [= -> -> ->].
    split_and!; simpl.
    + apply Forall_app_2; [done|]. by apply Forall_singleton.
    + by eapply cells_kept_app.
    + right. right. split; [done|]. by eexists _, _, _.
  - apply list_elem_of_singleton in Hin as [= -> -> ->].
    split_and!; simpl.
    + apply Forall_app_2; [done|]. by apply Forall_singleton.
    + by eapply cells_kept_app.
    + right. left. split; [by eexists|done].
  - destruct (cells h !! p); [|by apply elem_of_nil in Hin].
    apply list_elem_of_singleton in Hin as [= -> -> ->]. by apply step_ok_same.
  - apply list_elem_of_singleton in Hin as [= -> -> ->].
    split_and!; [done|by apply cells_kept_refl|]. left. right. split; [by eexists|done].
  - apply list_elem_of_singleton in Hin as [= -> -> ->]. by apply step_ok_same.
  - destruct (wgs h !! w); [|by apply elem_of_nil in Hin].
    apply list_elem_of_singleton in Hin as [= -> -> ->]. by apply step_ok_same.
  - destruct (wgs h !! w) as [[|n]|]; [| |by apply elem_of_nil in Hin].
    all: apply list_elem_of_singleton in Hin as [= -> -> ->]; by apply step_ok_same.
  - destruct (wgs h !! w) as [[|n]|]; try by apply elem_of_nil in Hin.
    apply list_elem_of_singleton in Hin as [= -> -> ->]. by apply step_ok_same.
  - apply list_elem_of_singleton in Hin as [= -> -> ->]. by apply step_ok_same.
  - destruct (slices h !! s); [|by apply elem_of_nil in Hin].
    destruct (_ <? _); apply list_elem_of_singleton in Hin as [= -> -> ->];
      by apply step_ok_same.
  - destruct (slices h !! s); [|by apply elem_of_nil in Hin].
    apply list_elem_of_singleton in Hin as [= -> -> ->]. by apply step_ok_same.
  - destruct (slices h !! s); [|by apply elem_of_nil in Hin].
    apply list_elem_of_singleton in Hin as [= -> -> ->]. by apply step_ok_same.
  - destruct d; [|by apply elem_of_nil in Hin].
    apply list_elem_of_singleton in Hin as [= -> -> ->]. by apply step_ok_same.
Qed.

Lemma elem_of_lift_step {A B} (f : A -> B) (r : step_result A) h b sp :
  (h, b, sp) ∈ lift_step f r -> exists a, b = f a /\ (h, a, sp) ∈ r.
Proof.
  unfold lift_step. intros Hin. apply list_elem_of_fmap in Hin as ([[h1 a] sp1] & E & Hin).
  injection E as -> -> ->. eauto.
Qed.

Lemma get_chan_open h r ch :
  Forall cell_open (cells h) -> get_chan h r = Some ch ->
  match r with Local _ => True | _ => chan_open ch end.
Proof.
  intros Hall Hget. destruct r; simpl in *; [done|..].
  all: apply fmap_Some in Hget as (a & Ha & ->).
  all: by destruct (Forall_lookup_1 _ _ _ _ Hall Ha) as (?&?&?).
Qed.

Lemma publish_effect h p c x next h' t' sp :
  (h', t', sp) ∈ publish h p c x next -> Forall cell_open (cells h) ->
  match c with Local _ => False | _ => True end ->
  step_ok h h' sp /\ t' = Producer p next.
Proof.
  unfold publish. intros Hin Hall Hc.
  destruct (get_chan h c) as [ch|] eqn:Hget; [|by apply elem_of_nil in Hin].
  pose proof (get_chan_open _ _ _ Hall Hget) as Hopen.
  destruct (chan_send ch x) as [ch'| |] eqn:Hs.
  - apply list_elem_of_singleton in Hin as [= -> -> ->]. split; [|done].
    eapply step_ok_chan; [done| |done]. intros _. by eapply chan_send_open.
  - by apply elem_of_nil in Hin.
  - unfold chan_send in Hs. destruct c; try done; unfold chan_open in Hopen;
      rewrite Hopen in Hs; by destruct (_ <? _).
Qed.

Lemma thread_step_effect h t h' t' sp :
  (h', t', sp) ∈ thread_step h t -> Forall cell_open (cells h) ->
  (step_ok h h' sp /\ same_kind t t') \/
  (exists p m s', t = Producer p (Exec m) /\ t' = Producer p s' /\
     is_exec s' = false /\ sp = [] /\ settled p h h').
Proof.
  intros Hin Hall. destruct t as [m|p s]; simpl in Hin.
  - apply elem_of_lift_step in Hin as (m' & -> & Hin). left.
    split; [by eapply prog_step_ok|done].
  - destruct s as [m|v|e| |].
    + assert (forall r, (h', t', sp) ∈
                lift_step (fun m' => Producer p (Exec m')) r ->
                (forall h1 m1 sp1, (h1, m1, sp1) ∈ r -> step_ok h h1 sp1) ->
                step_ok h h' sp /\ same_kind (Producer p (Exec m)) t') as Hrun.
      { intros r Hr Hok. apply elem_of_lift_step in Hr as (m' & -> & Hr).
        split; [by eapply Hok|done]. }
      destruct m; try (left; eapply Hrun; [exact Hin|];
                       intros; eapply prog_step_ok; [|done]; simpl; done).
      * destruct e as [f|]; apply list_elem_of_singleton in Hin as [= -> -> ->];
          right; eexists _, _, _; split_and!; try done.
        -- right. by eexists.
        -- left. by eexists.
      * unfold recovered in Hin.
        apply list_elem_of_singleton in Hin as [= -> -> ->].
        right; eexists _, _, _; split_and!; try done. right. by eexists.
    + left. eapply publish_effect in Hin as [? ->]; done.
    + left. eapply publish_effect in Hin as [? ->]; done.
    + left. eapply publish_effect in Hin as [? ->]; done.
    + by apply elem_of_nil in Hin.
Qed.

Lemma elem_of_step c c' :
  c' ∈ step c ->
  (exists i t h' t' sp,
     pool c !! i = Some t /\ (h', t', sp) ∈ thread_step (mem c) t /\
     c' = Config (now c) h' (<[i := t']> (pool c) ++ sp)) \/
  c' = Config (S (now c)) (mem c) ((fun t => default t (tick_thread t)) <$> pool c).
Proof.
  unfold step. intros Hin.
  assert (c' ∈ sched c \/ c' ∈ tick c) as [Hs|Ht].
  { destruct (sched c); [by right|by left]. }
  - left. unfold sched in Hs. apply list_elem_of_In, in_flat_map in Hs as (i & _ & Hs).
    apply list_elem_of_In in Hs. unfold run_thread in Hs.
    destruct (pool c !! i) as [t|] eqn:Ht; [|by apply elem_of_nil in Hs].
    apply list_elem_of_fmap in Hs as ([[h' t'] sp] & -> & Hs). by eexists _, _, _, _, _.
  - right. unfold tick in Ht. destruct (existsb _ _); [|by apply elem_of_nil in Ht].
    by apply list_elem_of_singleton in Ht.
Qed.

Lemma lookup_step_pool (pl : list thread) i t' sp j x :
  (<[i := t']> pl ++ sp) !! j = Some x ->
  (j = i /\ x = t' /\ i < length pl) \/ (j <> i /\ pl !! j = Some x) \/
  (length pl <= j /\ sp !! (j - length pl) = Some x).
Proof.
  intros Hl. apply lookup_app_Some in Hl as [Hl|[Hlen Hl]].
  - apply list_lookup_insert_Some in Hl as [(-> & -> & ?)|[? ?]]; [by left|by right; left].
  - rewrite length_insert in Hlen, Hl. right. by right.
Qed.

Lemma spawns_ok_length h h' sp :
  spawns_ok h h' sp -> length (cells h) <= length (cells h').
Proof.
  intros [[[_ ->]|[_ ->]]|[[_ ->]|[_ (st & v & e & ->)]]];
    rewrite ?length_app; simpl; lia.
Qed.

Lemma spawns_ok_producer h h' sp k q s :
  spawns_ok h h' sp -> sp !! k = Some (Producer q s) ->
  q = length (cells h) /\ k = 0 /\ is_exec s = true /\
  cells h' = cells h ++ [new_promise Pending VZero None].
Proof.
  intros [[[-> _]|[[b ->] _]]|[[[e ->] Hc]|[-> _]]] Hk; try done.
  - by destruct k.
  - destruct k; [|done]. by injection Hk as <- <-.
Qed.

Lemma state_of_kept c h' p st :
  cells_kept (mem c) h' -> state_of c p = Some st ->
  p_state <$> cells h' !! p = Some st.
Proof.
  unfold state_of. intros Hk Hst. apply fmap_Some in Hst as (a & Ha & ->).
  destruct (Hk p a Ha) as (b & -> & Hb & _). simpl. by rewrite Hb.
Qed.

Lemma tick_thread_kind t : same_kind t (default t (tick_thread t)).
Proof.
  destruct t as [m|p s]; simpl.
  - by destruct (tick_prog m).
  - destruct s; simpl; try done. by destruct (tick_prog body).
Qed.

Lemma same_kind_producer t q s' :
  same_kind t (Producer q s') ->
  exists s, t = Producer q s /\ (is_exec s' = true -> is_exec s = true).
Proof. destruct t as [|p s]; simpl; [done|]. intros [-> ?]. eauto. Qed.

Lemma is_exec_true s : is_exec s = true -> exists m, s = Exec m.
Proof. destruct s; try done. eauto. Qed.

Lemma step_wf c c' : wf c -> c' ∈ step c -> wf c'.
Proof.
  intros [Hopen Hbound Huniq Hpend] Hin.
  apply elem_of_step in Hin as [(i & t & h' & t' & sp & Hi & Hts & ->)| ->].
  - pose proof (lookup_lt_Some _ _ _ Hi) as Hlt.
    destruct (thread_step_effect _ _ _ _ _ Hts Hopen)
      as [[(Hopen' & Hkept & Hsp) Hkind]|(p & m & s' & -> & -> & Hne & -> & Hset)].
    + pose proof (spawns_ok_length _ _ _ Hsp) as Hlen.
      assert (forall j q s, (<[i:=t']> (pool c) ++ sp) !! j = Some (Producer q s) ->
                (exists j0 s0, pool c !! j0 = Some (Producer q s0) /\
                   (is_exec s = true -> is_exec s0 = true) /\
                   (j = j0) /\ j < length (pool c)) \/
                (q = length (cells (mem c)) /\ j = length (pool c) /\
                 is_exec s = true /\
                 cells h' = cells (mem c) ++ [new_promise Pending VZero None])) as Hcase.
      { intros j q s Hj.
        apply lookup_step_pool in Hj as [(-> & <- & _)|[[Hne Hj]|[Hge Hj]]].
        - apply same_kind_producer in Hkind as (s0 & -> & Hs0).
          left. by eexists _, _.
        - left. eexists _, _. split_and!; try done. by eapply lookup_lt_Some.
        - destruct (spawns_ok_producer _ _ _ _ _ _ Hsp Hj) as (-> & Hk & Hs & Hc).
          right. split_and!; try done. lia. }
      constructor; simpl.
      * done.
      * intros j q s Hj. destruct (Hcase _ _ _ Hj) as [(j0 & s0 & Hj0 & _)|(-> & _ & _ & ->)].
        -- apply Hbound in Hj0. lia.
        -- rewrite length_app. simpl. lia.
      * intros j1 j2 q s1 s2 Hj1 Hj2.
        destruct (Hcase _ _ _ Hj1) as [(k1 & r1 & Hk1 & _ & -> & ?)|(-> & -> & _)];
        destruct (Hcase _ _ _ Hj2) as [(k2 & r2 & Hk2 & _ & -> & ?)|(Hq & -> & _)].
        -- by eapply Huniq.
        -- apply Hbound in Hk1. lia.
        -- apply Hbound in Hk2. lia.
        -- done.
      * intros j q m Hj. unfold state_of. simpl.
        destruct (Hcase _ _ _ Hj) as [(j0 & s0 & Hj0 & Hs0 & _)|(-> & _ & _ & ->)].
        -- destruct (is_exec_true s0) as [m0 ->]; [by apply Hs0|].
           eapply state_of_kept; [done|]. by eapply Hpend.
        -- by rewrite list_lookup_middle.
    + rewrite app_nil_r.
      assert (cells h' = alter (set_fulfilled VZero) p (cells (mem c)) \/ True) as _ by (by right).
      assert (exists f, cells h' = alter f p (cells (mem c)) /\
                (forall a, cell_open a -> cell_open (f a))) as (f & Hc & Hf).
      { destruct Hset as [[v ->]|[e ->]]; eexists; (split; [done|]); by intros a (?&?&?). }
      constructor; simpl.
      * rewrite Hc. apply Forall_lookup. intros q b. rewrite list_lookup_alter.
        case_decide; subst.
        -- destruct (cells (mem c) !! q) eqn:E; [|done]. intros [= <-].
           apply Hf. by eapply Forall_lookup_1.
        -- intros. by eapply Forall_lookup_1.
      * intros j q s Hj. rewrite Hc, length_alter.
        apply list_lookup_insert_Some in Hj as [(-> & E & _)|[? Hj]];
          [simplify_eq|]; by eapply Hbound.
      * intros j1 j2 q s1 s2 Hj1 Hj2.
        apply list_lookup_insert_Some in Hj1 as [(-> & E1 & _)|[? Hj1]];
        apply list_lookup_insert_Some in Hj2 as [(-> & E2 & _)|[? Hj2]];
          simplify_eq; try done; by eapply Huniq.
      * intros j q m' Hj. unfold state_of. simpl. rewrite Hc.
        apply list_lookup_insert_Some in Hj as [(-> & E & _)|[? Hj]]; [by simplify_eq|].
        rewrite list_lookup_alter_ne; [by eapply Hpend|].
        intros ->. by specialize (Huniq _ _ _ _ _ Hi Hj).
  - assert (forall j q s, ((fun t => default t (tick_thread t)) <$> pool c) !! j
                = Some (Producer q s) ->
              exists s0, pool c !! j = Some (Producer q s0) /\
                (is_exec s = true -> is_exec s0 = true)) as Hcase.
    { intros j q s Hj. rewrite list_lookup_fmap in Hj.
      apply fmap_Some in Hj as (t & Ht & E).
      pose proof (tick_thread_kind t) as Hk. rewrite <- E in Hk.
      apply same_kind_producer in Hk as (s0 & -> & ?). eauto. }
    constructor; simpl.
    + done.
    + intros j q s Hj. destruct (Hcase _ _ _ Hj) as (s0 & Hj0 & _). by eapply Hbound.
    + intros j1 j2 q s1 s2 Hj1 Hj2.
      destruct (Hcase _ _ _ Hj1) as (r1 & Hk1 & _).
      destruct (Hcase _ _ _ Hj2) as (r2 & Hk2 & _). by eapply Huniq.
    + intros j q m Hj. destruct (Hcase _ _ _ Hj) as (s0 & Hj0 & Hs0).
      destruct (is_exec_true s0) as [m0 ->]; [by apply Hs0|]. by eapply Hpend.
Qed.

Lemma step_settles c c' :
  wf c -> c' ∈ step c ->
  forall p a, cells (mem c) !! p = Some a ->
    exists b, cells (mem c') !! p = Some b /\ settles_once a b.
Proof.
  intros [Hopen Hbound Huniq Hpend] Hin p a Ha.
  apply elem_of_step in Hin as [(i & t & h' & t' & sp & Hi & Hts & ->)| ->]; simpl.
  - destruct (thread_step_effect _ _ _ _ _ Hts Hopen)
      as [[(Hopen' & Hkept & Hsp) Hkind]|(q & m & s' & -> & -> & Hne & -> & Hset)].
    + destruct (Hkept p a Ha) as (b & Hb & Hsame). exists b. split; [done|by left].
    + specialize (Hpend _ _ _ Hi). unfold state_of in Hpend.
      destruct (decide (p = q)) as [->|Hpq].
      * rewrite Ha in Hpend. simpl in Hpend. injection Hpend as Hpend.
        destruct Hset as [[v ->]|[e ->]]; simpl; rewrite list_lookup_alter_eq, Ha;
          simpl; eexists; (split; [done|]); right; [left|right]; by split_and!.
      * exists a. split; [|left; apply same_outcome_refl].
        destruct Hset as [[v ->]|[e ->]]; simpl; by rewrite list_lookup_alter_ne.
  - exists a. split; [done|]. left. apply same_outcome_refl.
Qed.

Lemma wf_start main : wf (start main).
Proof.
  constructor; simpl.
  - constructor.
  - intros [|[|i]] p s; done.
  - intros [|[|i]] j p s s'; done.
  - intros [|[|i]] p m; done.
Qed.

Lemma wf_reachable main c : steps (start main) c -> wf c.
Proof.
  intros Hs. eapply (steps_invariant wf); [|done|apply wf_start].
  intros. by eapply step_wf.
Qed.

(** C9: NewPromise allocates a Pending promise, Resolve and Reject allocate
    one that is terminal from the start; and along every execution of every
    program, one step of the system leaves the (state, value, fault) of a
    promise alone or settles it from Pending: to Fulfilled, writing the
    value and not the fault, or to Rejected, writing a non-nil fault and not
    the value.  A terminal state therefore never changes again. *)
Theorem C9_state_is_monotonic :
  (forall h executor k,
     exists h', prog_step h (NewPromise executor k) =
                  [(h', k (length (cells h)),
                    [Producer (length (cells h)) (Exec executor)])] /\
       cells h' = cells h ++ [new_promise Pending VZero None]) /\
  (forall h v k,
     exists h' m, prog_step h (Resolve v k) = [(h', m, [])] /\
       cells h' = cells h ++ [new_promise Fulfilled v None]) /\
  (forall h e k,
     exists h' m, prog_step h (Reject e k) = [(h', m, [])] /\
       cells h' = cells h ++ [new_promise Rejected VZero e]) /\
  (forall main c c',
     steps (start main) c -> c' ∈ step c ->
     forall p a, cells (mem c) !! p = Some a ->
       exists b, cells (mem c') !! p = Some b /\ settles_once a b).
Proof.
  split_and!.
  - intros. eexists. split; reflexivity.
  - intros. eexists _, _. split; reflexivity.
  - intros. eexists _, _. split; reflexivity.
  - intros main c c' Hs Hin. eapply step_settles; [|done]. by eapply wf_reachable.
Qed.

Lemma C9_state_is_monotonic_witness :
  steps (start settle_main) settle_before /\
  settle_after ∈ step settle_before /\
  cells (mem settle_before) !! 0 = Some (new_promise Pending VZero None) /\
  exists b, cells (mem settle_after) !! 0 = Some b /\
            settles_once (new_promise Pending VZero None) b.
Proof.
  assert (steps (start settle_main) settle_before) as H1.
  { apply (steps_step _ settle_before); [left|apply steps_refl]. }
  assert (settle_after ∈ step settle_before) as H2.
  { left. }
  split_and!; [exact H1|exact H2|reflexivity|].
  exact (proj2 (proj2 (proj2 C9_state_is_monotonic))
           settle_main settle_before settle_after H1 H2 0 _ eq_refl).
Defined.

(** ** Executions that end *)

Lemma run_halts P Q c : run P Q c -> halts c.
Proof. induction 1 as [c _ E _|c _ _ _ IH]; constructor; [by rewrite E; intros ? ?%elem_of_nil|done]. Qed.

Lemma run_always P Q c : run P Q c -> forall c', steps c c' -> P c'.
Proof.
  intros Hr c' Hs. revert Hr. induction Hs as [c|c1 c2 c3 Hin Hs IH]; intros Hr.
  - by destruct Hr.
  - destruct Hr as [_ E _|_ _ Hn]; [by rewrite E in Hin; apply elem_of_nil in Hin|].
    apply IH, Hn, Hin.
Qed.

Lemma run_ends P Q c : run P Q c -> forall c', steps c c' -> terminal c' -> Q c'.
Proof.
  intros Hr c' Hs. revert Hr. induction Hs as [c|c1 c2 c3 Hin Hs IH]; intros Hr T.
  - destruct Hr as [_ _ HQ|_ Hne _]; [done|]. by rewrite T in Hne.
  - destruct Hr as [_ E _|_ _ Hn]; [by rewrite E in Hin; apply elem_of_nil in Hin|].
    by apply IH; [apply Hn|].
Qed.

Lemma run_mono (P P' Q Q' : config -> Prop) c :
  (forall c, P c -> P' c) -> (forall c, P c -> Q c -> Q' c) -> run P Q c -> run P' Q' c.
Proof.
  intros HP HQ. induction 1 as [c ? E ?|c ? ? _ IH].
  - apply run_end; auto.
  - apply run_step; auto.
Qed.

Lemma run_by_invariant (I : nat -> config -> Prop) (P Q : config -> Prop) :
  (forall m c, I m c -> P c) ->
  (forall m c, I m c -> step c = [] -> Q c) ->
  (forall m c c', I m c -> c' ∈ step c -> exists m', m' < m /\ I m' c') ->
  forall m c, I m c -> run P Q c.
Proof.
  intros HP HQ Hstep m. induction (lt_wf m) as [m _ IH]. intros c HI.
  destruct (step c) as [|c1 l] eqn:E.
  - apply run_end; eauto.
  - apply run_step; [by eapply HP|by rewrite E|].
    intros c' Hin. destruct (Hstep m c c' HI Hin) as (m' & Hlt & HI'). by eapply IH.
Qed.

Lemma frontier_run fuel c vis leaves (P Q : config -> Prop) :
  frontier fuel c = Some (vis, leaves) ->
  Forall P vis -> Forall (run P Q) leaves -> run P Q c.
Proof.
  revert c vis leaves. induction fuel as [|f IH]; intros c vis leaves; [done|].
  cbn [frontier]. destruct (sched c) as [|c1 cs] eqn:E.
  { intros [= <- <-] _ Hl. by inversion Hl. }
  assert (step c = c1 :: cs) as Es by (unfold step; by rewrite E).
  assert (step c <> []) as Hne by (by rewrite Es).
  revert E Es. generalize (c1 :: cs). intros l _ Es.
  destruct (mapM (frontier f) l) as [ls|] eqn:Em; simpl; [|done].
  intros [= <- <-] Hv Hl. apply Forall_cons in Hv as [HP Hv].
  apply run_step; [done|done|]. rewrite Es. intros c' Hin.
  apply mapM_Some_1 in Em. apply list_elem_of_lookup in Hin as [i Hi].
  destruct (Forall2_lookup_l _ _ _ _ _ Em Hi) as ([v2 l2] & Hl2 & Hr).
  eapply IH; [done| |].
  - apply Forall_forall. intros x Hx. rewrite Forall_forall in Hv. apply Hv.
    apply list_elem_of_In, in_concat. exists v2. split; [|by apply list_elem_of_In].
    apply list_elem_of_In, list_elem_of_fmap. exists (v2, l2). split; [done|].
    by eapply list_elem_of_lookup_2.
  - apply Forall_forall. intros x Hx. rewrite Forall_forall in Hl. apply Hl.
    apply list_elem_of_In, in_concat. exists l2. split; [|by apply list_elem_of_In].
    apply list_elem_of_In, list_elem_of_fmap. exists (v2, l2). split; [done|].
    by eapply list_elem_of_lookup_2.
Qed.

(** ** Exploring the graph of configurations

    [reach] unfolds the tree of executions; the tactic below walks the graph
    instead: it proves [run P Q c] once for each configuration met, from the
    proofs for its successors. *)

Lemma run_intro (P Q : config -> Prop) c l :
  step c = l -> P c -> (l = [] -> Q c) -> Forall (run P Q) l -> run P Q c.
Proof.
  intros <- HP HQ Hall. destruct (step c) as [|c1 cs] eqn:E.
  - apply run_end; auto.
  - apply run_step; [done|by rewrite E|]. rewrite E. by apply Forall_forall.
Qed.

Lemma run_all (P Q : config -> Prop) c0 :
  run P Q c0 ->
  halts c0 /\ forall c, steps c0 c -> P c /\ (terminal c -> Q c).
Proof.
  intros Hr. split; [by eapply run_halts|]. intros c Hs. split.
  - by eapply run_always.
  - by eapply run_ends.
Qed.

Lemma run_last (Q : config -> Prop) c0 :
  run anything Q c0 -> halts c0 /\ forall c, steps c0 c -> terminal c -> Q c.
Proof. intros Hr. split; [by eapply run_halts|by eapply run_ends]. Qed.

Lemma run_safe (P : config -> Prop) c0 :
  run P anything c0 -> halts c0 /\ forall c, steps c0 c -> P c.
Proof. intros Hr. split; [by eapply run_halts|by eapply run_always]. Qed.


Ltac known_run :=
  lazymatch goal with
  | |- run ?P ?Q ?c => lazymatch goal with H : run P Q c |- _ => exact H end
  end.

Ltac walk tacP tacQ P Q c k :=
  lazymatch goal with
  | H : run P Q c |- _ => k tt
  | _ =>
      let l := eval vm_compute in (step c) in
      walk_all tacP tacQ P Q l ltac:(fun _ =>
        assert (run P Q c) by
          (apply (run_intro P Q c l);
           [vm_compute; reflexivity
           |tacP
           |tacQ
           |repeat (first [apply List.Forall_nil
                          |apply List.Forall_cons; [known_run|]])]);
        k tt)
  end
with walk_all tacP tacQ P Q l k :=
  lazymatch l with
  | @nil _ => k tt
  | @cons _ ?c ?l' =>
      walk tacP tacQ P Q c ltac:(fun _ => walk_all tacP tacQ P Q l' k)
  end.

(** Proves [run P Q c0]: [always] proves [P c] at each configuration and
    [finally] proves [Q c] at those without successor. *)
Ltac walk_run always finally :=
  lazymatch goal with
  | |- run ?P ?Q ?c0 =>
      let c := eval vm_compute in c0 in
      change (run P Q c);
      walk always ltac:(intros T; first [discriminate T|finally]) P Q c
        ltac:(fun _ => known_run)
  end.



Ltac trivially := exact I.
Ltac by_cases := first [left; reflexivity|right; reflexivity].
Ltac by_parts := repeat split; reflexivity.

(** ** Timeout *)

Lemma reach_run fuel c l (P Q : config -> Prop) :
  reach fuel c = Some l ->
  Forall (fun c' => P c' /\ (step c' = [] -> Q c')) l -> run P Q c.
Proof.
  revert c l. induction fuel as [|f IH]; intros c l; [done|].
  cbn [reach]. destruct (mapM (reach f) (step c)) as [ls|] eqn:Em; simpl; [|done].
  intros [= <-] Hall. apply Forall_cons in Hall as [[HP HQ] Hall].
  destruct (step c) as [|c1 cs] eqn:Es; [by apply run_end; auto|].
  apply run_step; [done|by rewrite Es|]. rewrite Es. intros c' Hin.
  apply mapM_Some_1 in Em. apply list_elem_of_lookup in Hin as [i Hi].
  destruct (Forall2_lookup_l _ _ _ _ _ Em Hi) as (l2 & Hl2 & Hr).
  eapply IH; [done|].
  apply Forall_forall. intros x Hx. rewrite Forall_forall in Hall. apply Hall.
  apply list_elem_of_In, in_concat. exists l2. split; apply list_elem_of_In; [|done].
  by eapply list_elem_of_lookup_2.
Qed.

Ltac reach_run n :=
  eapply (reach_run n); [vm_compute; reflexivity|];
  repeat (first [apply List.Forall_nil | apply List.Forall_cons]).

Ltac tick_step IH :=
  apply run_step; [done|by vm_compute|];
  intros c' Hin; vm_compute in Hin;
  apply list_elem_of_singleton in Hin as ->; apply IH.

Lemma frontier_run_any fuel c vis leaves (Q : config -> Prop) :
  frontier fuel c = Some (vis, leaves) ->
  Forall (run anything Q) leaves -> run anything Q c.
Proof.
  intros Hf Hl. eapply frontier_run; [done| |done]. by apply Forall_forall.
Qed.

Ltac frontier_any n :=
  eapply (frontier_run_any n); [vm_compute; reflexivity|];
  repeat (first [apply List.Forall_nil | apply List.Forall_cons]).

Lemma frontier_run_same fuel c vis leaves L (Q : config -> Prop) :
  frontier fuel c = Some (vis, leaves) ->
  leaves = replicate (length leaves) L ->
  run anything Q L -> run anything Q c.
Proof.
  intros Hf E HL. eapply frontier_run_any; [done|].
  rewrite E. by apply Forall_replicate.
Qed.

Ltac frontier_same n L :=
  eapply (frontier_run_same n _ _ _ L);
  [vm_compute; reflexivity|vm_compute; reflexivity|].












(** ** The fork-join skeleton of All and AllSettled *)

Lemma step_intro c i t h' t' sp :
  pool c !! i = Some t -> (h', t', sp) ∈ thread_step (mem c) t ->
  Config (now c) h' (<[i := t']> (pool c) ++ sp) ∈ step c.
Proof.
  intros Hi Hin.
  assert (Config (now c) h' (<[i := t']> (pool c) ++ sp) ∈ sched c) as Hs.
  { unfold sched. apply list_elem_of_In, in_flat_map. exists i. split.
    - apply in_seq. apply lookup_lt_Some in Hi. lia.
    - apply list_elem_of_In. unfold run_thread. rewrite Hi.
      apply list_elem_of_fmap. by exists (h', t', sp). }
  unfold step. destruct (sched c); [by apply elem_of_nil in Hs|done].
Qed.

Lemma step_cases c c' :
  Forall quiet (pool c) -> c' ∈ step c ->
  exists i t h' t' sp,
    pool c !! i = Some t /\ (h', t', sp) ∈ thread_step (mem c) t /\
    c' = Config (now c) h' (<[i := t']> (pool c) ++ sp).
Proof.
  intros Hq Hin. unfold step in Hin.
  assert (tick c = []) as Ht.
  { unfold tick. destruct (existsb _ _) eqn:E; [|done].
    apply existsb_exists in E as (t & Hin' & Ht).
    apply list_elem_of_In in Hin'. rewrite Forall_forall in Hq.
    specialize (Hq t Hin'). unfold quiet in Hq. rewrite Hq in Ht.
    by apply bool_decide_eq_true in Ht as [? ?]. }
  assert (c' ∈ sched c) as Hs.
  { destruct (sched c); [rewrite Ht in Hin; by apply elem_of_nil in Hin|done]. }
  unfold sched in Hs. apply list_elem_of_In, in_flat_map in Hs as (i & _ & Hs).
  apply list_elem_of_In in Hs. unfold run_thread in Hs.
  destruct (pool c !! i) as [t|] eqn:Hi; [|by apply elem_of_nil in Hs].
  apply list_elem_of_fmap in Hs as ([[h' t'] sp] & -> & Hs). by eexists _, _, _, _, _.
Qed.

Lemma total_app f ws w : total f (ws ++ [w]) = total f ws + f w.
Proof. unfold total. rewrite sum_list_with_app. simpl. lia. Qed.

Lemma total_insert f ws i w w' :
  ws !! i = Some w -> total f (<[i := w']> ws) + f w = total f ws + f w'.
Proof.
  unfold total. revert i. induction ws as [|a ws IH]; intros [|i] Hi; simplify_eq/=.
  - lia.
  - specialize (IH _ Hi). lia.
Qed.

Lemma total_active_zero ws : total active ws = 0 -> ws = replicate (length ws) W4.
Proof.
  unfold total. induction ws as [|a ws IH]; simpl; [done|].
  intros H. destruct a; simpl in H; try lia. f_equal. apply IH. lia.
Qed.

Lemma total_active_pos ws i w : ws !! i = Some w -> active w = 1 -> 0 < total active ws.
Proof.
  unfold total. intros Hi Hw. apply list_elem_of_lookup_2 in Hi.
  pose proof (sum_list_with_in w active ws Hi). lia.
Qed.

Lemma awaited_at_app ws w i : awaited w = false -> awaited_at (ws ++ [w]) i = awaited_at ws i.
Proof.
  intros Hw. unfold awaited_at. destruct (decide (i < length ws)).
  - by rewrite lookup_app_l.
  - rewrite lookup_app_r by lia. rewrite (lookup_ge_None_2 ws) by lia.
    destruct (i - length ws); simpl; [by rewrite Hw|done].
Qed.

Lemma recorded_at_app ws w i : recorded w = false -> recorded_at (ws ++ [w]) i = recorded_at ws i.
Proof.
  intros Hw. unfold recorded_at. destruct (decide (i < length ws)).
  - by rewrite lookup_app_l.
  - rewrite lookup_app_r by lia. rewrite (lookup_ge_None_2 ws) by lia.
    destruct (i - length ws); simpl; [by rewrite Hw|done].
Qed.

Lemma awaited_at_insert ws k w' i :
  k < length ws ->
  awaited_at (<[k := w']> ws) i = if decide (i = k) then awaited w' else awaited_at ws i.
Proof.
  intros Hk. unfold awaited_at. case_decide; subst.
  - by rewrite list_lookup_insert_eq.
  - by rewrite list_lookup_insert_ne.
Qed.

Lemma recorded_at_insert ws k w' i :
  k < length ws ->
  recorded_at (<[k := w']> ws) i = if decide (i = k) then recorded w' else recorded_at ws i.
Proof.
  intros Hk. unfold recorded_at. case_decide; subst.
  - by rewrite list_lookup_insert_eq.
  - by rewrite list_lookup_insert_ne.
Qed.

Lemma step_eq {A} (h h' : heap) (t : A) :
  cells h = cells h' -> chans h = chans h' -> wgs h = wgs h' ->
  slices h = slices h' -> [(h, t, @nil thread)] = [(h', t, [])].
Proof. destruct h, h'; simpl. by intros -> -> -> ->. Qed.

Lemma total_active_zero_replicate n : total active (replicate n W4) = 0.
Proof. unfold total. induction n; simpl; [done|]. by rewrite IHn. Qed.

Lemma step_nonempty c i t x l :
  pool c !! i = Some t -> thread_step (mem c) t = x :: l -> step c <> [].
Proof.
  intros Hi Hs. destruct x as [[h' t'] sp].
  assert ((h', t', sp) ∈ thread_step (mem c) t) as Hin by (rewrite Hs; left).
  pose proof (step_intro c i t h' t' sp Hi Hin) as Hst.
  intros E. rewrite E in Hst. by apply elem_of_nil in Hst.
Qed.

Lemma total_active_exists ws :
  total active ws <> 0 -> exists k w, ws !! k = Some w /\ finished w = false.
Proof.
  unfold total. induction ws as [|a ws IH]; simpl; [done|]. intros H.
  destruct (finished a) eqn:Hf.
  - destruct a; try done. simpl in H. destruct IH as (k & w & Hk & Hw); [lia|].
    by exists (S k), w.
  - by exists 0, a.
Qed.

Section join_proofs.
Variable ins : list input.
Variable K : nat -> val -> error -> prog.
Variable dst : nat -> input -> nat.
Variable enc : nat -> input -> val.
Variable fin : prog.
Variable init : list (list val).
Hypothesis HK : forall i x, ins !! i = Some x -> is_settled x = true ->
  K i (input_result x).1 (input_result x).2 =
    Store (dst i x) i (enc i x) (WgDone 0 Exit).
Hypothesis Hdst : forall i x, ins !! i = Some x ->
  exists l, init !! dst i x = Some l /\ i < length l.

Lemma lookup_join_cells ws i x :
  ins !! i = Some x ->
  join_cells ins ws !! i = Some (input_cell x (awaited_at ws i)).
Proof.
  intros Hi. unfold join_cells. rewrite lookup_app_l.
  - by rewrite list_lookup_imap, Hi.
  - rewrite length_imap. by eapply lookup_lt_Some.
Qed.

Lemma lookup_join_cells_q ws :
  join_cells ins ws !! length ins = Some (new_promise Pending VZero None).
Proof.
  unfold join_cells. rewrite lookup_app_r; rewrite length_imap; [|done].
  by rewrite Nat.sub_diag.
Qed.

Lemma join_cells_ext ws ws' :
  (forall i, awaited_at ws i = awaited_at ws' i) ->
  join_cells ins ws = join_cells ins ws'.
Proof.
  intros H. unfold join_cells. f_equal. apply imap_ext. intros i x _. by rewrite H.
Qed.

Lemma join_slices_ext ws ws' :
  (forall i, recorded_at ws i = recorded_at ws' i) ->
  join_slices ins dst enc init ws = join_slices ins dst enc init ws'.
Proof.
  intros H. unfold join_slices. apply imap_ext. intros s l _.
  apply imap_ext. intros i x0 _. unfold join_slot. by rewrite H.
Qed.

Lemma join_cells_await ws k x :
  ins !! k = Some x -> ws !! k = Some W0 -> is_settled x = true ->
  alter (with_done (Chan [] 1 false)) k (join_cells ins ws) =
  join_cells ins (<[k := W1]> ws).
Proof.
  intros Hk Hw Hx. pose proof (lookup_lt_Some _ _ _ Hk) as Hlt.
  pose proof (lookup_lt_Some _ _ _ Hw) as Hlt'.
  unfold join_cells. rewrite alter_app_l by (by rewrite length_imap).
  f_equal. apply list_eq. intros i.
  rewrite list_lookup_alter, !list_lookup_imap.
  rewrite awaited_at_insert by done. case_decide; subst.
  - rewrite decide_True by done. rewrite Hk. simpl. f_equal.
    unfold awaited_at. rewrite Hw. by destruct x.
  - by rewrite decide_False by done.
Qed.

Lemma lookup_join_slices ws s l0 :
  init !! s = Some l0 ->
  join_slices ins dst enc init ws !! s = Some (imap (join_slot ins dst enc ws s) l0).
Proof. intros Hs. unfold join_slices. by rewrite list_lookup_imap, Hs. Qed.

Lemma join_slices_store ws k x l0 :
  ins !! k = Some x -> ws !! k = Some W2 -> init !! dst k x = Some l0 ->
  <[dst k x := <[k := enc k x]> (imap (join_slot ins dst enc ws (dst k x)) l0)]>
    (join_slices ins dst enc init ws) =
  join_slices ins dst enc init (<[k := W3]> ws).
Proof.
  intros Hk Hw Hs. pose proof (lookup_lt_Some _ _ _ Hw) as Hlt.
  apply list_eq. intros s. unfold join_slices at 2.
  rewrite list_lookup_insert, !list_lookup_imap. case_decide as Hc.
  - destruct Hc as [<- _]. rewrite Hs. simpl. f_equal.
    apply list_eq. intros i. rewrite list_lookup_insert, !list_lookup_imap.
    rewrite length_imap. unfold join_slot at 2. rewrite recorded_at_insert by done.
    case_decide as Hc'.
    + destruct Hc' as [<- Hl]. rewrite decide_True by done.
      rewrite Hk. simpl. rewrite Nat.eqb_refl.
      destruct (l0 !! k) eqn:E; [done|]. apply lookup_ge_None in E. lia.
    + destruct (decide (i = k)) as [->|Hne].
      * assert (length l0 <= k) as Hge by (destruct (decide (k < length l0)); [naive_solver|lia]).
        by rewrite (lookup_ge_None_2 l0).
      * done.
  - unfold join_slices. rewrite list_lookup_imap.
    destruct (init !! s) as [l|] eqn:E; [|done]. simpl. f_equal.
    apply imap_ext. intros i x0 _. unfold join_slot.
    rewrite recorded_at_insert by done.
    destruct (decide (i = k)) as [->|Hik]; [|done].
    rewrite Hk. unfold recorded_at. rewrite Hw. simpl.
    destruct (Nat.eqb_spec (dst k x) s) as [Heq|?]; [|done].
    exfalso. apply Hc. split; [done|]. unfold join_slices. rewrite length_imap.
    by eapply lookup_lt_Some.
Qed.

Local Abbreviation cfg := (join_config ins K dst enc fin init).
Local Abbreviation watcher k w :=
  (Plain (join_watcher K dst enc k%nat (default Never (ins !! k%nat)) w)).

Lemma join_pool_lookup j a ws i t :
  join_pool ins K dst enc fin j a ws !! i = Some t ->
  (i = 0 /\ t = Plain Exit) \/
  (i = 1 /\ t = Producer (length ins) (Exec (join_producer ins K fin j a))) \/
  (exists k w, i = S (S k) /\ ws !! k = Some w /\ t = watcher k w).
Proof.
  destruct i as [|[|k]]; simpl.
  - intros [= <-]. by left.
  - intros [= <-]. right. by left.
  - rewrite list_lookup_imap. intros Hk. apply fmap_Some in Hk as (w & Hw & ->).
    right. right. by exists k, w.
Qed.

Lemma join_pool_insert j a ws k w' :
  <[S (S k) := watcher k w']> (join_pool ins K dst enc fin j a ws) =
  join_pool ins K dst enc fin j a (<[k := w']> ws).
Proof.
  unfold join_pool. simpl. do 2 f_equal. apply list_eq. intros i.
  rewrite list_lookup_insert, !list_lookup_imap, length_imap, list_lookup_insert.
  case_decide as Hc; [|done]. by destruct Hc as [<- ?].
Qed.

Lemma join_pool_quiet j a ws : Forall quiet (join_pool ins K dst enc fin j a ws).
Proof.
  unfold join_pool. apply Forall_app_2; [repeat constructor|].
  - unfold quiet. destruct a; [done|]. simpl. unfold join_loop.
    destruct (seq j (length ins - j)); simpl; done.
  - apply Forall_lookup. intros i t. rewrite list_lookup_imap.
    intros Hi. apply fmap_Some in Hi as (w & _ & ->). by destruct w.
Qed.

Lemma join_loop_next j :
  j < length ins ->
  join_loop ins K fin j = WgAdd 0 1 (Go (Await j (K j)) (join_loop ins K fin (S j))).
Proof.
  intros Hj. unfold join_loop.
  replace (length ins - j) with (S (length ins - S j)) by lia. done.
Qed.

Lemma join_loop_end : join_loop ins K fin (length ins) = WgWait 0 fin.
Proof. unfold join_loop. by rewrite Nat.sub_diag. Qed.

Lemma watcher_step a ws k x w :
  ins !! k = Some x -> ws !! k = Some w -> join_wf ins a ws ->
  thread_step (mem (cfg a ws)) (watcher k w) =
    if finished w then []
    else if negb (is_settled x) then []
    else [(mem (cfg a (<[k := wnext w]> ws)), watcher k (wnext w), [])].
Proof.
  intros Hk Hw (Hlen & Hadd & Hnever). pose proof (lookup_lt_Some _ _ _ Hw) as Hlt.
  rewrite Hk. simpl default.
  destruct (is_settled x) eqn:Hx; simpl negb; cbv iota.
  2: { rewrite (Hnever _ _ _ Hk Hw Hx). simpl. unfold recv_step. simpl.
       rewrite (lookup_join_cells _ _ _ Hk). by destruct x. }
  assert (forall w', awaited w' = awaited w ->
            join_cells ins ws = join_cells ins (<[k := w']> ws)) as Hcells.
  { intros w' Hw'. apply join_cells_ext. intros i. rewrite awaited_at_insert by done.
    case_decide; [subst|done]. unfold awaited_at. by rewrite Hw. }
  assert (forall w', recorded w' = recorded w ->
            join_slices ins dst enc init ws =
            join_slices ins dst enc init (<[k := w']> ws)) as Hslices.
  { intros w' Hw'. apply join_slices_ext. intros i. rewrite recorded_at_insert by done.
    case_decide; [subst|done]. unfold recorded_at. by rewrite Hw. }
  assert (forall w', active w' = active w ->
            total active ws = total active (<[k := w']> ws)) as Htotal.
  { intros w' Hw'. pose proof (total_insert active ws k w w' Hw). lia. }
  destruct w; simpl finished; cbv iota.
  - (* Await: the receive from done *)
    simpl. unfold recv_step. simpl. rewrite (lookup_join_cells _ _ _ Hk).
    unfold awaited_at. rewrite Hw. simpl.
    assert (p_done (input_cell x false) = Chan [VBool true] 1 false) as ->
      by (by destruct x).
    simpl. apply step_eq; simpl.
    + by apply (join_cells_await ws k x).
    + done.
    + by rewrite <- Htotal.
    + by apply Hslices.
  - (* the read of the promise *)
    simpl. rewrite (lookup_join_cells _ _ _ Hk).
    unfold awaited_at. rewrite Hw. simpl.
    assert (forall k0 : val -> error -> prog,
              match p_state (input_cell x true) with
              | Fulfilled => k0 (p_value (input_cell x true)) None
              | _ => k0 VZero (p_error (input_cell x true))
              end = k0 (input_result x).1 (input_result x).2) as Hres.
    { intros k0. by destruct x. }
    simpl. rewrite Hres, HK by done. apply step_eq; simpl.
    + by apply Hcells.
    + done.
    + by rewrite <- Htotal.
    + by apply Hslices.
  - (* the record *)
    destruct (Hdst _ _ Hk) as (l0 & Hl0 & Hkl). simpl.
    rewrite (lookup_join_slices _ _ _ Hl0). rewrite length_imap.
    apply Nat.ltb_lt in Hkl. rewrite Hkl. apply step_eq; simpl.
    + by apply Hcells.
    + done.
    + by rewrite <- Htotal.
    + by apply (join_slices_store ws k x).
  - (* wg.Done() *)
    simpl. pose proof (total_insert active ws k W3 W4 Hw) as Ht. simpl in Ht.
    replace (total active ws + (if a then 1 else 0))
      with (S (total active (<[k:=W4]> ws) + (if a then 1 else 0))) by lia.
    apply step_eq; simpl.
    + by apply Hcells.
    + done.
    + done.
    + by apply Hslices.
  - done.
Qed.

Lemma producer_step a ws :
  join_wf ins a ws ->
  thread_step (mem (cfg a ws))
    (Producer (length ins) (Exec (join_producer ins K fin (length ws) a))) =
    if a then
      [(mem (cfg false (ws ++ [W0])),
        Producer (length ins) (Exec (join_loop ins K fin (S (length ws)))),
        [Plain (Await (length ws) (K (length ws)))])]
    else if decide (length ws < length ins) then
      [(mem (cfg true ws),
        Producer (length ins) (Exec (join_producer ins K fin (length ws) true)), [])]
    else if Nat.eqb (total active ws) 0 then
      [(mem (cfg false ws), Producer (length ins) (Exec fin), [])]
    else [].
Proof.
  intros (Hlen & Hadd & Hnever). destruct a.
  - simpl. f_equal. f_equal. f_equal. f_equal.
    + apply join_cells_ext. intros i. by rewrite awaited_at_app.
    + rewrite total_app. simpl. f_equal. lia.
    + apply join_slices_ext. intros i. by rewrite recorded_at_app.
  - case_decide as Hlt.
    + simpl. rewrite join_loop_next by done. simpl.
      f_equal. f_equal. f_equal. unfold set_wgs. simpl. f_equal. f_equal. lia.
    + assert (length ws = length ins) as -> by lia. simpl.
      rewrite join_loop_end. simpl. rewrite Nat.add_0_r.
      by destruct (total active ws).
Qed.

Lemma join_exit_pool :
  [Plain Exit; Producer (length ins) (Exec fin)] ++
    imap (fun i w => watcher i w) (replicate (length ins) W4) =
  [Plain Exit; Producer (length ins) (Exec fin)] ++ replicate (length ins) (Plain Exit).
Proof.
  f_equal. apply list_eq. intros i. rewrite list_lookup_imap.
  destruct (decide (i < length ins)).
  - by rewrite !lookup_replicate_2.
  - by rewrite !(proj1 (lookup_replicate_None _ _ _)) by lia.
Qed.

Lemma join_step a ws c' :
  join_wf ins a ws -> c' ∈ step (cfg a ws) ->
  (exists a' ws', join_wf ins a' ws' /\ c' = cfg a' ws' /\
      join_measure ins a' ws' < join_measure ins a ws) \/
  (c' = join_done ins dst enc fin init /\ Forall (fun x => is_settled x = true) ins).
Proof.
  intros Hwf Hin. pose proof Hwf as (Hlen & Hadd & Hnever).
  apply step_cases in Hin as (i & t & h' & t' & sp & Hi & Hts & ->);
    [|apply join_pool_quiet].
  simpl pool in Hi. simpl now.
  apply join_pool_lookup in Hi as [(-> & ->)|[(-> & ->)|(k & w & -> & Hw & ->)]].
  - by apply elem_of_nil in Hts.
  - rewrite producer_step in Hts by done. destruct a.
    + apply list_elem_of_singleton in Hts as [= -> -> ->]. left.
      exists false, (ws ++ [W0]). unfold join_wf. split_and!.
      * specialize (Hadd eq_refl). rewrite length_app. simpl. lia.
      * done.
      * intros i x w Hi Hw Hx. apply lookup_app_Some in Hw as [Hw|[_ Hw]]; [eauto|].
        destruct (i - length ws); simplify_eq/=; done.
      * unfold join_config. f_equal. unfold join_pool. simpl.
        rewrite imap_app. simpl. rewrite Nat.add_0_r, length_app. simpl.
        by replace (length ws + 1) with (S (length ws)) by lia.
      * specialize (Hadd eq_refl). unfold join_measure.
        rewrite total_app, length_app. simpl. lia.
    + case_decide as Hlt.
      * apply list_elem_of_singleton in Hts as [= -> -> ->]. left.
        exists true, ws. split_and!.
        -- unfold join_wf. split_and!; [done| |done]. by intros _.
        -- unfold join_config. f_equal. by rewrite app_nil_r.
        -- unfold join_measure. lia.
      * destruct (Nat.eqb_spec (total active ws) 0) as [Hz|Hnz];
          [|by apply elem_of_nil in Hts].
        apply list_elem_of_singleton in Hts as [= -> -> ->]. right.
        assert (length ws = length ins) as Hn by lia.
        apply total_active_zero in Hz. rewrite Hn in Hz. split.
        -- unfold join_done, join_config. rewrite Hz at 1 2 3. simpl mem.
           rewrite total_active_zero_replicate. f_equal.
           rewrite app_nil_r. unfold join_pool. rewrite Hz. simpl.
           do 2 f_equal. pose proof join_exit_pool as He. by simplify_eq/=.
        -- apply Forall_lookup. intros i x Hi.
           destruct (is_settled x) eqn:Hx; [done|].
           assert (ws !! i = Some W4) as Hw.
           { rewrite Hz. apply lookup_replicate_2. by eapply lookup_lt_Some. }
           by specialize (Hnever _ _ _ Hi Hw Hx).
  - pose proof (lookup_lt_Some _ _ _ Hw) as Hk.
    destruct (lookup_lt_is_Some_2 ins k) as [x Hx]; [lia|].
    rewrite (watcher_step a ws k x w Hx Hw Hwf) in Hts.
    destruct (finished w) eqn:Hf; [by apply elem_of_nil in Hts|].
    destruct (is_settled x) eqn:Hsx; [|by apply elem_of_nil in Hts]. simpl in Hts.
    apply list_elem_of_singleton in Hts as [= -> -> ->]. left.
    exists a, (<[k := wnext w]> ws). unfold join_wf. split_and!.
    + by rewrite length_insert.
    + by rewrite length_insert.
    + intros i x' w' Hi Hw' Hx'. apply list_lookup_insert_Some in Hw' as [(-> & <- & _)|[? Hw']].
      * congruence.
      * eauto.
    + unfold join_config. f_equal. rewrite app_nil_r, length_insert.
      apply join_pool_insert.
    + unfold join_measure. rewrite length_insert.
      pose proof (total_insert remaining ws k w (wnext w) Hw) as Ht.
      assert (remaining (wnext w) < remaining w) by (destruct w; simpl; done || lia).
      destruct a; lia.
Qed.


Lemma join_run (P Q : config -> Prop) :
  (forall a ws, join_wf ins a ws -> P (cfg a ws)) ->
  (forall a ws, join_wf ins a ws -> step (cfg a ws) = [] -> Q (cfg a ws)) ->
  (Forall (fun x => is_settled x = true) ins ->
   run P Q (join_done ins dst enc fin init)) ->
  forall a ws, join_wf ins a ws -> run P Q (cfg a ws).
Proof.
  intros HP HQ Hdone a ws. remember (join_measure ins a ws) as m eqn:Hm.
  revert a ws Hm. induction (lt_wf m) as [m _ IH]. intros a ws -> Hwf.
  destruct (step (cfg a ws)) as [|c1 l] eqn:E.
  - apply run_end; auto.
  - apply run_step; [auto|by rewrite E|]. intros c' Hin.
    destruct (join_step a ws c' Hwf Hin) as [(a' & ws' & Hwf' & -> & Hlt)|[-> Hall]].
    + by eapply IH.
    + by apply Hdone.
Qed.

Lemma join_start_wf : join_wf ins false [].
Proof. unfold join_wf. split_and!; simpl; [lia|done|done]. Qed.
End join_proofs.

(** *** Clients of the skeleton *)

Lemma run_det (P Q : config -> Prop) c c' :
  step c = [c'] -> P c -> run P Q c' -> run P Q c.
Proof.
  intros E HP Hr. apply run_step; [done|by rewrite E|].
  rewrite E. by intros ? ->%list_elem_of_singleton.
Qed.

Lemma flat_map_nil {A B} (f : A -> list B) l :
  (forall x, x ∈ l -> f x = []) -> flat_map f l = [].
Proof.
  induction l as [|a l IH]; simpl; [done|]. intros H.
  rewrite (H a) by left. apply IH. intros x Hx. apply H. by right.
Qed.

Lemma sched_lone_producer cl h p s m :
  sched (lone_producer cl h p s m) =
  (fun '(h', t', sp) =>
     Config cl h' (<[1 := t']> ([Plain Exit; Producer p s] ++ replicate m (Plain Exit)) ++ sp))
    <$> thread_step h (Producer p s).
Proof.
  unfold sched, lone_producer. cbn [pool length app]. rewrite length_replicate.
  change (seq 0 (S (S m))) with (0 :: 1 :: seq 2 m). cbn [flat_map].
  rewrite flat_map_nil.
  - by rewrite app_nil_r.
  - intros i Hi. apply elem_of_seq in Hi. unfold run_thread. cbn [pool mem now].
    destruct i as [|[|i]]; [lia..|].
    replace ((Plain Exit :: Producer p s :: replicate m (Plain Exit)) !! S (S i))
      with (replicate m (Plain Exit) !! i) by done.
    by rewrite lookup_replicate_2 by lia.
Qed.

Lemma lone_producer_step cl h p s m h' s' :
  thread_step h (Producer p s) = [(h', Producer p s', [])] ->
  step (lone_producer cl h p s m) = [lone_producer cl h' p s' m].
Proof.
  intros Hs. unfold step. rewrite sched_lone_producer, Hs. simpl.
  by rewrite app_nil_r.
Qed.

Lemma lone_producer_finished cl h p m :
  step (lone_producer cl h p Finished m) = [].
Proof.
  unfold step. rewrite sched_lone_producer. simpl. unfold tick. simpl.
  destruct (existsb _ _) eqn:E; [|done].
  apply existsb_exists in E as (t & Hin & Ht).
  by apply list_elem_of_In, elem_of_replicate in Hin as [-> _].
Qed.

Lemma alter_last {A} (f : A -> A) (L : list A) x :
  alter f (length L) (L ++ [x]) = L ++ [f x].
Proof. rewrite <- (Nat.add_0_r (length L)). by rewrite alter_app_r. Qed.

Lemma lookup_last {A} (L : list A) x : (L ++ [x]) !! length L = Some x.
Proof. by rewrite list_lookup_middle. Qed.

(** The producer has returned (v, e) and nothing else is alive: it settles
    its promise and publishes the outcome. *)
Lemma settle_run (P Q : config -> Prop) cl L chs wg sl v e m :
  (forall s qc,
     p_state qc = Pending \/ p_state qc = p_state (settled_promise v e false) ->
     P (lone_producer cl (Heap (L ++ [qc]) chs wg sl) (length L) s m)) ->
  Q (lone_producer cl (Heap (L ++ [settled_promise v e false]) chs wg sl)
       (length L) Finished m) ->
  run P Q (lone_producer cl (Heap (L ++ [new_promise Pending VZero None]) chs wg sl)
             (length L) (Exec (Return v e)) m).
Proof.
  intros HP HQ.
  destruct e as [f|].
  - eapply run_det; [apply lone_producer_step; reflexivity|apply HP; by left|].
    unfold update_cell. simpl. rewrite alter_last.
    eapply run_det; [apply lone_producer_step|apply HP; by right|].
    { simpl. unfold publish. simpl. rewrite lookup_last. simpl. reflexivity. }
    simpl. rewrite alter_last.
    eapply run_det; [apply lone_producer_step|apply HP; by right|].
    { simpl. unfold publish. simpl. rewrite lookup_last. simpl. reflexivity. }
    simpl. rewrite alter_last.
    apply run_end; [apply HP; by right|apply lone_producer_finished|exact HQ].
  - eapply run_det; [apply lone_producer_step; reflexivity|apply HP; by left|].
    unfold update_cell. simpl. rewrite alter_last.
    eapply run_det; [apply lone_producer_step|apply HP; by right|].
    { simpl. unfold publish. simpl. rewrite lookup_last. simpl. reflexivity. }
    simpl. rewrite alter_last.
    eapply run_det; [apply lone_producer_step|apply HP; by right|].
    { simpl. unfold publish. simpl. rewrite lookup_last. simpl. reflexivity. }
    simpl. rewrite alter_last.
    apply run_end; [apply HP; by right|apply lone_producer_finished|exact HQ].
Qed.




Lemma join_cells_nil ins :
  join_cells ins [] = ((fun x => input_cell x false) <$> ins) ++ [new_promise Pending VZero None].
Proof.
  unfold join_cells. f_equal. rewrite <- imap_const. by apply imap_ext.
Qed.

Lemma join_cells_done ins :
  join_cells ins (replicate (length ins) W4) =
  ((fun x => input_cell x (is_settled x)) <$> ins) ++ [new_promise Pending VZero None].
Proof.
  unfold join_cells. f_equal. rewrite <- imap_const. apply imap_ext.
  intros i x Hi. unfold awaited_at. rewrite lookup_replicate_2 by (by eapply lookup_lt_Some).
  simpl. by destruct x.
Qed.

Lemma join_slices_nil ins dst enc init : join_slices ins dst enc init [] = init.
Proof.
  unfold join_slices. rewrite <- (list_fmap_id init) at 2. rewrite <- imap_const.
  apply imap_ext. intros s l _. simpl. rewrite <- (list_fmap_id l) at 2.
  rewrite <- imap_const. apply imap_ext. intros i x0 _. unfold join_slot. simpl.
  by destruct (ins !! i).
Qed.


(** *** AllSettled *)

Lemma AllSettled_K_spec i x :
  is_settled x = true ->
  AllSettled_K i (input_result x).1 (input_result x).2 =
  Store 0 i (settle_record x) (WgDone 0 Exit).
Proof. by destruct x. Qed.


(** *** All *)

Lemma All_K_spec i x :
  is_settled x = true ->
  All_K i (input_result x).1 (input_result x).2 =
  Store (All_dst x) i (All_enc x) (WgDone 0 Exit).
Proof. by destruct x. Qed.












(** ** Any *)

Lemma lookup_input_cells ins ws i x qc :
  ins !! i = Some x ->
  (input_cells ins ws ++ [qc]) !! i = Some (input_cell x (awaited_at ws i)).
Proof.
  intros Hi. unfold input_cells. rewrite lookup_app_l.
  - by rewrite list_lookup_imap, Hi.
  - rewrite length_imap. by eapply lookup_lt_Some.
Qed.

Lemma length_input_cells ins ws : length (input_cells ins ws) = length ins.
Proof. apply length_imap. Qed.

Lemma input_cells_ext ins ws ws' :
  (forall i, awaited_at ws i = awaited_at ws' i) ->
  input_cells ins ws = input_cells ins ws'.
Proof. intros H. apply imap_ext. intros i x _. by rewrite H. Qed.

Lemma input_cells_await ins ws k x qc :
  ins !! k = Some x -> ws !! k = Some W0 -> is_settled x = true ->
  alter (with_done (Chan [] 1 false)) k (input_cells ins ws ++ [qc]) =
  input_cells ins (<[k := W1]> ws) ++ [qc].
Proof.
  intros Hk Hw Hx. pose proof (lookup_lt_Some _ _ _ Hk) as Hlt.
  pose proof (lookup_lt_Some _ _ _ Hw) as Hlt'.
  rewrite alter_app_l by (by rewrite length_input_cells).
  f_equal. apply list_eq. intros i. unfold input_cells.
  rewrite list_lookup_alter, !list_lookup_imap.
  rewrite awaited_at_insert by done. case_decide; subst.
  - rewrite decide_True by done. rewrite Hk. simpl. f_equal.
    unfold awaited_at. rewrite Hw. by destruct x.
  - by rewrite decide_False by done.
Qed.

Lemma input_cells_same ins ws k w w' :
  ws !! k = Some w -> awaited w' = awaited w ->
  input_cells ins (<[k := w']> ws) = input_cells ins ws.
Proof.
  intros Hw Ha. apply input_cells_ext. intros i.
  rewrite awaited_at_insert by (by eapply lookup_lt_Some).
  case_decide; [subst|done]. unfold awaited_at. by rewrite Hw.
Qed.

Lemma input_cells_app ins ws :
  input_cells ins (ws ++ [W0]) = input_cells ins ws.
Proof. apply input_cells_ext. intros i. by rewrite awaited_at_app. Qed.

Lemma total_same f ws k w w' :
  ws !! k = Some w -> f w' = f w -> total f (<[k := w']> ws) = total f ws.
Proof. intros Hw Hf. pose proof (total_insert f ws k w w' Hw). lia. Qed.

Lemma recorded_at_same ws k w w' i :
  ws !! k = Some w -> recorded w' = recorded w ->
  recorded_at (<[k := w']> ws) i = recorded_at ws i.
Proof.
  intros Hw Hr. rewrite recorded_at_insert by (by eapply lookup_lt_Some).
  case_decide; [subst|done]. unfold recorded_at. by rewrite Hw.
Qed.

Lemma any_loop_next n j :
  j < n ->
  any_loop n j = WgAdd 0 1 (Go (Any_watcher 0 0 0 j) (any_loop n (S j))).
Proof.
  intros Hj. unfold any_loop. by replace (n - j) with (S (n - S j)) by lia.
Qed.

Lemma any_loop_end n : any_loop n n = Go (Any_closer 0 0) (Any_receive 0 0).
Proof. unfold any_loop. by rewrite Nat.sub_diag. Qed.

Lemma any_errors_app ins order k :
  any_errors ins (order ++ [k]) =
  any_errors ins order ++ [VErr (Some (input_fault (default Never (ins !! k))))].
Proof. unfold any_errors. by rewrite fmap_app. Qed.

Lemma any_pool_lookup ins st i t :
  any_pool ins st !! i = Some t ->
  (i = 0 /\ t = Plain Exit) \/
  (i = 1 /\ t = any_producer ins st) \/
  (exists k w, i = S (S k) /\ a_ws st !! k = Some w /\
     t = Plain (any_watcher k (default Never (ins !! k)) w)) \/
  (i = S (S (length (a_ws st))) /\ any_closer (a_closer st) = [t]).
Proof.
  destruct i as [|[|k]]; simpl.
  - intros [= <-]. by left.
  - intros [= <-]. right. by left.
  - intros Hk. apply lookup_app_Some in Hk as [Hk|[Hge Hk]].
    + rewrite list_lookup_imap in Hk. apply fmap_Some in Hk as (w & Hw & ->).
      right. right. left. by exists k, w.
    + rewrite length_imap in Hge, Hk. right. right. right.
      destruct (a_closer st); simpl in *;
        destruct (k - length (a_ws st)) eqn:E; simplify_eq/=;
        (split; [f_equal; f_equal; lia|done]).
Qed.

Lemma any_pool_insert ins st k w w' st' :
  a_ws st !! k = Some w ->
  a_ws st' = <[k := w']> (a_ws st) -> a_phase st' = a_phase st ->
  a_closer st' = a_closer st ->
  <[S (S k) := Plain (any_watcher k (default Never (ins !! k)) w')]> (any_pool ins st) =
  any_pool ins st'.
Proof.
  intros Hw Hws Hph Hcl. pose proof (lookup_lt_Some _ _ _ Hw) as Hlt.
  unfold any_pool. rewrite Hws, Hph, Hcl, length_insert. simpl. do 2 f_equal.
  rewrite insert_app_l by (by rewrite length_imap). f_equal.
  apply list_eq. intros i.
  rewrite list_lookup_insert, !list_lookup_imap, length_imap, list_lookup_insert.
  case_decide as Hc; [|done]. by destruct Hc as [<- ?].
Qed.

Lemma any_pool_quiet ins st : Forall quiet (any_pool ins st).
Proof.
  unfold any_pool. apply Forall_app_2; [repeat constructor|apply Forall_app_2].
  - unfold quiet. destruct (a_phase st) as [[|]| | |v [f|]|v [f|]|v e|v e]; try done.
    simpl. unfold any_loop. destruct (seq _ _); simpl; done.
  - apply Forall_lookup. intros i t. rewrite list_lookup_imap.
    intros Hi. apply fmap_Some in Hi as (w & _ & ->).
    destruct w; try done. simpl. unfold quiet. simpl.
    by destruct (input_result _).2.
  - destruct (a_closer st); repeat constructor.
Qed.

Lemma any_watcher_step ins st k x w :
  ins !! k = Some x -> a_ws st !! k = Some w -> any_wf ins st ->
  thread_step (mem (any_config ins st)) (Plain (any_watcher k x w)) =
    if finished w then []
    else if negb (is_settled x) then []
    else [(mem (any_config ins (any_wstep ins st k w)),
           Plain (any_watcher k x (wnext w)), [])].
Proof.
  intros Hk Hw Hwf. pose proof (lookup_lt_Some _ _ _ Hw) as Hlt.
  destruct st as [ws ph cl b ord]. simpl in Hw, Hlt.
  destruct (is_settled x) eqn:Hx; simpl negb; cbv iota.
  2: { rewrite (aw_never _ _ Hwf _ _ _ Hk Hw Hx). simpl. unfold recv_step. simpl.
       rewrite (lookup_input_cells _ _ _ _ _ Hk). by destruct x. }
  assert (total active ws <> 0 -> is_closed cl = false) as Hopen.
  { intros Hne. destruct cl; try done. destruct (aw_closing _ _ Hwf); [by right|done]. }
  unfold any_wstep. rewrite Hk. cbn [default a_ws a_phase a_closer a_buf a_order].
  destruct w; simpl finished; cbv iota.
  - (* Await: the receive from done *)
    simpl. unfold recv_step. simpl. rewrite (lookup_input_cells _ _ _ _ _ Hk).
    unfold awaited_at. rewrite Hw. simpl.
    assert (p_done (input_cell x false) = Chan [VBool true] 1 false) as ->
      by (by destruct x).
    simpl. apply step_eq; simpl.
    + by apply (input_cells_await ins ws k x).
    + done.
    + by rewrite (total_same active ws k W0 W1).
    + done.
  - (* the read of the promise *)
    simpl. rewrite (lookup_input_cells _ _ _ _ _ Hk).
    unfold awaited_at. rewrite Hw.
    pose proof (input_cells_same ins ws k W1 W2 Hw eq_refl) as Hc.
    pose proof (total_same active ws k W1 W2 Hw eq_refl) as Ht.
    destruct x as [v|f|]; [| |done]; simpl; apply step_eq; simpl; congruence.
  - (* the delivery *)
    assert (is_closed cl = false) as Hcl.
    { apply Hopen. pose proof (total_active_pos ws k W2 Hw eq_refl). lia. }
    destruct x as [v|f|]; [| |done].
    + simpl. unfold send_step. simpl. unfold chan_send. simpl. rewrite Hcl.
      destruct b as [|v0 b]; simpl.
      * apply step_eq; simpl.
        -- by rewrite (input_cells_same ins ws k W2 W3).
        -- done.
        -- by rewrite (total_same active ws k W2 W3).
        -- done.
      * assert (b = []) as ->.
        { destruct (aw_buf _ _ Hwf) as [Hl _]. simpl in Hl. destruct b; [done|simpl in Hl; lia]. }
        simpl. apply step_eq; simpl.
        -- by rewrite (input_cells_same ins ws k W2 W3).
        -- done.
        -- by rewrite (total_same active ws k W2 W3).
        -- done.
    + simpl. apply step_eq; simpl.
      * by rewrite (input_cells_same ins ws k W2 W3).
      * done.
      * by rewrite (total_same active ws k W2 W3).
      * by rewrite any_errors_app, Hk.
  - (* wg.Done() *)
    simpl. pose proof (total_insert active ws k W3 W4 Hw) as Ht. simpl in Ht.
    replace (total active ws + pending_add ph)
      with (S (total active (<[k:=W4]> ws) + pending_add ph)) by lia.
    apply step_eq; simpl.
    + by rewrite (input_cells_same ins ws k W3 W4).
    + done.
    + done.
    + done.
  - done.
Qed.

Lemma alter_qcell f ins ws q :
  alter f (length ins) (input_cells ins ws ++ [q]) = input_cells ins ws ++ [f q].
Proof. rewrite <- (length_input_cells ins ws). apply alter_last. Qed.

Lemma lookup_qcell ins ws q : (input_cells ins ws ++ [q]) !! length ins = Some q.
Proof. rewrite <- (length_input_cells ins ws). apply lookup_last. Qed.

Lemma any_producer_step ins st :
  any_wf ins st ->
  thread_step (mem (any_config ins st)) (any_producer ins st) =
    match any_pstep ins st with
    | Some st' => [(mem (any_config ins st'), any_producer ins st', any_spawn ins st)]
    | None => []
    end.
Proof.
  intros Hwf. destruct st as [ws ph cl b ord].
  unfold any_producer, any_pstep, any_spawn, with_phase.
  cbn [a_ws a_phase a_closer a_buf a_order].
  destruct ph as [[|]| | |v [f|]|v [f|]|v [f|]|v e].
  - (* go *)
    simpl. rewrite length_app, input_cells_app, total_app. simpl.
    by rewrite !Nat.add_0_r, !Nat.add_1_r.
  - (* wg.Add(1), or the end of the loop *)
    case_decide as Hlt.
    + simpl. rewrite any_loop_next by done. simpl. unfold set_wgs. simpl.
      by rewrite Nat.add_0_r.
    + pose proof (aw_len _ _ Hwf) as Hle. simpl in Hle.
      assert (length ws = length ins) as -> by lia.
      assert (cl = CIdle) as -> by (by apply (aw_closer _ _ Hwf)).
      simpl. by rewrite any_loop_end.
  - (* the receive from result *)
    simpl. unfold recv_step. simpl. unfold chan_recv. simpl.
    destruct b as [|v b]; [|done]. destruct (is_closed cl) eqn:E; simpl; [|done].
    by rewrite E.
  - done.
  - simpl. unfold update_cell. simpl. by rewrite alter_qcell.
  - simpl. unfold update_cell. simpl. by rewrite alter_qcell.
  - simpl. unfold publish. simpl. rewrite lookup_qcell. simpl. by rewrite alter_qcell.
  - simpl. unfold publish. simpl. rewrite lookup_qcell. simpl. by rewrite alter_qcell.
  - simpl. unfold publish. simpl. rewrite lookup_qcell. simpl. by rewrite alter_qcell.
  - simpl. unfold publish. simpl. rewrite lookup_qcell. simpl. by rewrite alter_qcell.
  - done.
Qed.

Lemma any_closer_step ins st t :
  any_closer (a_closer st) = [t] ->
  thread_step (mem (any_config ins st)) t =
    match any_cstep st with
    | Some st' => (fun t' => (mem (any_config ins st'), t', [])) <$> any_closer (a_closer st')
    | None => []
    end.
Proof.
  destruct st as [ws ph cl b ord]. unfold any_cstep, with_closer.
  cbn [a_ws a_phase a_closer a_buf a_order].
  destruct cl; intros [= <-].
  - simpl. destruct (total active ws + pending_add ph) eqn:E; simpl; [|done].
    by rewrite E.
  - done.
  - done.
Qed.

Lemma any_pool_closer ins st st' t' :
  any_closer (a_closer st) <> [] -> any_closer (a_closer st') = [t'] ->
  a_ws st' = a_ws st -> a_phase st' = a_phase st ->
  <[S (S (length (a_ws st))) := t']> (any_pool ins st) = any_pool ins st'.
Proof.
  intros Hne Hc Hws Hph. unfold any_pool. rewrite Hws, Hph, Hc. simpl. do 2 f_equal.
  rewrite insert_app_r_alt by (by rewrite length_imap).
  rewrite length_imap, Nat.sub_diag. f_equal. by destruct (a_closer st).
Qed.

Lemma held_fault_rejecting ph f : held_fault ph = Some f -> rejecting ph = true.
Proof. by destruct ph as [| | |v [?|]|v [?|]|v [?|]|v [?|]]. Qed.

Lemma any_wstep_wf ins st k x w :
  any_wf ins st -> ins !! k = Some x -> a_ws st !! k = Some w ->
  finished w = false -> is_settled x = true ->
  any_wf ins (any_wstep ins st k w) /\
  any_measure ins (any_wstep ins st k w) < any_measure ins st.
Proof.
  intros Hwf Hk Hw Hf Hx. pose proof (lookup_lt_Some _ _ _ Hw) as Hlt.
  destruct st as [ws ph cl b ord]. destruct Hwf as [H1 H2 H3 H4 H5 H6 H7 H8 H9 H10 H11 H12].
  cbn [a_ws a_phase a_closer a_buf a_order] in *.
  assert (0 < total active ws) as Hact.
  { apply (total_active_pos ws k w Hw). by destruct w. }
  assert (~ (cl = CClose \/ cl = CDone)) as Hcl by (intros Hc; specialize (H6 Hc); lia).
  assert (rejecting ph = false) as Hrej.
  { destruct (rejecting ph); [|done]. destruct H11 as (_ & ? & _); [done|lia]. }
  assert (forall i x' w', ins !! i = Some x' -> <[k := wnext w]> ws !! i = Some w' ->
            is_settled x' = false -> w' = W0) as H5'.
  { intros i x' w' Hi Hw' Hx'.
    apply list_lookup_insert_Some in Hw' as [(-> & <- & _)|[? Hw']]; [congruence|eauto]. }
  assert (forall f, held_fault ph = Some f -> False) as Hnf.
  { intros f Hhf. apply held_fault_rejecting in Hhf. congruence. }
  assert (total remaining (<[k := wnext w]> ws) < total remaining ws) as Hrem.
  { pose proof (total_insert remaining ws k w (wnext w) Hw).
    assert (remaining (wnext w) < remaining w) by (destruct w; simpl; done || lia). lia. }
  assert (w <> W2 -> forall i, recorded_at (<[k := wnext w]> ws) i = recorded_at ws i) as Hrec.
  { intros Hne i. apply (recorded_at_same ws k w); [done|]. by destruct w. }
  unfold any_wstep, any_measure. rewrite Hk.
  cbn [default a_ws a_phase a_closer a_buf a_order].
  assert (w = W2 \/ w <> W2) as [->|Hne] by (destruct w; auto).
  2: { assert (forall y z, match w, x with
                           | W2, Ok v => y v
                           | W2, Failed _ => z
                           | _, _ => AnyState (<[k := wnext w]> ws) ph cl b ord
                           end = AnyState (<[k := wnext w]> ws) ph cl b ord) as Hm
         by (intros; by destruct w).
       rewrite !Hm. cbn [a_ws a_phase a_closer a_buf a_order]. split.
       - constructor; cbn [a_ws a_phase a_closer a_buf a_order];
           rewrite ?length_insert; try done.
         + intros k' v'. rewrite Hrec by done. apply H8.
         + split; [apply H9|]. intros k'. rewrite Hrec by done. apply H9.
         + congruence.
       - rewrite length_insert. lia. }
  assert (forall i, recorded_at (<[k := W3]> ws) i =
            if decide (i = k) then true else recorded_at ws i) as Hrec3.
  { intros i. by rewrite recorded_at_insert. }
  assert (recorded_at ws k = false) as Hnr by (unfold recorded_at; by rewrite Hw).
  simpl wnext in *. destruct x as [v|f|]; [| |done].
  - (* a value is offered to result *)
    unfold id. cbn [a_ws a_phase a_closer a_buf a_order].
    split; [|rewrite length_insert; lia].
    constructor; cbn [a_ws a_phase a_closer a_buf a_order];
      rewrite ?length_insert; try done.
    + destruct H7 as [Hl Hall]. destruct b as [|v0 b]; [|done]. split; [simpl; lia|].
      constructor; [by exists k|done].
    + intros k' v' Hk' _. left. by destruct b.
    + split; [apply H9|]. intros k'. rewrite Hrec3. case_decide as Hkk.
      * subst k'. split.
        -- intros Hin. apply H9 in Hin as [[f Hf'] _]. congruence.
        -- intros [[f Hf'] _]. congruence.
      * apply H9.
    + congruence.
  - (* a fault is appended to errors *)
    unfold id. cbn [a_ws a_phase a_closer a_buf a_order].
    split; [|rewrite length_insert; lia].
    assert (k ∉ ord) as Hnin.
    { intros Hin. apply H9 in Hin as [_ Hr]. congruence. }
    constructor; cbn [a_ws a_phase a_closer a_buf a_order];
      rewrite ?length_insert; try done.
    + intros k' v' Hk' Hr. rewrite Hrec3 in Hr. case_decide as Hkk; [congruence|].
      by apply (H8 k' v').
    + split.
      * apply NoDup_app. split_and!; [apply H9| |apply NoDup_singleton].
        intros i Hi ->%list_elem_of_singleton. done.
      * intros k'. rewrite elem_of_app, list_elem_of_singleton, Hrec3.
        case_decide as Hkk.
        -- subst k'. split; [intros _; split; [by exists f|done]|by right].
        -- split.
           ++ intros [Hin|?]; [by apply H9|done].
           ++ intros Hin. left. by apply H9.
    + congruence.
    + intros f' Hhf. by destruct (Hnf f').
Qed.

Lemma any_wf_phase ins st ph' :
  any_wf ins st ->
  in_loop ph' = in_loop (a_phase st) -> held_value ph' = held_value (a_phase st) ->
  held_fault ph' = held_fault (a_phase st) -> rejecting ph' = rejecting (a_phase st) ->
  (ph' = ALoop true -> length (a_ws st) < length ins) ->
  any_wf ins (with_phase st ph').
Proof.
  intros [H1 H2 H3 H4 H5 H6 H7 H8 H9 H10 H11 H12] Hl Hv Hf Hr Ha.
  constructor; cbn [with_phase a_ws a_phase a_closer a_buf a_order];
    rewrite ?Hl, ?Hv, ?Hf, ?Hr; done.
Qed.

Lemma any_wf_closer ins st c' :
  any_wf ins st -> a_closer st <> CIdle -> c' <> CIdle ->
  (c' = CClose \/ c' = CDone -> total active (a_ws st) = 0) ->
  any_wf ins (with_closer st c').
Proof.
  intros [H1 H2 H3 H4 H5 H6 H7 H8 H9 H10 H11 H12] Hc Hc' Hz.
  constructor; cbn [with_closer a_ws a_phase a_closer a_buf a_order]; try done.
  split; [|done]. intros Hl. by apply H3 in Hl.
Qed.

Lemma any_cstep_wf ins st st' :
  any_wf ins st -> any_cstep st = Some st' ->
  any_wf ins st' /\ any_measure ins st' < any_measure ins st /\
  a_ws st' = a_ws st /\ a_phase st' = a_phase st /\
  any_closer (a_closer st) <> [] /\ any_closer (a_closer st') <> [].
Proof.
  intros Hwf Hs. unfold any_cstep in Hs.
  destruct (a_closer st) eqn:Hc; try done.
  - destruct (Nat.eqb_spec (total active (a_ws st) + pending_add (a_phase st)) 0)
      as [Hz|]; [|done].
    injection Hs as <-. split_and!; try done.
    + apply any_wf_closer; [done|congruence|done|lia].
    + unfold any_measure. simpl. rewrite Hc. simpl. lia.
  - injection Hs as <-. split_and!; try done.
    + apply any_wf_closer; [done|congruence|done|].
      intros _. apply (aw_closing _ _ Hwf). by left.
    + unfold any_measure. simpl. rewrite Hc. simpl. lia.
Qed.


Lemma any_drained ins st :
  any_wf ins st -> a_phase st = ARecv -> a_buf st = [] -> a_closer st = CDone ->
  all_failed ins.
Proof.
  intros Hwf Hph Hb Hc. apply Forall_lookup. intros k x Hk.
  assert (total active (a_ws st) = 0) as Hz by (apply (aw_closing _ _ Hwf); by right).
  assert (length (a_ws st) = length ins) as Hn
    by (apply (aw_full _ _ Hwf); by rewrite Hph).
  apply total_active_zero in Hz.
  assert (a_ws st !! k = Some W4) as Hw.
  { rewrite Hz, Hn. apply lookup_replicate_2. by eapply lookup_lt_Some. }
  destruct x as [v|f|].
  - destruct (aw_sent _ _ Hwf k v Hk) as [?|Hh]; [|done|].
    + unfold recorded_at. by rewrite Hw.
    + rewrite Hph in Hh. by destruct Hh.
  - by exists f.
  - by pose proof (aw_never _ _ Hwf _ _ _ Hk Hw eq_refl).
Qed.

Lemma any_pstep_wf ins st st' :
  any_wf ins st -> any_pstep ins st = Some st' ->
  any_wf ins st' /\ any_measure ins st' < any_measure ins st.
Proof.
  intros Hwf Hs. unfold any_pstep in Hs.
  destruct st as [ws ph cl b ord]. cbn [a_ws a_phase a_closer a_buf a_order] in Hs.
  destruct ph as [[|]| | |v e|v e|v e|v e].
  - (* go *)
    injection Hs as <-. destruct Hwf as [H1 H2 H3 H4 H5 H6 H7 H8 H9 H10 H11 H12].
    cbn [a_ws a_phase a_closer a_buf a_order] in *.
    specialize (H2 eq_refl). assert (cl = CIdle) as -> by (by apply H3).
    split.
    + constructor; cbn [a_ws a_phase a_closer a_buf a_order];
        rewrite ?length_app; simpl; try done.
      * lia.
      * intros i x w Hi Hw Hx. apply lookup_app_Some in Hw as [Hw|[_ Hw]]; [eauto|].
        destruct (i - length ws); simplify_eq/=; done.
      * by intros [|].
      * intros k v. rewrite recorded_at_app by done. apply H8.
      * split; [apply H9|]. intros k. rewrite recorded_at_app by done. apply H9.
    + unfold any_measure. cbn [a_ws a_phase a_closer a_buf a_order].
      rewrite total_app, length_app. simpl. lia.
  - case_decide as Hlt; injection Hs as <-.
    + (* wg.Add(1) *)
      split; [by apply any_wf_phase|]. unfold any_measure. simpl. lia.
    + (* the closer is started *)
      destruct Hwf as [H1 H2 H3 H4 H5 H6 H7 H8 H9 H10 H11 H12].
      cbn [a_ws a_phase a_closer a_buf a_order] in *.
      assert (cl = CIdle) as -> by (by apply H3).
      split.
      * constructor; cbn [a_ws a_phase a_closer a_buf a_order]; simpl; try done.
        -- intros _. lia.
        -- by intros [|].
      * unfold any_measure. simpl. lia.
  - (* the receive *)
    destruct b as [|v b].
    + destruct (is_closed cl) eqn:Hcl; [|done]. injection Hs as <-.
      assert (cl = CDone) as -> by (by destruct cl).
      pose proof (any_drained _ _ Hwf eq_refl eq_refl eq_refl) as Hall.
      destruct Hwf as [H1 H2 H3 H4 H5 H6 H7 H8 H9 H10 H11 H12].
      cbn [a_ws a_phase a_closer a_buf a_order] in *.
      split.
      * constructor; cbn [with_phase a_ws a_phase a_closer a_buf a_order]; simpl; try done.
        intros _. split_and!; [done|apply H6; by right|by apply H4].
      * unfold any_measure. simpl. lia.
    + injection Hs as <-.
      destruct Hwf as [H1 H2 H3 H4 H5 H6 H7 H8 H9 H10 H11 H12].
      cbn [a_ws a_phase a_closer a_buf a_order] in *.
      destruct H7 as [Hl Hall]. apply Forall_cons_1 in Hall as [Hv Hall].
      split.
      * constructor; cbn [a_ws a_phase a_closer a_buf a_order]; simpl; try done.
        -- split; [simpl in Hl; lia|done].
        -- intros. right. by eexists.
        -- by intros ? [= <-].
      * unfold any_measure. simpl. lia.
  - (* the read of errors *)
    injection Hs as <-.
    destruct Hwf as [H1 H2 H3 H4 H5 H6 H7 H8 H9 H10 H11 H12].
    cbn [a_ws a_phase a_closer a_buf a_order] in *.
    destruct (H11 eq_refl) as (Hall & Hz & Hn).
    split.
    + constructor; cbn [with_phase a_ws a_phase a_closer a_buf a_order]; simpl; try done.
      by intros ? [= <-].
    + unfold any_measure. simpl. lia.
  - injection Hs as <-. split.
    + apply any_wf_phase; try done; by destruct e.
    + unfold any_measure. simpl. lia.
  - injection Hs as <-. split.
    + apply any_wf_phase; try done; by destruct e.
    + unfold any_measure. simpl. lia.
  - injection Hs as <-. split.
    + apply any_wf_phase; try done; by destruct e.
    + unfold any_measure. simpl. lia.
  - done.
Qed.

Lemma any_wstep_frame ins st k w :
  a_ws (any_wstep ins st k w) = <[k := wnext w]> (a_ws st) /\
  a_phase (any_wstep ins st k w) = a_phase st /\
  a_closer (any_wstep ins st k w) = a_closer st.
Proof. unfold any_wstep. by destruct w, (default Never (ins !! k)). Qed.

Lemma any_pool_producer ins st st' :
  any_wf ins st -> any_pstep ins st = Some st' ->
  <[1 := any_producer ins st']> (any_pool ins st) ++ any_spawn ins st = any_pool ins st'.
Proof.
  intros Hwf Hs. unfold any_pstep, any_spawn in *.
  destruct st as [ws ph cl b ord]. cbn [a_ws a_phase a_closer a_buf a_order] in *.
  assert (in_loop ph = true -> cl = CIdle) as Hcl by apply (aw_closer _ _ Hwf).
  destruct ph as [[|]| | |v e|v e|v e|v e].
  - injection Hs as <-. assert (cl = CIdle) as -> by (by apply Hcl).
    unfold any_pool, any_producer.
    cbn [a_ws a_phase a_closer a_buf a_order any_closer].
    rewrite !app_nil_r, imap_app. cbn [imap app]. rewrite Nat.add_0_r. reflexivity.
  - assert (cl = CIdle) as -> by (by apply Hcl). case_decide; injection Hs as <-.
    + unfold any_pool. simpl. by rewrite !app_nil_r.
    + unfold any_pool. simpl. by rewrite !app_nil_r.
  - destruct b as [|v b]; [destruct (is_closed cl); [|done]|];
      injection Hs as <-; unfold any_pool; simpl; by rewrite app_nil_r.
  - injection Hs as <-. unfold any_pool. simpl. by rewrite app_nil_r.
  - injection Hs as <-. unfold any_pool. simpl. by rewrite app_nil_r.
  - injection Hs as <-. unfold any_pool. simpl. by rewrite app_nil_r.
  - injection Hs as <-. unfold any_pool. simpl. by rewrite app_nil_r.
  - done.
Qed.

Lemma any_step ins st c' :
  any_wf ins st -> c' ∈ step (any_config ins st) ->
  exists st', any_wf ins st' /\ c' = any_config ins st' /\
    any_measure ins st' < any_measure ins st.
Proof.
  intros Hwf Hin.
  apply step_cases in Hin as (i & t & h' & t' & sp & Hi & Hts & ->);
    [|apply any_pool_quiet].
  change (now (any_config ins st)) with 0.
  change (pool (any_config ins st)) with (any_pool ins st) in *.
  apply any_pool_lookup in Hi
    as [(-> & ->)|[(-> & ->)|[(k & w & -> & Hw & ->)|(-> & Hc)]]].
  - by apply elem_of_nil in Hts.
  - rewrite any_producer_step in Hts by done.
    destruct (any_pstep ins st) as [st'|] eqn:Hs; [|by apply elem_of_nil in Hts].
    apply list_elem_of_singleton in Hts as [= -> -> ->].
    destruct (any_pstep_wf _ _ _ Hwf Hs) as [Hwf' Hm].
    exists st'. split_and!; [done| |done].
    unfold any_config. cbn [mem]. f_equal. by apply any_pool_producer.
  - pose proof (lookup_lt_Some _ _ _ Hw) as Hk.
    pose proof (aw_len _ _ Hwf) as Hle.
    destruct (lookup_lt_is_Some_2 ins k) as [x Hx]; [lia|].
    rewrite Hx in Hts. cbn [default] in Hts. unfold id in Hts.
    rewrite (any_watcher_step ins st k x w Hx Hw Hwf) in Hts.
    destruct (finished w) eqn:Hf; [by apply elem_of_nil in Hts|].
    destruct (is_settled x) eqn:Hsx; [|by apply elem_of_nil in Hts]. simpl in Hts.
    apply list_elem_of_singleton in Hts as [= -> -> ->].
    destruct (any_wstep_wf _ _ _ _ _ Hwf Hx Hw Hf Hsx) as [Hwf' Hm].
    destruct (any_wstep_frame ins st k w) as (Hws & Hph & Hcl).
    exists (any_wstep ins st k w). split_and!; [done| |done].
    unfold any_config. cbn [mem]. f_equal. rewrite app_nil_r.
    rewrite <- (any_pool_insert ins st k w (wnext w) _ Hw Hws Hph Hcl).
    by rewrite Hx.
  - rewrite (any_closer_step ins st t Hc) in Hts.
    destruct (any_cstep st) as [st'|] eqn:Hs; [|by apply elem_of_nil in Hts].
    destruct (any_cstep_wf _ _ _ Hwf Hs) as (Hwf' & Hm & Hws & Hph & Hne & Hne').
    apply list_elem_of_fmap in Hts as (t0 & [= -> -> ->] & Ht0).
    exists st'. split_and!; [done| |done].
    unfold any_config. cbn [mem]. f_equal. rewrite app_nil_r.
    apply any_pool_closer; try done.
    destruct (a_closer st'); try done; by apply list_elem_of_singleton in Ht0 as ->.
Qed.

Lemma any_run (P Q : config -> Prop) ins :
  (forall st, any_wf ins st -> P (any_config ins st)) ->
  (forall st, any_wf ins st -> step (any_config ins st) = [] -> Q (any_config ins st)) ->
  forall st, any_wf ins st -> run P Q (any_config ins st).
Proof.
  intros HP HQ st. remember (any_measure ins st) as m eqn:Hm.
  revert st Hm. induction (lt_wf m) as [m _ IH]. intros st -> Hwf.
  destruct (step (any_config ins st)) as [|c1 l] eqn:E.
  - apply run_end; auto.
  - apply run_step; [auto|by rewrite E|]. intros c' Hin.
    destruct (any_step ins st c' Hwf Hin) as (st' & Hwf' & -> & Hlt).
    by eapply IH.
Qed.

Lemma any_pool_watcher ins st k w :
  a_ws st !! k = Some w ->
  any_pool ins st !! S (S k) = Some (Plain (any_watcher k (default Never (ins !! k)) w)).
Proof.
  intros Hw. unfold any_pool. simpl. rewrite lookup_app_l.
  - by rewrite list_lookup_imap, Hw.
  - rewrite length_imap. by eapply lookup_lt_Some.
Qed.











Lemma any_start_wf ins : any_wf ins (AnyState [] (ALoop false) CIdle [] []).
Proof.
  constructor; simpl; try done.
  - lia.
  - split; [lia|constructor].
  - split; [apply NoDup_nil_2|]. intros k. split; [by intros ?%elem_of_nil|by intros [_ ?]].
Qed.

Lemma input_cells_nil ins : input_cells ins [] = (fun x => input_cell x false) <$> ins.
Proof. unfold input_cells. rewrite <- imap_const. by apply imap_ext. Qed.











(** ** One producer, one observer *)

(** X1: the promise of an executor that returns (v, e), awaited once.  Every
    execution ends with Await returned: (v, nil) when e is nil, and
    (zero, e) otherwise, the value that came with the error being dropped;
    the promise is settled accordingly.  Await returns nothing else on the
    way. *)
Theorem await_returns_executor_outcome (v : val) (e : error) :
  halts (start (await_once v e)) /\
  forall c, steps (start (await_once v e)) c ->
    (returned c 0 = None \/ returned c 0 = Some (await_result v e)) /\
    (terminal c ->
       returned c 0 = Some (await_result v e) /\
       outcome_of c 0 = Some (settled_as (await_result v e))).
Proof. apply run_all. destruct e as [f|]; walk_run by_cases by_parts. Qed.

(** X2: Reject(err) makes a promise that is Rejected from the start:
    IsRejected reports true at once, and the first Await returns
    (zero, err), whatever err is, nil included. *)
Theorem reject_is_rejected_at_birth (e : error) :
  halts (start (reject_await e)) /\
  forall c, steps (start (reject_await e)) c -> terminal c ->
    outcome_of c 0 = Some (Rejected, VZero, e) /\
    returned c 0 = Some (VSlice [VBool true; VZero], e).
Proof. apply run_last. walk_run trivially by_parts. Qed.

(** X3: a promise rejected with the nil error (Reject(nil)) is Rejected, but
    the combinators test [err != nil] on what Await returns: All fulfills
    with the zero value in its place, AllSettled records it as fulfilled,
    and Race and Any fulfill with the zero value. *)
Theorem nil_rejection_counts_as_fulfilled :
  (forall c, steps (start (reject_nil_into All)) c -> terminal c ->
     outcome_of c 0 = Some (Rejected, VZero, None) /\
     returned c 0 = Some (VSlice [VZero], None)) /\
  (forall c, steps (start (reject_nil_into AllSettled)) c -> terminal c ->
     outcome_of c 0 = Some (Rejected, VZero, None) /\
     returned c 0 = Some (VSlice [VResult "fulfilled" VZero None], None)) /\
  (forall c, steps (start (reject_nil_into Race)) c -> terminal c ->
     outcome_of c 0 = Some (Rejected, VZero, None) /\
     returned c 0 = Some (VZero, None)) /\
  (forall c, steps (start (reject_nil_into Any)) c -> terminal c ->
     outcome_of c 0 = Some (Rejected, VZero, None) /\
     returned c 0 = Some (VZero, None)).
Proof.
  split_and!.
  all: apply run_last; walk_run trivially by_parts.
Qed.

(** X18: after Await has returned on the promise of an executor, the state
    is terminal and agrees with what Await returned: IsPending is false,
    IsFulfilled is true exactly when the error is nil and IsRejected exactly
    when it is not. *)
Theorem state_agrees_with_await (v : val) (e : error) :
  halts (start (await_then_inspect v e)) /\
  forall c, steps (start (await_then_inspect v e)) c -> terminal c ->
    returned c 0 =
      Some (VSlice [VBool false; VBool (is_nil e); VBool (negb (is_nil e))], e).
Proof. apply run_last. destruct e as [f|]; walk_run trivially by_parts. Qed.

(** ** Then, Catch, ThenPromise and Finally *)

(** X4: Then(p, onFulfilled, onRejected) on the promise of an executor that
    returns (v, e), as the only reader of p's channels.  Every execution
    ends with the derived promise settled: Fulfilled with onFulfilled(v)
    (the zero value when onFulfilled is nil) if p fulfilled; if p rejected,
    Fulfilled with onRejected(e), or Rejected with e when onRejected is
    nil. *)
Theorem then_maps_the_outcome (v : val) (e : error)
    (onFulfilled : option (val -> val)) (onRejected : option (error -> val)) :
  halts (start (then_once v e onFulfilled onRejected)) /\
  forall c, steps (start (then_once v e onFulfilled onRejected)) c -> terminal c ->
    returned c 0 = Some (Then_result v e onFulfilled onRejected) /\
    outcome_of c 1 = Some (settled_as (Then_result v e onFulfilled onRejected)).
Proof.
  apply run_last. destruct e as [f|], onFulfilled as [g|], onRejected as [h|].
  all: walk_run trivially by_parts.
Qed.

(** X5: Catch(p, onRejected), as the only reader of p's channels, passes a
    fulfilled value through; on a rejection it fulfills with
    onRejected(e), or rejects with e when onRejected is nil. *)
Theorem catch_recovers_or_passes_through (v : val) (e : error)
    (onRejected : option (error -> val)) :
  halts (start (catch_once v e onRejected)) /\
  forall c, steps (start (catch_once v e onRejected)) c -> terminal c ->
    returned c 0 = Some (Catch_result v e onRejected) /\
    outcome_of c 1 = Some (settled_as (Catch_result v e onRejected)).
Proof.
  apply run_last. destruct e as [f|], onRejected as [h|].
  all: walk_run trivially by_parts.
Qed.

(** X6: Then reads [p.result] / [p.err] and Await reads [p.done]: one Then
    and one Await on the same promise do not disturb each other.  The
    observer gets p's outcome from Await and the mapped outcome from the
    derived promise, in every execution. *)
Theorem then_leaves_await_alone (v : val) (e : error)
    (onFulfilled : option (val -> val)) (onRejected : option (error -> val)) :
  halts (start (then_and_await v e onFulfilled onRejected)) /\
  forall c, steps (start (then_and_await v e onFulfilled onRejected)) c -> terminal c ->
    returned c 0 =
      Some (VSlice [fst (await_result v e); VErr (snd (await_result v e));
                    fst (Then_result v e onFulfilled onRejected)],
            snd (Then_result v e onFulfilled onRejected)).
Proof.
  apply run_last. destruct e as [f|], onFulfilled as [g|], onRejected as [h|].
  all: walk_run trivially by_parts.
Qed.

(** X19: chains compose, when each link is the only reader of the [result]
    and [err] channels of the promise before it.  For p the promise of an
    executor that returns (v, e): Then(Then(p, f, nil), g, nil) fulfills
    with g(f(v)) when p fulfills with v; when p rejects with e, the fault
    goes through both links untouched, neither f nor g being applied, and
    the chain rejects with e, unless a Catch with a handler h ends it, which
    then fulfills with h(e). *)
Theorem then_chains_compose (v : val) (e : error) (f g : val -> val)
    (recover : option (error -> val)) :
  halts (start (then_chain v e f g recover)) /\
  forall c, steps (start (then_chain v e f g recover)) c -> terminal c ->
    returned c 0 = Some (then_chain_result v e f g recover).
Proof.
  apply run_last. destruct e as [e1|], recover as [h|].
  all: walk_run trivially by_parts.
Qed.

(** X7: ThenPromise(p, onFulfilled) flattens, for p the promise of an
    executor that returns (v, e), with ThenPromise as its only awaiter, and
    a callback that returns the promise of a new executor (returning
    (f x, e2)), which nobody else awaits.  If p rejects with e, the derived
    promise rejects with e and the callback is not called (no third promise
    is made); if p fulfills with v, it settles like the promise the callback
    returns for v.  With a nil callback it fulfills with the zero value, or
    rejects with e. *)
Theorem then_promise_flattens (v : val) (e : error) (f : val -> val) (e2 : error) :
  (halts (start (then_promise v e f e2)) /\
   forall c, steps (start (then_promise v e f e2)) c -> terminal c ->
     returned c 0 = Some (ThenPromise_result v e f e2) /\
     outcome_of c 1 = Some (settled_as (ThenPromise_result v e f e2)) /\
     length (cells (mem c)) = match e with None => 3 | Some _ => 2 end) /\
  (halts (start (then_promise_nil v e)) /\
   forall c, steps (start (then_promise_nil v e)) c -> terminal c ->
     returned c 0 = Some (VZero, e)).
Proof.
  split; apply run_last.
  - destruct e as [f1|], e2 as [f2|]; walk_run trivially by_parts.
  - destruct e as [f1|]; walk_run trivially by_parts.
Qed.

(** X8: Finally(p, onFinally), for p the promise of an executor that
    returns (v, e), with Finally as its only awaiter, settles like p, after
    the callback has run, once: as soon as the derived promise is settled
    (or its observer served) the log holds the callback's mark, exactly
    one.  With a nil callback it just settles like p. *)
Theorem finally_runs_once_and_passes_through (v : val) (e : error) (mark : val) :
  (halts (start (finally_logs v e mark)) /\
   forall c, steps (start (finally_logs v e mark)) c ->
     (log_of c = Some [mark] \/ unsettled c 1 /\ returned c 0 = None) /\
     (terminal c ->
        log_of c = Some [mark] /\
        returned c 0 = Some (await_result v e) /\
        outcome_of c 1 = Some (settled_as (await_result v e)))) /\
  (halts (start (finally_nil v e)) /\
   forall c, steps (start (finally_nil v e)) c -> terminal c ->
     returned c 0 = Some (await_result v e) /\
     outcome_of c 1 = Some (settled_as (await_result v e))).
Proof.
  split.
  - apply run_all.
    destruct e as [f|];
      walk_run ltac:(first [left; reflexivity|right; by_parts]) by_parts.
  - apply run_last. destruct e as [f|]; walk_run trivially by_parts.
Qed.

(** X9: a callback of Finally that panics does not kill the process: the
    panic is recovered by the goroutine of the derived promise, which
    rejects with [panic: r] even when p fulfilled; p itself keeps its
    outcome. *)
Theorem finally_panic_rejects (v : val) (e : error) (r : string) :
  halts (start (finally_panics v e r)) /\
  forall c, steps (start (finally_panics v e r)) c ->
    crashed c = false /\
    (terminal c ->
       returned c 0 = Some (VZero, Some (PanicFault r)) /\
       outcome_of c 0 = Some (settled_as (await_result v e)) /\
       outcome_of c 1 = Some (Rejected, VZero, Some (PanicFault r))).
Proof. apply run_all. destruct e as [f|]; walk_run by_parts by_parts. Qed.

(** ** AwaitWithContext *)

(** X10: AwaitWithContext never returns the outcome of the promise.  Its
    select takes the token of [p.done] and the call to Await that follows
    waits for a second one.  On the promise of an executor that returns
    (v, e): with a context that another goroutine cancels, the call returns
    (zero, ctx.Err()) if the cancellation wins the select and otherwise
    never returns; with [context.Background()] it never returns, although
    the promise settles.  On a promise that never settles it returns
    (zero, ctx.Err()) once the context is cancelled. *)
Theorem await_with_context_never_yields_value (v : val) (e : error) (ctxErr : fault) :
  (halts (start (await_cancelled v e (Some ctxErr))) /\
   forall c, steps (start (await_cancelled v e (Some ctxErr))) c ->
     returned c 0 = None \/ returned c 0 = Some (VZero, Some ctxErr)) /\
  (halts (start (await_background v e)) /\
   forall c, steps (start (await_background v e)) c ->
     returned c 0 = None /\
     (terminal c -> outcome_of c 0 = Some (settled_as (await_result v e)))) /\
  (halts (start (await_abandoned (Some ctxErr))) /\
   forall c, steps (start (await_abandoned (Some ctxErr))) c -> terminal c ->
     returned c 0 = Some (VZero, Some ctxErr) /\ unsettled c 0).
Proof.
  split; [|split].
  - apply run_safe. destruct e as [f|]; walk_run by_cases trivially.
  - apply run_all. destruct e as [f|]; walk_run by_parts by_parts.
  - apply run_last. walk_run trivially by_parts.
Qed.

(** ** The same promise twice *)

(** X11: All and AllSettled start one goroutine per argument, each of which
    awaits its promise; when a promise is given twice, one of the two
    goroutines finds [p.done] empty and never calls [wg.Done()]: the derived
    promise stays unsettled for ever. *)
Theorem join_of_duplicates_never_settles (v : val) (e : error) :
  (halts (start (twice_into v e All)) /\
   forall c, steps (start (twice_into v e All)) c -> unsettled c 1) /\
  (halts (start (twice_into v e AllSettled)) /\
   forall c, steps (start (twice_into v e AllSettled)) c -> unsettled c 1).
Proof.
  split; apply run_safe.
  all: destruct e as [f|]; walk_run by_parts trivially.
Qed.

(** ** Sleep *)

Lemma sleeping_run v d clock :
  run (not_before (clock + d)) (woken_at (clock + d) v) (sleeping v d clock).
Proof.
  revert clock. induction d as [|d IH]; intros clock.
  - rewrite Nat.add_0_r. reach_run 20.
    all: split; [split; [simpl; lia|simpl; lia]|intros T; try not_terminal T].
    all: split_and!; reflexivity.
  - apply run_step.
    + split; [simpl; lia|]. intros _. by split.
    + by vm_compute.
    + intros c' Hin. vm_compute in Hin. apply list_elem_of_singleton in Hin as ->.
      replace (clock + S d) with (S clock + d) by lia. apply IH.
Qed.

Lemma sleep_await_run d v :
  run (not_before d) (woken_at d v) (start (sleep_await d v)).
Proof.
  eapply run_det; [reflexivity| |apply (sleeping_run v d 0)].
  split; [simpl; lia|]. intros _. by split.
Qed.

(** X12: Sleep(d, v), for every duration d: the promise is unsettled, and
    its observer waits, as long as the clock is below d; every execution
    ends at time d exactly, with the promise Fulfilled with v and Await
    returned (v, nil).  Delay(d) is the same with the nil value. *)
Theorem sleep_wakes_on_time (d : nat) (v : val) :
  halts (start (sleep_await d v)) /\
  (forall c, steps (start (sleep_await d v)) c ->
     now c <= d /\
     (now c < d -> unsettled c 0 /\ returned c 0 = None) /\
     (terminal c ->
        now c = d /\ returned c 0 = Some (v, None) /\
        outcome_of c 0 = Some (Fulfilled, v, None))) /\
  (forall c, steps (start (Delay d (fun p => Await p (fun x e => Return x e)))) c ->
     terminal c -> now c = d /\ returned c 0 = Some (VZero, None)).
Proof.
  pose proof (sleep_await_run d v) as Hr. split_and!.
  - by eapply run_halts.
  - intros c Hs. destruct (run_always _ _ _ Hr c Hs) as [Hle Hlt].
    split_and!; [done|done|]. intros T. by apply (run_ends _ _ _ Hr c Hs T).
  - intros c Hs T.
    destruct (run_ends _ _ _ (sleep_await_run d VZero) c Hs T) as (Hn & Hret & _).
    done.
Qed.

(** ** Race *)

Lemma race_pool_lookup ins st i t :
  race_pool ins st !! i = Some t ->
  (i = 0 /\ t = Plain Exit) \/
  (i = 1 /\ t = race_producer ins st) \/
  (exists k w, i = S (S k) /\ r_ws st !! k = Some w /\
     t = Plain (race_watcher k (default Never (ins !! k)) w)).
Proof.
  destruct i as [|[|k]]; simpl.
  - intros [= <-]. by left.
  - intros [= <-]. right. by left.
  - rewrite list_lookup_imap. intros Hk. apply fmap_Some in Hk as (w & Hw & ->).
    right. right. by exists k, w.
Qed.

Lemma race_pool_watcher ins st k w :
  r_ws st !! k = Some w ->
  race_pool ins st !! S (S k) = Some (Plain (race_watcher k (default Never (ins !! k)) w)).
Proof. intros Hw. unfold race_pool. simpl. by rewrite list_lookup_imap, Hw. Qed.

Lemma race_pool_insert ins st k w' st' :
  r_ws st' = <[k := w']> (r_ws st) -> r_phase st' = r_phase st ->
  <[S (S k) := Plain (race_watcher k (default Never (ins !! k)) w')]> (race_pool ins st) =
  race_pool ins st'.
Proof.
  intros Hws Hph. unfold race_pool, race_producer. rewrite Hws, Hph, length_insert.
  simpl. do 2 f_equal. apply list_eq. intros i.
  rewrite list_lookup_insert, !list_lookup_imap, length_imap, list_lookup_insert.
  case_decide as Hc; [|done]. by destruct Hc as [<- ?].
Qed.

Lemma race_pool_quiet ins st : Forall quiet (race_pool ins st).
Proof.
  unfold race_pool. apply Forall_app_2; [repeat constructor|].
  - unfold quiet, race_producer, race_stage. destruct (running (r_phase st)) eqn:Hr.
    + simpl. unfold race_loop. destruct (seq _ _); simpl; done.
    + by destruct (r_phase st) as [a| | |v [f|]|v [f|]|v e|v e].
  - apply Forall_lookup. intros i t. rewrite list_lookup_imap.
    intros Hi. apply fmap_Some in Hi as (w & _ & ->).
    destruct w; try done. simpl. unfold quiet. simpl.
    by destruct (input_result _).2.
Qed.

Lemma race_loop_next n j :
  j < n -> race_loop n j = Go (Race_watcher 0 1 j) (race_loop n (S j)).
Proof.
  intros Hj. unfold race_loop. by replace (n - j) with (S (n - S j)) by lia.
Qed.

Lemma race_loop_end n : race_loop n n = Race_select 0 1.
Proof. unfold race_loop. by rewrite Nat.sub_diag. Qed.

Lemma race_watcher_step ins st k x w :
  ins !! k = Some x -> r_ws st !! k = Some w -> race_wf ins st ->
  thread_step (mem (race_config ins st)) (Plain (race_watcher k x w)) =
    if finished w then []
    else if negb (is_settled x) then []
    else [(mem (race_config ins (race_wstep ins st k w)),
           Plain (race_watcher k x (race_wnext w)), [])].
Proof.
  intros Hk Hw Hwf. pose proof (lookup_lt_Some _ _ _ Hw) as Hlt.
  destruct st as [ws ph res err]. simpl in Hw, Hlt.
  destruct (is_settled x) eqn:Hx; simpl negb; cbv iota.
  2: { rewrite (rw_never _ _ Hwf _ _ _ Hk Hw Hx). simpl. unfold recv_step. simpl.
       rewrite (lookup_input_cells _ _ _ _ _ Hk). by destruct x. }
  unfold race_wstep. rewrite Hk. cbn [default r_ws r_phase r_res r_err]. unfold id.
  destruct w; simpl finished; cbv iota.
  - (* Await: the receive from done *)
    simpl. unfold recv_step. simpl. rewrite (lookup_input_cells _ _ _ _ _ Hk).
    unfold awaited_at. rewrite Hw. simpl.
    assert (p_done (input_cell x false) = Chan [VBool true] 1 false) as ->
      by (by destruct x).
    simpl. apply step_eq; simpl; try done.
    by apply (input_cells_await ins ws k x).
  - (* the read of the promise *)
    simpl. rewrite (lookup_input_cells _ _ _ _ _ Hk).
    unfold awaited_at. rewrite Hw.
    pose proof (input_cells_same ins ws k W1 W2 Hw eq_refl) as Hc.
    destruct x as [v|f|]; [| |done]; simpl; apply step_eq; simpl; congruence.
  - (* the offer *)
    pose proof (input_cells_same ins ws k W2 W4 Hw eq_refl) as Hc.
    destruct x as [v|f|]; [| |done].
    + simpl. unfold send_step. simpl. unfold chan_send. simpl.
      destruct res as [|v0 res]; simpl.
      * apply step_eq; simpl; congruence.
      * assert (res = []) as ->.
        { destruct (rw_res _ _ Hwf) as [Hl _]. simpl in Hl.
          destruct res; [done|simpl in Hl; lia]. }
        simpl. apply step_eq; simpl; congruence.
    + simpl. unfold send_step. simpl. unfold chan_send. simpl.
      destruct err as [|v0 err]; simpl.
      * apply step_eq; simpl; congruence.
      * assert (err = []) as ->.
        { destruct (rw_err _ _ Hwf) as [Hl _]. simpl in Hl.
          destruct err; [done|simpl in Hl; lia]. }
        simpl. apply step_eq; simpl; congruence.
  - by destruct (rw_no3 _ _ Hwf k).
  - done.
Qed.

Lemma running_pending ph :
  running ph = true -> any_qcell ph = new_promise Pending VZero None.
Proof. by destruct ph. Qed.

Lemma race_producer_step ins st :
  race_wf ins st ->
  thread_step (mem (race_config ins st)) (race_producer ins st) =
    (fun st' => (mem (race_config ins st'), race_producer ins st', race_spawn ins st))
      <$> race_pstep ins st.
Proof.
  intros Hwf. destruct st as [ws ph res err].
  unfold race_producer, race_pstep, race_spawn, race_phase, race_stage.
  cbn [r_ws r_phase r_res r_err].
  destruct (running ph) eqn:Hr.
  - cbn [mem race_config r_ws r_phase r_res r_err andb].
    rewrite (running_pending ph Hr). case_decide as Hlt.
    + rewrite bool_decide_eq_true_2 by done.
      rewrite race_loop_next by done. simpl.
      rewrite length_app, input_cells_app. simpl.
      by rewrite Nat.add_1_r, Hr, (running_pending ph Hr).
    + rewrite bool_decide_eq_false_2 by done.
      pose proof (rw_len _ _ Hwf) as Hle. simpl in Hle.
      assert (length ws = length ins) as -> by lia.
      rewrite race_loop_end. simpl. unfold recv_step. simpl. unfold chan_recv. simpl.
      destruct res as [|v b], err as [|x b']; simpl; done.
  - destruct ph as [a| | |v [f|]|v [f|]|v [f|]|v e]; try done; simpl.
    + unfold update_cell. simpl. by rewrite alter_qcell.
    + unfold update_cell. simpl. by rewrite alter_qcell.
    + unfold publish. simpl. rewrite lookup_qcell. simpl. by rewrite alter_qcell.
    + unfold publish. simpl. rewrite lookup_qcell. simpl. by rewrite alter_qcell.
    + unfold publish. simpl. rewrite lookup_qcell. simpl. by rewrite alter_qcell.
    + unfold publish. simpl. rewrite lookup_qcell. simpl. by rewrite alter_qcell.
Qed.

Lemma offer_nonempty b x : offer b x <> [].
Proof. by destruct b. Qed.

Lemma offer_spec (P : val -> Prop) b x :
  length b <= 1 -> Forall P b -> P x -> length (offer b x) <= 1 /\ Forall P (offer b x).
Proof. intros Hl Hb Hx. destruct b; simpl; [split; [lia|by constructor]|done]. Qed.

Lemma race_wstep_frame ins st k w :
  r_ws (race_wstep ins st k w) = <[k := race_wnext w]> (r_ws st) /\
  r_phase (race_wstep ins st k w) = r_phase st.
Proof. unfold race_wstep. by destruct w, (default Never (ins !! k)). Qed.

Lemma race_wstep_wf ins st k x w :
  race_wf ins st -> ins !! k = Some x -> r_ws st !! k = Some w ->
  finished w = false -> is_settled x = true ->
  race_wf ins (race_wstep ins st k w) /\
  race_measure ins (race_wstep ins st k w) < race_measure ins st.
Proof.
  intros Hwf Hk Hw Hf Hx. pose proof (lookup_lt_Some _ _ _ Hw) as Hlt.
  destruct st as [ws ph res err]. destruct Hwf as [H1 H2 H3 H4 H5 H6 H7 H8 H9 H10].
  cbn [r_ws r_phase r_res r_err] in *.
  assert (w <> W3) as Hn3 by (intros ->; by destruct (H4 k)).
  assert (forall i x' w', ins !! i = Some x' -> <[k := race_wnext w]> ws !! i = Some w' ->
            is_settled x' = false -> w' = W0) as H3'.
  { intros i x' w' Hi Hw' Hx'.
    apply list_lookup_insert_Some in Hw' as [(-> & <- & _)|[? Hw']]; [congruence|eauto]. }
  assert (forall i, <[k := race_wnext w]> ws !! i <> Some W3) as H4'.
  { intros i Hi. apply list_lookup_insert_Some in Hi as [(-> & Hi & _)|[? Hi]].
    - by destruct w.
    - by destruct (H4 i). }
  assert (total remaining (<[k := race_wnext w]> ws) < total remaining ws) as Hrem.
  { pose proof (total_insert remaining ws k w (race_wnext w) Hw).
    assert (remaining (race_wnext w) < remaining w) by (destruct w; simpl; done || lia). lia. }
  assert (forall i, recorded_at (<[k := race_wnext w]> ws) i =
            if decide (i = k) then recorded (race_wnext w) else recorded_at ws i) as Hrec.
  { intros i. by rewrite recorded_at_insert. }
  split.
  2: { unfold race_measure. destruct (race_wstep_frame ins
         (RaceState ws ph res err) k w) as [-> ->].
       cbn [r_ws r_phase]. rewrite length_insert. lia. }
  unfold race_wstep. rewrite Hk. cbn [default r_ws r_phase r_res r_err]. unfold id.
  assert (w = W2 \/ w <> W2) as [->|Hne] by (destruct w; auto).
  - destruct x as [v|f|]; [| |done].
    + destruct (offer_spec (ok_value ins) res v) as [Hl Hall];
        [apply H5|apply H5|by exists k|].
      constructor; cbn [r_ws r_phase r_res r_err]; rewrite ?length_insert; try done.
      * intros. left. apply offer_nonempty.
      * intros k' f Hk' Hr. rewrite Hrec in Hr. case_decide; [congruence|].
        by apply (H8 k' f).
    + destruct (offer_spec (fun x => exists f0, failed_with ins f0 /\ x = VErr (Some f0))
                  err (VErr (Some f))) as [Hl Hall];
        [apply H6|apply H6|exists f; split; [by exists k|done]|].
      constructor; cbn [r_ws r_phase r_res r_err]; rewrite ?length_insert; try done.
      * intros k' v Hk' Hr. rewrite Hrec in Hr. case_decide; [congruence|].
        by apply (H7 k' v).
      * intros. left. apply offer_nonempty.
  - assert (forall y z, match w, x with
                        | W2, Ok v => y v
                        | W2, Failed f => z f
                        | _, _ => RaceState (<[k := race_wnext w]> ws) ph res err
                        end = RaceState (<[k := race_wnext w]> ws) ph res err) as Hm
      by (intros; by destruct w).
    rewrite Hm.
    assert (forall i, recorded_at (<[k := race_wnext w]> ws) i = recorded_at ws i) as Hsame.
    { intros i. rewrite Hrec. case_decide; [subst|done].
      unfold recorded_at. rewrite Hw. by destruct w. }
    constructor; cbn [r_ws r_phase r_res r_err]; rewrite ?length_insert; try done.
    + intros k' v'. rewrite Hsame. apply H7.
    + intros k' f'. rewrite Hsame. apply H8.
Qed.

Lemma race_wf_phase ins st ph' :
  race_wf ins st -> running ph' = false ->
  running (r_phase st) = false ->
  held_value ph' = held_value (r_phase st) ->
  held_fault ph' = held_fault (r_phase st) ->
  race_wf ins (race_phase st ph').
Proof.
  intros [H1 H2 H3 H4 H5 H6 H7 H8 H9 H10] Hr Hr0 Hv Hf.
  constructor; cbn [race_phase r_ws r_phase r_res r_err];
    rewrite ?Hr, ?Hv, ?Hf; auto.
Qed.

Lemma race_pstep_wf ins st st' :
  race_wf ins st -> st' ∈ race_pstep ins st ->
  race_wf ins st' /\ race_measure ins st' < race_measure ins st.
Proof.
  intros Hwf Hs. unfold race_pstep in Hs.
  destruct st as [ws ph res err]. cbn [r_ws r_phase r_res r_err] in Hs.
  destruct (running ph) eqn:Hr.
  - assert (3 < phase_measure ph) as Hpm by (destruct ph as [[|]| | | | | |]; simpl; done || lia).
    destruct Hwf as [H1 H2 H3 H4 H5 H6 H7 H8 H9 H10].
    cbn [r_ws r_phase r_res r_err] in *.
    case_decide as Hlt.
    + (* go *)
      apply list_elem_of_singleton in Hs as ->. split.
      * constructor; cbn [r_ws r_phase r_res r_err]; rewrite ?length_app; simpl; try done.
        -- lia.
        -- congruence.
        -- intros i x w Hi Hw Hx. apply lookup_app_Some in Hw as [Hw|[_ Hw]]; [eauto|].
           destruct (i - length ws); simplify_eq/=; done.
        -- intros i Hi. apply lookup_app_Some in Hi as [Hi|[_ Hi]]; [by destruct (H4 i)|].
           destruct (i - length ws); simplify_eq/=.
        -- intros k v. rewrite recorded_at_app by done. apply H7.
        -- intros k f. rewrite recorded_at_app by done. apply H8.
      * unfold race_measure. cbn [r_ws r_phase r_res r_err].
        rewrite total_app, length_app. simpl. lia.
    + (* the select *)
      assert (length ws = length ins) as Hn by lia.
      apply elem_of_app in Hs as [Hs|Hs].
      * destruct res as [|v b]; [by apply elem_of_nil in Hs|].
        apply list_elem_of_singleton in Hs as ->.
        destruct H5 as [Hl Hall]. apply Forall_cons_1 in Hall as [Hv Hall].
        split.
        -- constructor; cbn [r_ws r_phase r_res r_err]; simpl; try done.
           ++ split; [simpl in Hl; lia|done].
           ++ intros. by right.
           ++ intros. by right.
           ++ by intros ? [= <-].
        -- unfold race_measure. simpl. lia.
      * destruct err as [|x b]; [by apply elem_of_nil in Hs|].
        apply list_elem_of_singleton in Hs as ->.
        destruct H6 as [Hl Hall]. apply Forall_cons_1 in Hall as [(f & Hf & ->) Hall].
        split.
        -- constructor; cbn [r_ws r_phase r_res r_err]; simpl; try done.
           ++ split; [simpl in Hl; lia|done].
           ++ intros. by right.
           ++ intros. by right.
           ++ by intros ? [= <-].
        -- unfold race_measure. simpl. lia.
  - destruct ph as [a| | |v e|v e|v e|v e]; try done.
    + apply list_elem_of_singleton in Hs as ->. split.
      * apply race_wf_phase; try done; by destruct e.
      * unfold race_measure. simpl. lia.
    + apply list_elem_of_singleton in Hs as ->. split.
      * apply race_wf_phase; try done; by destruct e.
      * unfold race_measure. simpl. lia.
    + apply list_elem_of_singleton in Hs as ->. split.
      * apply race_wf_phase; try done; by destruct e.
      * unfold race_measure. simpl. lia.
    + by apply elem_of_nil in Hs.
Qed.

Lemma race_pool_producer ins st st' :
  st' ∈ race_pstep ins st ->
  <[1 := race_producer ins st']> (race_pool ins st) ++ race_spawn ins st =
  race_pool ins st'.
Proof.
  intros Hs. unfold race_pstep, race_spawn in *.
  destruct st as [ws ph res err]. cbn [r_ws r_phase r_res r_err] in *.
  destruct (running ph) eqn:Hr.
  - cbn [andb]. case_decide as Hlt.
    + apply list_elem_of_singleton in Hs as ->.
      rewrite bool_decide_eq_true_2 by done.
      unfold race_pool. cbn [r_ws r_phase r_res r_err].
      rewrite imap_app. cbn [imap app]. rewrite Nat.add_0_r.
      reflexivity.
    + rewrite bool_decide_eq_false_2 by done. rewrite app_nil_r.
      apply elem_of_app in Hs as [Hs|Hs].
      * destruct res; [by apply elem_of_nil in Hs|].
        by apply list_elem_of_singleton in Hs as ->.
      * destruct err; [by apply elem_of_nil in Hs|].
        by apply list_elem_of_singleton in Hs as ->.
  - cbn [andb]. rewrite app_nil_r.
    destruct ph as [a| | |v e|v e|v e|v e]; try done;
      try (by apply list_elem_of_singleton in Hs as ->).
    by apply elem_of_nil in Hs.
Qed.

Lemma race_step ins st c' :
  race_wf ins st -> c' ∈ step (race_config ins st) ->
  exists st', race_wf ins st' /\ c' = race_config ins st' /\
    race_measure ins st' < race_measure ins st.
Proof.
  intros Hwf Hin.
  apply step_cases in Hin as (i & t & h' & t' & sp & Hi & Hts & ->);
    [|apply race_pool_quiet].
  change (now (race_config ins st)) with 0.
  change (pool (race_config ins st)) with (race_pool ins st) in *.
  apply race_pool_lookup in Hi as [(-> & ->)|[(-> & ->)|(k & w & -> & Hw & ->)]].
  - by apply elem_of_nil in Hts.
  - rewrite race_producer_step in Hts by done.
    apply list_elem_of_fmap in Hts as (st' & [= -> -> ->] & Hs).
    destruct (race_pstep_wf _ _ _ Hwf Hs) as [Hwf' Hm].
    exists st'. split_and!; [done| |done].
    unfold race_config. cbn [mem]. f_equal. by apply race_pool_producer.
  - pose proof (lookup_lt_Some _ _ _ Hw) as Hk.
    pose proof (rw_len _ _ Hwf) as Hle.
    destruct (lookup_lt_is_Some_2 ins k) as [x Hx]; [lia|].
    rewrite Hx in Hts. cbn [default] in Hts. unfold id in Hts.
    rewrite (race_watcher_step ins st k x w Hx Hw Hwf) in Hts.
    destruct (finished w) eqn:Hf; [by apply elem_of_nil in Hts|].
    destruct (is_settled x) eqn:Hsx; [|by apply elem_of_nil in Hts]. simpl in Hts.
    apply list_elem_of_singleton in Hts as [= -> -> ->].
    destruct (race_wstep_wf _ _ _ _ _ Hwf Hx Hw Hf Hsx) as [Hwf' Hm].
    destruct (race_wstep_frame ins st k w) as (Hws & Hph).
    exists (race_wstep ins st k w). split_and!; [done| |done].
    unfold race_config. cbn [mem]. f_equal. rewrite app_nil_r.
    rewrite <- (race_pool_insert ins st k (race_wnext w) _ Hws Hph).
    by rewrite Hx.
Qed.

Lemma race_run (P Q : config -> Prop) ins :
  (forall st, race_wf ins st -> P (race_config ins st)) ->
  (forall st, race_wf ins st -> step (race_config ins st) = [] -> Q (race_config ins st)) ->
  forall st, race_wf ins st -> run P Q (race_config ins st).
Proof.
  intros HP HQ st. remember (race_measure ins st) as m eqn:Hm.
  revert st Hm. induction (lt_wf m) as [m _ IH]. intros st -> Hwf.
  destruct (step (race_config ins st)) as [|c1 l] eqn:E.
  - apply run_end; auto.
  - apply run_step; [auto|by rewrite E|]. intros c' Hin.
    destruct (race_step ins st c' Hwf Hin) as (st' & Hwf' & -> & Hlt).
    by eapply IH.
Qed.

(** Where Race comes to rest: its promise is settled and published, or no
    input is settled. *)
Lemma race_terminal ins st :
  race_wf ins st -> step (race_config ins st) = [] ->
  (exists v e, r_phase st = AFin v e) \/
  (running (r_phase st) = true /\ Forall (fun x => is_settled x = false) ins).
Proof.
  intros Hwf Hstuck.
  assert (race_pstep ins st = []) as Hp.
  { destruct (race_pstep ins st) as [|st' l] eqn:Hs; [done|]. exfalso.
    eapply (step_nonempty (race_config ins st) 1); [done| |done].
    rewrite race_producer_step by done. by rewrite Hs. }
  assert (forall k x w, ins !! k = Some x -> r_ws st !! k = Some w ->
            finished w = false -> is_settled x = false) as Hblocked.
  { intros k x w Hk Hw Hf. destruct (is_settled x) eqn:Hx; [|done]. exfalso.
    eapply (step_nonempty (race_config ins st) (S (S k))); [| |done].
    - cbn [pool race_config]. by apply race_pool_watcher.
    - rewrite Hk. cbn [default]. unfold id.
      rewrite (race_watcher_step ins st k x w Hk Hw Hwf), Hf, Hx. done. }
  unfold race_pstep in Hp.
  destruct (running (r_phase st)) eqn:Hr.
  - right. split; [done|]. case_decide as Hlt; [done|].
    pose proof (rw_len _ _ Hwf) as Hle.
    assert (length (r_ws st) = length ins) as Hn by lia.
    apply app_eq_nil in Hp as [Hres Herr].
    assert (r_res st = []) as Hres' by (by destruct (r_res st)).
    assert (r_err st = []) as Herr' by (by destruct (r_err st)).
    apply Forall_lookup. intros k x Hk.
    destruct (lookup_lt_is_Some_2 (r_ws st) k) as [w Hw].
    { rewrite Hn. by eapply lookup_lt_Some. }
    destruct (finished w) eqn:Hf; [|by eapply Hblocked].
    assert (recorded_at (r_ws st) k = true) as Hrec
      by (unfold recorded_at; rewrite Hw; by destruct w).
    destruct x as [v|f|]; [| |done].
    + destruct (rw_sent _ _ Hwf k v Hk Hrec); congruence.
    + destruct (rw_failed _ _ Hwf k f Hk Hrec); congruence.
  - left. destruct (r_phase st) as [a| | |v e|v e|v e|v e]; try done.
    by exists v, e.
Qed.





Lemma race_start_wf ins : race_wf ins (RaceState [] (ALoop false) [] []).
Proof.
  constructor; simpl; try done.
  - lia.
  - split; [lia|constructor].
  - split; [lia|constructor].
Qed.










(** ** No combinator panics *)

Lemma crashed_false c :
  (forall i t, pool c !! i = Some t -> forall r, t <> Plain (Panic r)) ->
  crashed c = false.
Proof.
  intros H. unfold crashed. destruct (existsb _ _) eqn:E; [|done].
  apply existsb_exists in E as (t & Hin & Ht).
  apply list_elem_of_In, list_elem_of_lookup in Hin as [i Hi].
  destruct t as [[]|]; try done. by destruct (H i _ Hi r).
Qed.

Lemma crashed_lone_producer cl h p s m : crashed (lone_producer cl h p s m) = false.
Proof.
  apply crashed_false. intros i t Hi r ->. unfold lone_producer in Hi. simpl in Hi.
  destruct i as [|[|i]]; simplify_eq/=.
  by apply list_elem_of_lookup_2, elem_of_replicate in Hi as [? _].
Qed.

Lemma crashed_race ins st : crashed (race_config ins st) = false.
Proof.
  apply crashed_false. intros i t Hi r ->.
  apply race_pool_lookup in Hi as [(_ & ?)|[(_ & ?)|(k & w & _ & _ & Ht)]]; try done.
  injection Ht as Ht. destruct w; simpl in Ht; try done.
  by destruct (input_result _).2.
Qed.

Lemma crashed_any ins st : crashed (any_config ins st) = false.
Proof.
  apply crashed_false. intros i t Hi r ->.
  apply any_pool_lookup in Hi
    as [(_ & ?)|[(_ & ?)|[(k & w & _ & _ & Ht)|(_ & Ht)]]]; try done.
  - injection Ht as Ht. destruct w; simpl in Ht; try done.
    by destruct (input_result _).2.
  - by destruct (a_closer st).
Qed.

Lemma crashed_join ins K dst enc fin init a ws :
  crashed (join_config ins K dst enc fin init a ws) = false.
Proof.
  apply crashed_false. intros i t Hi r ->.
  apply join_pool_lookup in Hi as [(_ & ?)|[(_ & ?)|(k & w & _ & _ & Ht)]]; try done.
  injection Ht as Ht. by destruct w.
Qed.

Lemma race_no_panic ins :
  run (fun c => crashed c = false) (Race_rest ins) (Race_start ins).
Proof.
  unfold Race_start, combinator_start.
  eapply run_det; [reflexivity|done|]. simpl.
  eapply run_det; [reflexivity|done|].
  eapply run_det; [reflexivity|done|]. simpl.
  match goal with |- run ?P ?Q ?c =>
    replace c with (race_config ins (RaceState [] (ALoop false) [] []))
  end.
  2: { unfold race_config, race_pool, race_producer, race_stage, inputs_heap. simpl.
       rewrite input_cells_nil, length_fmap.
       unfold race_loop. rewrite Nat.sub_0_r. done. }
  apply race_run; [intros; apply crashed_race| |apply race_start_wf].
  intros st Hwf Hstuck k x Hk.
  assert (forall w, r_ws st !! k = Some w -> finished w = false -> is_settled x = false)
    as Hblocked.
  { intros w Hw Hf. destruct (is_settled x) eqn:Hx; [|done]. exfalso.
    eapply (step_nonempty (race_config ins st) (S (S k))); [| |done].
    - cbn [pool race_config]. by apply race_pool_watcher.
    - rewrite Hk. cbn [default]. unfold id.
      rewrite (race_watcher_step ins st k x w Hk Hw Hwf), Hf, Hx. done. }
  assert (length (r_ws st) = length ins) as Hn.
  { destruct (race_terminal _ _ Hwf Hstuck) as [(v & e & Hph)|[Hr _]].
    - apply (rw_full _ _ Hwf). by rewrite Hph.
    - pose proof (rw_len _ _ Hwf) as Hle.
      destruct (decide (length (r_ws st) < length ins)) as [Hlt|]; [|lia]. exfalso.
      eapply (step_nonempty (race_config ins st) 1); [done| |done].
      rewrite race_producer_step by done. unfold race_pstep.
      rewrite Hr, decide_True by done. done. }
  destruct (lookup_lt_is_Some_2 (r_ws st) k) as [w Hw].
  { rewrite Hn. by eapply lookup_lt_Some. }
  cbn [pool race_config]. rewrite (race_pool_watcher ins st k w Hw), Hk.
  cbn [default]. unfold id. do 2 f_equal.
  destruct (is_settled x) eqn:Hx.
  - destruct (finished w) eqn:Hf; [by destruct w|].
    specialize (Hblocked w Hw Hf). congruence.
  - by rewrite (rw_never _ _ Hwf _ _ _ Hk Hw Hx).
Qed.

Lemma any_no_panic ins :
  run (fun c => crashed c = false) anything (Any_start ins).
Proof.
  unfold Any_start, combinator_start.
  eapply run_det; [reflexivity|done|]. simpl.
  eapply run_det; [reflexivity|done|].
  eapply run_det; [reflexivity|done|].
  eapply run_det; [reflexivity|done|]. simpl.
  match goal with |- run ?P ?Q ?c =>
    replace c with (any_config ins (AnyState [] (ALoop false) CIdle [] []))
  end.
  2: { unfold any_config, any_pool, inputs_heap. simpl.
       rewrite input_cells_nil, length_fmap.
       unfold any_loop. rewrite Nat.sub_0_r. done. }
  apply any_run; [intros; apply crashed_any|done|apply any_start_wf].
Qed.

Lemma settle_no_panic cl L chs wg sl v e m :
  run (fun c => crashed c = false) anything
    (lone_producer cl (Heap (L ++ [new_promise Pending VZero None]) chs wg sl)
       (length L) (Exec (Return v e)) m).
Proof. apply settle_run; [intros; apply crashed_lone_producer|done]. Qed.

Lemma allsettled_no_panic ins :
  run (fun c => crashed c = false) anything (AllSettled_start ins).
Proof.
  set (I := (fun x => input_cell x false) <$> ins).
  assert (length I = length ins) as HI by apply length_fmap.
  unfold AllSettled_start, combinator_start, inputs_heap. fold I.
  eapply run_det; [reflexivity|done|]. simpl. rewrite length_seq.
  eapply run_det; [reflexivity|done|].
  eapply run_det; [reflexivity|done|]. simpl.
  set (init := [replicate (length ins) (VResult "" VZero None)]).
  pose (dst := fun (_ : nat) (_ : input) => 0).
  pose (enc := fun (_ : nat) (x : input) => settle_record x).
  pose (fin := AllSettled_collect 0).
  assert (forall i x, ins !! i = Some x -> is_settled x = true ->
            AllSettled_K i (input_result x).1 (input_result x).2 =
            Store (dst i x) i (enc i x) (WgDone 0 Exit)) as HK.
  { intros. by apply AllSettled_K_spec. }
  assert (forall i x, ins !! i = Some x ->
            exists l, init !! dst i x = Some l /\ i < length l) as Hdst.
  { intros i x Hi. eexists. split; [done|]. rewrite length_replicate.
    by eapply lookup_lt_Some. }
  match goal with |- run ?P ?Q ?c =>
    replace c with (join_config ins AllSettled_K dst enc fin init false [])
  end.
  2: { unfold join_config, join_pool. rewrite join_cells_nil, join_slices_nil.
       simpl. unfold join_loop. fold I. rewrite HI, Nat.sub_0_r. done. }
  apply (join_run ins AllSettled_K dst enc fin init HK Hdst).
  - intros. apply crashed_join.
  - done.
  - intros Hall. unfold join_done. rewrite join_cells_done.
    set (L := (fun x => input_cell x (is_settled x)) <$> ins).
    assert (length L = length ins) as HL by apply length_fmap.
    rewrite <- HL.
    change (Config 0 ?h ([Plain Exit; Producer ?p ?s] ++ replicate ?m (Plain Exit)))
      with (lone_producer 0 h p s m).
    eapply run_det; [apply lone_producer_step|apply crashed_lone_producer|].
    { unfold fin, AllSettled_collect. simpl. reflexivity. }
    apply settle_no_panic.
  - apply join_start_wf.
Qed.

Lemma all_no_panic ins :
  run (fun c => crashed c = false) anything (All_start ins).
Proof.
  set (I := (fun x => input_cell x false) <$> ins).
  assert (length I = length ins) as HI by apply length_fmap.
  unfold All_start, combinator_start, inputs_heap. fold I.
  eapply run_det; [reflexivity|done|]. simpl. rewrite length_seq.
  eapply run_det; [reflexivity|done|].
  eapply run_det; [reflexivity|done|].
  eapply run_det; [reflexivity|done|]. simpl.
  set (init := [replicate (length ins) VZero; replicate (length ins) (VErr None)]).
  pose (dst := fun (_ : nat) (x : input) => All_dst x).
  pose (enc := fun (_ : nat) (x : input) => All_enc x).
  pose (fin := All_collect 0 1).
  assert (forall i x, ins !! i = Some x -> is_settled x = true ->
            All_K i (input_result x).1 (input_result x).2 =
            Store (dst i x) i (enc i x) (WgDone 0 Exit)) as HK.
  { intros. by apply All_K_spec. }
  assert (forall i x, ins !! i = Some x ->
            exists l, init !! dst i x = Some l /\ i < length l) as Hdst.
  { intros i x Hi. apply lookup_lt_Some in Hi. unfold dst.
    destruct x; simpl; eexists; (split; [done|]); by rewrite length_replicate. }
  match goal with |- run ?P ?Q ?c =>
    replace c with (join_config ins All_K dst enc fin init false [])
  end.
  2: { unfold join_config, join_pool. rewrite join_cells_nil, join_slices_nil.
       simpl. unfold join_loop. fold I. rewrite HI, Nat.sub_0_r. done. }
  apply (join_run ins All_K dst enc fin init HK Hdst).
  - intros. apply crashed_join.
  - done.
  - intros Hall. unfold join_done. rewrite join_cells_done.
    set (L := (fun x => input_cell x (is_settled x)) <$> ins).
    assert (length L = length ins) as HL by apply length_fmap.
    rewrite <- HL.
    change (Config 0 ?h ([Plain Exit; Producer ?p ?s] ++ replicate ?m (Plain Exit)))
      with (lone_producer 0 h p s m).
    eapply run_det; [apply lone_producer_step; reflexivity|apply crashed_lone_producer|].
    cbv beta.
    destruct (first_error _) as [f|].
    + apply settle_no_panic.
    + eapply run_det; [apply lone_producer_step; reflexivity|apply crashed_lone_producer|].
      apply settle_no_panic.
  - apply join_start_wf.
Qed.

(** X15: no goroutine of All, AllSettled, Race or Any dies of a panic,
    over n distinct inputs that nobody else awaits and under every
    schedule: no index is out of range, the WaitGroup counter never goes
    negative, and Any closes [result] only when no goroutine can send on it
    any more. *)
Theorem combinators_never_panic (ins : list input) :
  (forall c, steps (All_start ins) c -> crashed c = false) /\
  (forall c, steps (AllSettled_start ins) c -> crashed c = false) /\
  (forall c, steps (Race_start ins) c -> crashed c = false) /\
  (forall c, steps (Any_start ins) c -> crashed c = false).
Proof.
  split_and!.
  - apply (run_always _ _ _ (all_no_panic ins)).
  - apply (run_always _ _ _ (allsettled_no_panic ins)).
  - apply (run_always _ _ _ (race_no_panic ins)).
  - apply (run_always _ _ _ (any_no_panic ins)).
Qed.

(** X14: the goroutines of Race over n distinct inputs that nobody else
    awaits (each Fulfilled or Rejected with a fault before the call, or
    never settling), when everything has come to rest: the goroutine of a
    settled input has exited, whether its outcome was taken or dropped by
    the non-blocking send; the goroutine of an input that never settles is
    still blocked in its Await. *)
Theorem race_goroutines_at_rest (ins : list input) :
  halts (Race_start ins) /\
  forall c, steps (Race_start ins) c -> terminal c ->
    forall k x, ins !! k = Some x ->
      pool c !! S (S k) =
        Some (Plain (if is_settled x then Exit else Race_watcher 0 1 k)).
Proof.
  pose proof (race_no_panic ins) as Hr. split.
  - by eapply run_halts.
  - intros c Hs T. apply (run_ends _ _ _ Hr c Hs T).
Qed.

Lemma race_goroutines_at_rest_witness :
  [Ok (VInt 7); Never] !! 1 = Some Never /\
  forall c, steps (Race_start [Ok (VInt 7); Never]) c -> terminal c ->
    pool c !! 3 = Some (Plain (Race_watcher 0 1 1)).
Proof.
  split; [reflexivity|]. intros c Hs T.
  exact (proj2 (race_goroutines_at_rest [Ok (VInt 7); Never]) c Hs T 1 Never eq_refl).
Defined.

(** ** Timeout cancels nothing *)

Lemma input_won_rests v e d0 d clock T :
  T = clock + d ->
  run anything
    (rests_at T (settled_as (await_result v e)) (timer_outcome d0)
       (settled_as (await_result v e)))
    (timeout_input_won v e d0 d clock).
Proof.
  intros ->. revert clock. induction d as [|d IH]; intros clock.
  - rewrite Nat.add_0_r. destruct e as [f|]; reach_run 20.
    all: split; [done|intros T; try not_terminal T; split_and!; reflexivity].
  - replace (clock + S d) with (S clock + d) by lia.
    destruct e as [f|]; tick_step IH.
Qed.

Lemma timer_won_rests v e d0 t clock T :
  T = clock + t ->
  run anything
    (rests_at T (settled_as (await_result v e)) (timer_outcome d0) (timer_outcome d0))
    (timeout_timer_won v e d0 t clock).
Proof.
  intros ->. revert clock. induction t as [|t IH]; intros clock.
  - rewrite Nat.add_0_r. destruct e as [f|]; reach_run 20.
    all: split; [done|intros T; try not_terminal T; split_and!; reflexivity].
  - replace (clock + S t) with (S clock + t) by lia.
    destruct e as [f|]; tick_step IH.
Qed.

Lemma waiting_input_rests v e d0 t g clock T :
  T = clock + t + S g ->
  run anything
    (rests_at T (settled_as (await_result v e)) (timer_outcome d0)
       (settled_as (await_result v e)))
    (timeout_waiting v e d0 t (t + S g) clock).
Proof.
  intros ->. revert clock. induction t as [|t IH]; intros clock.
  - destruct e as [f|]; frontier_any 30; apply input_won_rests; simpl; lia.
  - replace (clock + S t + S g) with (S clock + t + S g) by lia. tick_step IH.
Qed.

Lemma waiting_timer_rests v e d0 d g clock T :
  T = clock + d + S g ->
  run anything
    (rests_at T (settled_as (await_result v e)) (timer_outcome d0) (timer_outcome d0))
    (timeout_waiting v e d0 (d + S g) d clock).
Proof.
  intros ->. revert clock. induction d as [|d IH]; intros clock.
  - frontier_any 30; apply timer_won_rests; simpl; lia.
  - replace (clock + S d + S g) with (S clock + d + S g) by lia. tick_step IH.
Qed.

Lemma timeout_input_rests v e t g :
  run anything
    (rests_at (t + S g) (settled_as (await_result v e)) (timer_outcome (t + S g))
       (settled_as (await_result v e)))
    (start (timeout_scenario v e t (t + S g))).
Proof.
  destruct t as [|t].
  - destruct e as [f|].
    + frontier_same 40 (timeout_input_won v (Some f) (S g) (S g) 0).
      by apply input_won_rests.
    + frontier_same 40 (timeout_input_won v None (S g) (S g) 0).
      by apply input_won_rests.
  - frontier_same 40 (timeout_waiting v e (S t + S g) (S t) (S t + S g) 0).
    by apply (waiting_input_rests v e (S t + S g) (S t) g 0).
Qed.

Lemma timeout_timer_rests v e d g :
  run anything
    (rests_at (d + S g) (settled_as (await_result v e)) (timer_outcome d) (timer_outcome d))
    (start (timeout_scenario v e (d + S g) d)).
Proof.
  destruct d as [|d].
  - frontier_same 40 (timeout_timer_won v e 0 (S g) 0). by apply timer_won_rests.
  - frontier_same 40 (timeout_waiting v e (S d) (S d + S g) (S d) 0).
    by apply (waiting_timer_rests v e (S d) (S d) g 0).
Qed.

(** X16: Timeout(f, d) cancels nothing, for f the promise of an executor
    that returns (v, e) after t, which nobody else awaits.  Every execution
    ends.  When f settles at t < d, the timer still sleeps its d and rejects
    its own promise: the goroutines come to rest at time d only, with the
    promise of Timeout settled like f, not changed by the late timer.  When
    d < t, the promise of Timeout is rejected with the timeout fault and f
    runs on: everything is at rest at time t, with f settled as its
    executor returned. *)
Theorem timeout_cancels_nothing (v : val) (e : error) (t d : nat) :
  (t < d ->
   halts (start (timeout_scenario v e t d)) /\
   forall c, steps (start (timeout_scenario v e t d)) c -> terminal c ->
     rests_at d (settled_as (await_result v e)) (timer_outcome d)
       (settled_as (await_result v e)) c) /\
  (d < t ->
   halts (start (timeout_scenario v e t d)) /\
   forall c, steps (start (timeout_scenario v e t d)) c -> terminal c ->
     rests_at t (settled_as (await_result v e)) (timer_outcome d) (timer_outcome d) c).
Proof.
  split.
  - intros Hlt. pose proof (timeout_input_rests v e t (d - t - 1)) as Hr.
    replace (t + S (d - t - 1)) with d in Hr by lia.
    split; [by eapply run_halts|apply (run_ends _ _ _ Hr)].
  - intros Hlt. pose proof (timeout_timer_rests v e d (t - d - 1)) as Hr.
    replace (d + S (t - d - 1)) with t in Hr by lia.
    split; [by eapply run_halts|apply (run_ends _ _ _ Hr)].
Qed.

Lemma timeout_cancels_nothing_witness :
  (5 < 50 /\
   halts (start (timeout_scenario (VStr "fast") None 5 50)) /\
   forall c, steps (start (timeout_scenario (VStr "fast") None 5 50)) c -> terminal c ->
     rests_at 50 (Fulfilled, VStr "fast", None) (timer_outcome 50)
       (Fulfilled, VStr "fast", None) c) /\
  (5 < 50 /\
   halts (start (timeout_scenario (VStr "slow") None 50 5)) /\
   forall c, steps (start (timeout_scenario (VStr "slow") None 50 5)) c -> terminal c ->
     rests_at 50 (Fulfilled, VStr "slow", None) (timer_outcome 5) (timer_outcome 5) c).
Proof.
  assert (5 < 50) as H by lia.
  split; (split; [exact H|]).
  - exact (proj1 (timeout_cancels_nothing (VStr "fast") None 5 50) H).
  - exact (proj2 (timeout_cancels_nothing (VStr "slow") None 50 5) H).
Defined.

(** ** The goroutines of Any at rest *)

Lemma any_stuck ins st :
  any_wf ins st -> step (any_config ins st) = [] ->
  any_pstep ins st = None /\ any_cstep st = None /\
  forall k x w, ins !! k = Some x -> a_ws st !! k = Some w ->
    finished w = false -> is_settled x = false.
Proof.
  intros Hwf Hstuck. split_and!.
  - destruct (any_pstep ins st) as [st'|] eqn:Hs; [|done]. exfalso.
    eapply (step_nonempty (any_config ins st) 1); [done| |done].
    rewrite any_producer_step by done. by rewrite Hs.
  - destruct (any_cstep st) as [st'|] eqn:Hs; [|done]. exfalso.
    destruct (any_cstep_wf _ _ _ Hwf Hs) as (_ & _ & _ & _ & Hne & Hne').
    destruct (any_closer (a_closer st)) as [|t l] eqn:Ht; [done|].
    assert (l = []) as -> by (by destruct (a_closer st); simplify_eq/=).
    destruct (any_closer (a_closer st')) as [|t1 l1] eqn:Ht'; [done|].
    eapply (step_nonempty (any_config ins st) (S (S (length (a_ws st)))) t).
    + cbn [pool any_config]. unfold any_pool. simpl.
      rewrite lookup_app_r; rewrite length_imap; [|done].
      by rewrite Nat.sub_diag, Ht.
    + rewrite (any_closer_step ins st t Ht), Hs, Ht'. reflexivity.
    + done.
  - intros k x w Hk Hw Hf. destruct (is_settled x) eqn:Hx; [|done]. exfalso.
    eapply (step_nonempty (any_config ins st) (S (S k))); [| |done].
    + cbn [pool any_config]. by apply any_pool_watcher.
    + rewrite Hk. cbn [default]. unfold id.
      rewrite (any_watcher_step ins st k x w Hk Hw Hwf), Hf, Hx. done.
Qed.

Lemma forallb_settled ins :
  forallb is_settled ins = true <-> Forall (fun x => is_settled x = true) ins.
Proof.
  rewrite forallb_forall, Forall_forall. split; intros H x Hx; apply H.
  - by apply list_elem_of_In.
  - by apply list_elem_of_In.
Qed.

Lemma any_rest ins st :
  any_wf ins st -> step (any_config ins st) = [] -> Any_rest ins (any_config ins st).
Proof.
  intros Hwf Hstuck. destruct (any_stuck _ _ Hwf Hstuck) as (Hp & Hc & Hblocked).
  assert (in_loop (a_phase st) = false) as Hloop.
  { unfold any_pstep in Hp. destruct (a_phase st) as [[|]| | | | | |]; try done.
    by case_decide. }
  pose proof (aw_full _ _ Hwf Hloop) as Hn.
  assert (a_closer st <> CIdle) as Hidle.
  { intros Hi. apply (aw_closer _ _ Hwf) in Hi. congruence. }
  assert (pending_add (a_phase st) = 0) as Hadd
    by (destruct (a_phase st) as [[|]| | | | | |]; done).
  assert (forall k x, ins !! k = Some x ->
            a_ws st !! k = Some (if is_settled x then W4 else W0)) as Hws.
  { intros k x Hk.
    destruct (lookup_lt_is_Some_2 (a_ws st) k) as [w Hw].
    { rewrite Hn. by eapply lookup_lt_Some. }
    rewrite Hw. f_equal. destruct (is_settled x) eqn:Hx.
    - destruct (finished w) eqn:Hf; [by destruct w|].
      specialize (Hblocked _ _ _ Hk Hw Hf). congruence.
    - by apply (aw_never _ _ Hwf _ _ _ Hk Hw Hx). }
  assert (a_closer st = if forallb is_settled ins then CDone else CWait) as Hcl.
  { destruct (forallb is_settled ins) eqn:Hall.
    - apply forallb_settled in Hall.
      assert (total active (a_ws st) = 0) as Hz.
      { destruct (Nat.eq_dec (total active (a_ws st)) 0) as [|Hnz]; [done|].
        destruct (total_active_exists _ Hnz) as (k & w & Hw & Hf).
        destruct (lookup_lt_is_Some_2 ins k) as [x Hx].
        { rewrite <- Hn. by eapply lookup_lt_Some. }
        pose proof (Hws k x Hx) as Hw'.
        rewrite (Forall_lookup_1 _ _ _ _ Hall Hx) in Hw'. by simplify_eq. }
      unfold any_cstep in Hc. destruct (a_closer st); try done.
      by rewrite Hz, Hadd in Hc.
    - assert (total active (a_ws st) <> 0) as Hnz.
      { intros Hz. apply total_active_zero in Hz.
        assert (forallb is_settled ins = true); [|congruence].
        apply forallb_settled, Forall_lookup. intros k x Hx.
        pose proof (Hws k x Hx) as Hw. rewrite Hz in Hw.
        rewrite lookup_replicate_2 in Hw by (rewrite Hn; by eapply lookup_lt_Some).
        by destruct (is_settled x). }
      destruct (a_closer st) eqn:Hcs; try done.
      + by destruct Hnz; apply (aw_closing _ _ Hwf); left.
      + by destruct Hnz; apply (aw_closing _ _ Hwf); right. }
  split_and!.
  - intros k x Hk. cbn [pool any_config].
    rewrite (any_pool_watcher ins st k _ (Hws k x Hk)), Hk. cbn [default]. unfold id.
    by destruct (is_settled x).
  - cbn [pool any_config]. unfold any_pool. rewrite <- Hn. simpl.
    rewrite lookup_app_r; rewrite length_imap; [|done].
    rewrite Nat.sub_diag, Hcl. by destruct (forallb is_settled ins).
  - simpl. rewrite Hcl. by destruct (forallb is_settled ins).
Qed.

Lemma any_rest_run ins : run anything (Any_rest ins) (Any_start ins).
Proof.
  unfold Any_start, combinator_start.
  eapply run_det; [reflexivity|done|]. simpl.
  eapply run_det; [reflexivity|done|].
  eapply run_det; [reflexivity|done|].
  eapply run_det; [reflexivity|done|]. simpl.
  match goal with |- run ?P ?Q ?c =>
    replace c with (any_config ins (AnyState [] (ALoop false) CIdle [] []))
  end.
  2: { unfold any_config, any_pool, inputs_heap. simpl.
       rewrite input_cells_nil, length_fmap.
       unfold any_loop. rewrite Nat.sub_0_r. done. }
  apply any_run; [done|apply any_rest|apply any_start_wf].
Qed.

(** X17: the goroutines of Any over n distinct inputs that nobody else
    awaits (each Fulfilled or Rejected with a fault before the call, or
    never settling).  Every execution ends, and when everything has come to
    rest the goroutine of a settled input has exited and the goroutine of
    an input that never settles is still blocked in its Await.  If every
    input is settled, [result] has been closed and the closing goroutine
    has exited; if some input never settles, [result] is open and the
    closing goroutine is blocked in [wg.Wait()] for ever, also when Any has
    long fulfilled. *)
Theorem any_goroutines_at_rest (ins : list input) :
  halts (Any_start ins) /\
  forall c, steps (Any_start ins) c -> terminal c ->
    (forall k x, ins !! k = Some x ->
       pool c !! S (S k) =
         Some (Plain (if is_settled x then Exit else Any_watcher 0 0 0 k))) /\
    pool c !! S (S (length ins)) =
      Some (Plain (if forallb is_settled ins then Exit else Any_closer 0 0)) /\
    closed <$> chans (mem c) !! 0 = Some (forallb is_settled ins).
Proof.
  pose proof (any_rest_run ins) as Hr. split.
  - by eapply run_halts.
  - apply (run_ends _ _ _ Hr).
Qed.

Lemma any_goroutines_at_rest_witness :
  exists c, steps (Any_start [Ok (VInt 7); Never]) c /\ terminal c /\
    has_state c 2 Fulfilled = true /\
    pool c !! 3 = Some (Plain (Any_watcher 0 0 0 1)) /\
    pool c !! 4 = Some (Plain (Any_closer 0 0)).
Proof.
  destruct (reach_exists 60 (Any_start [Ok (VInt 7); Never]) _
              (fun c => bool_decide (step c = []) && has_state c 2 Fulfilled)
              ltac:(vm_compute; reflexivity) ltac:(vm_compute; reflexivity))
    as (c & Hs & Hc).
  apply andb_true_iff in Hc as [T Hf]. apply bool_decide_eq_true in T.
  destruct (proj2 (any_goroutines_at_rest [Ok (VInt 7); Never]) c Hs T) as (Hw & Hcl & _).
  exists c. split_and!; [done|done|done|exact (Hw 1 Never eq_refl)|exact Hcl].
Defined.
